(** * CF Clearance cache and refresh coordinator

    A shallow embedding of [app/services/cf_clearance/cache.py],
    [app/services/cf_clearance/service.py],
    [app/services/cf_clearance/integration.py],
    [app/api/v1/admin_api/cf_clearance.py], the credential lookups of
    [app/services/reverse/utils/headers.py] and [app/core/config_env.py],
    followed by the properties of the credential cache, of the refresh
    coordinator and of the environment overlay.

    Conventions.
    - [time.time()] is read in whole epoch seconds, in [Z]: a clock small
      enough (below [2^53] in size) to be a float of exactly that value.
    - [expires_at] is the number that [response.json()] gave, unchecked: a
      Python [int] of any size or a binary64 [float], NaN and the infinities
      included ([PyNumber.t]). A reply whose [expires_at] is no number (a
      string, a list) is not modelled; neither is one whose other fields
      are not of the types that [CFClearanceCache] declares.
    - [Optional[str]] is [option string]; Python truthiness of such a value
      ([bool(x)], [x or d], [if x:]) is written out by [truthy] and [py_or].
    - A coroutine is a term of the free monad [Coro]: manager calls complete
      at once, [asyncio.sleep] and the HTTP round trip are the only points
      where the event loop can run another task. *)

From Stdlib Require Import ZArith String Ascii List Bool Lia SpecFloat.
Import ListNotations.
Open Scope string_scope.
Open Scope Z_scope.

(** ** Python helpers *)

(** [bool(s)] for a string. *)
Definition truthy_str (s : string) : bool :=
  match s with
  | EmptyString => false
  | String _ _ => true
  end.

(** [bool(x)] for an [Optional[str]]: [None] and [""] are falsy. *)
Definition truthy (x : option string) : bool :=
  match x with
  | Some s => truthy_str s
  | None => false
  end.

(** [x or d] where [x : Optional[str]] and [d : str]. *)
Definition py_or (x : option string) (d : string) : string :=
  match x with
  | Some s => if truthy_str s then s else d
  | None => d
  end.

(** [x or d] where both sides are [Optional[str]]. *)
Definition py_or_opt (x d : option string) : option string :=
  if truthy x then x else d.

(** [x or d] for an [Optional[int]]: [None] and [0] are falsy. *)
Definition py_or_int (x : option Z) (d : Z) : Z :=
  match x with
  | Some n => if n =? 0 then d else n
  | None => d
  end.

(** [x if x is not None else d]. *)
Definition if_not_none {A} (x d : option A) : option A :=
  match x with
  | Some _ => x
  | None => d
  end.

(** [a != b] on [Optional[str]]. *)
Definition opt_str_eqb (a b : option string) : bool :=
  match a, b with
  | Some x, Some y => String.eqb x y
  | None, None => true
  | _, _ => false
  end.

(** [s[:n]]. *)
Definition take (n : nat) (s : string) : string := substring 0 n s.

(** [s.rstrip('/')]. *)
Fixpoint rstrip_slash (s : string) : string :=
  match s with
  | EmptyString => EmptyString
  | String c s' =>
      match rstrip_slash s' with
      | EmptyString => if Ascii.eqb c "/"%char then EmptyString else String c EmptyString
      | r => String c r
      end
  end.

(** ** Exceptions *)

(** Exceptions that the modelled code can meet. [CancelledError] derives from
    [BaseException] only, so [except Exception] lets it through. *)
Inductive Exn : Type :=
| TimeoutException          (* httpx.TimeoutException *)
| OtherException            (* any other subclass of Exception *)
| CancelledError            (* asyncio.CancelledError *)
| HTTPException (status_code : Z).

Definition is_Exception (e : Exn) : bool :=
  match e with
  | CancelledError => false
  | _ => true
  end.

(** How a call ends: with a value or with an exception. *)
Inductive Outcome (R : Type) : Type :=
| Return (r : R)
| Raise (e : Exn).

Arguments Return {R} r.
Arguments Raise {R} e.

(** ** Numbers

    A JSON number as Python reads it: an integer literal gives an [int] of
    any size, any other number a binary64 [float]; [NaN], [Infinity] and
    [-Infinity] are read too, and a literal beyond the range of the floats
    ([1e999]) is read as an infinity. Floats are those of the specification
    of IEEE 754 arithmetic in the standard library. *)

Module PyNumber.

Inductive t : Type :=
| PyInt (z : Z)
| PyFloat (f : spec_float).

Definition prec : Z := 53.
Definition emax : Z := 1024.

(** [float(z)], rounded to the nearest float, ties to even; an infinity
    stands for the [OverflowError] that Python raises instead. *)
Definition of_Z (z : Z) : spec_float := binary_normalize prec emax z 0 false.

Definition is_finite (f : spec_float) : bool :=
  match f with
  | S754_zero _ | S754_finite _ _ _ => true
  | S754_infinity _ | S754_nan => false
  end.

Definition is_nan (x : t) : bool :=
  match x with
  | PyFloat S754_nan => true
  | _ => false
  end.

(** [bool(x)]: zero is falsy, and nothing else is; NaN is truthy. *)
Definition truthy (x : t) : bool :=
  match x with
  | PyInt z => negb (z =? 0)
  | PyFloat (S754_zero _) => false
  | PyFloat _ => true
  end.

(** [x - k] for an [int] [k]: exact on an [int], a float subtraction on a
    [float]. *)
Definition sub_int (x : t) (k : Z) : t :=
  match x with
  | PyInt z => PyInt (z - k)
  | PyFloat f => PyFloat (SFsub prec emax f (of_Z k))
  end.

(** [n >= f] and [n < f] for a float whose value is the integer [n]: a
    comparison of exact values, the value of a finite float being
    [m * 2^e]. No comparison holds of NaN. *)
Definition Z_ge_float (n : Z) (f : spec_float) : bool :=
  match f with
  | S754_nan => false
  | S754_infinity s => s
  | S754_zero _ => 0 <=? n
  | S754_finite s m e =>
      let v := cond_Zopp s (Zpos m) in
      if 0 <=? e then v * 2 ^ e <=? n else v <=? n * 2 ^ (- e)
  end.

Definition Z_lt_float (n : Z) (f : spec_float) : bool :=
  match f with
  | S754_nan => false
  | S754_infinity s => negb s
  | S754_zero _ => n <? 0
  | S754_finite s m e =>
      let v := cond_Zopp s (Zpos m) in
      if 0 <=? e then n <? v * 2 ^ e else n * 2 ^ (- e) <? v
  end.

(** [time.time() >= x] and [time.time() < x] at the clock reading [now];
    Python compares a float and an [int] by their exact values. *)
Definition time_ge (now : Z) (x : t) : bool :=
  match x with
  | PyInt z => z <=? now
  | PyFloat f => Z_ge_float now f
  end.

Definition time_lt (now : Z) (x : t) : bool :=
  match x with
  | PyInt z => now <? z
  | PyFloat f => Z_lt_float now f
  end.

(** [x - time.time()]: a float subtraction, for which an [int] is first
    made a float; [None] when that raises [OverflowError]. *)
Definition minus_time (x : t) (now : Z) : option spec_float :=
  match x with
  | PyInt z =>
      if is_finite (of_Z z) then Some (SFsub prec emax (of_Z z) (of_Z now))
      else None
  | PyFloat f => Some (SFsub prec emax f (of_Z now))
  end.

(** [int(f)]: the float cut off towards zero; [None] when Python raises
    ([OverflowError] for an infinity, [ValueError] for NaN). *)
Definition to_int (f : spec_float) : option Z :=
  match f with
  | S754_zero _ => Some 0
  | S754_finite s m e =>
      Some (cond_Zopp s
              (if 0 <=? e then Zpos m * 2 ^ e else Zpos m / 2 ^ (- e)))
  | S754_infinity _ | S754_nan => None
  end.

(** [int(x - time.time())]. *)
Definition expires_in (x : t) (now : Z) : option Z :=
  match minus_time x now with
  | Some f => to_int f
  | None => None
  end.

End PyNumber.

Definition Number : Type := PyNumber.t.

(** ** cache.py *)

Module CFClearanceCache.

Record t : Type := mk {
  cf_clearance : string;
  user_agent : string;
  browser : string;
  proxy : option string;
  expires_at : Number;
  cookie_string : option string;
  cookies : option (list (string * string))
}.

(** [is_expired(self, buffer_seconds=300)]; [now] is the value read
    from [time.time()]. [not self.expires_at] holds for a zero, and for
    nothing else. *)
Definition is_expired (self : t) (now : Z) (buffer_seconds : Z) : bool :=
  if negb (PyNumber.truthy (expires_at self)) then true
  else PyNumber.time_ge now (PyNumber.sub_int (expires_at self) buffer_seconds).

Definition is_valid_for (self : t) (now : Z)
    (browser : string) (proxy : option string) : bool :=
  if is_expired self now 300 then false
  else if negb (String.eqb self.(CFClearanceCache.browser) browser) then false
  else if negb (opt_str_eqb self.(CFClearanceCache.proxy) proxy) then false
  else true.

End CFClearanceCache.

Definition Entry : Type := CFClearanceCache.t.

Module CFClearanceCacheManager.

(** The two attributes set by [__init__] besides the lock. No method body
    awaits while it holds [self._lock], so the lock is always free when a
    task asks for it and [async with self._lock] never suspends: a method
    call is one atomic transition of the manager. *)
Record t : Type := mk {
  _cache : option Entry;
  _refreshing : bool
}.

Definition init : t := {| _cache := None; _refreshing := false |}.

(** On a hit [get_cached] writes a log line before it returns the entry;
    the line formats [int(self._cache.expires_at - time.time())], which
    raises for an expiry that is no finite float, or an [int] beyond their
    range. *)
Definition get_cached (self : t) (now : Z)
    (browser : string) (proxy : option string) : Outcome (option Entry) :=
  match _cache self with
  | Some c =>
      if CFClearanceCache.is_valid_for c now browser proxy then
        match PyNumber.expires_in (CFClearanceCache.expires_at c) now with
        | Some _ => Return (Some c)
        | None => Raise OtherException
        end
      else Return None
  | None => Return None
  end.

(** [set_cache] assigns first and logs afterwards. The log line formats
    [time.localtime(cache.expires_at)], which raises for a timestamp outside
    the platform's range: [localtime_ok] says for which timestamps it
    succeeds. The result is the new manager and the exception, if any. *)
Definition set_cache (localtime_ok : Number -> bool) (self : t) (cache : Entry)
  : t * option Exn :=
  ({| _cache := Some cache; _refreshing := _refreshing self |},
   if localtime_ok (CFClearanceCache.expires_at cache) then None
   else Some OtherException).

Definition invalidate (self : t) : t :=
  {| _cache := None; _refreshing := _refreshing self |}.

Definition is_refreshing (self : t) : bool := _refreshing self.

Definition set_refreshing (self : t) (value : bool) : t :=
  {| _cache := _cache self; _refreshing := value |}.

End CFClearanceCacheManager.

Definition Manager : Type := CFClearanceCacheManager.t.

(** ** Configuration *)

(** Modelled from the spec: [app.core.config.get_config], the read-only
    configuration collaborator. A field is [None] when its key is not set,
    and [get_config(key, default)] then yields [default]. *)
Record Config : Type := mkConfig {
  cf_clearance_service_url : option string;
  cf_clearance_api_key : option string;
  cf_clearance_target_url : option string;
  cf_clearance_timeout : option Z;
  proxy_base_proxy_url : option string;
  proxy_browser : option string;
  proxy_user_agent : option string;
  proxy_cf_clearance : option string
}.

Definition get_config {A} (value : option A) (default : A) : A :=
  match value with
  | Some v => v
  | None => default
  end.

(** ** Coroutines *)

(** [data.get(key, default)] on the reply, whose field [key] is [None] when
    the key is missing. *)
Definition dict_get {A} (value : option A) (default : A) : A :=
  match value with
  | Some v => v
  | None => default
  end.

(** What the remote service sent back, as far as the code looks at it. *)
Record Payload : Type := mkPayload {
  p_success : option bool;
  p_cf_clearance : option string;
  p_user_agent : option string;
  p_browser : option string;
  p_expires_at : option Number;
  p_cookie_string : option string;
  p_cookies : option (list (string * string))
}.

(** [response.json()] either raises, or yields a value on which [.get]
    raises [AttributeError], or yields an object. *)
Inductive Body : Type :=
| BodyNotJson
| JsonNotObject
| JsonObject (data : Payload).

Record Response : Type := mkResponse {
  status_code : Z;
  body : Body
}.

Inductive HttpOutcome : Type :=
| HttpResponse (response : Response)
| HttpRaised (e : Exn).

Record RequestContext : Type := mkRequestContext {
  ctx_browser : string;
  ctx_proxy : option string;
  ctx_user_agent : option string;
  ctx_timeout : option Z
}.

Record HttpRequest : Type := mkHttpRequest {
  full_url : string;
  header_x_api_key : option string;
  payload_target_url : string;
  payload_context : RequestContext;
  client_timeout : Z
}.

(** Calls on the cache manager: they finish without giving up control. *)
Inductive MgrCall : Type :=
| CGetCached (browser : string) (proxy : option string)
| CSetCache (cache : Entry)
| CInvalidate
| CIsRefreshing
| CSetRefreshing (value : bool).

Definition MgrRes (c : MgrCall) : Type :=
  match c with
  | CGetCached _ _ => Outcome (option Entry)
  | CSetCache _ => option Exn
  | CInvalidate => unit
  | CIsRefreshing => bool
  | CSetRefreshing _ => unit
  end.

(** Awaits on which the task is suspended. *)
Inductive Awaitable : Type :=
| ASleep (seconds : Z)
| AHttpPost (request : HttpRequest).

Inductive Wake : Type := Woke | Cancelled.

Definition AwaitRes (a : Awaitable) : Type :=
  match a with
  | ASleep _ => Wake
  | AHttpPost _ => HttpOutcome
  end.

Inductive Coro (R : Type) : Type :=
| Ret (r : R)
| Throw (e : Exn)
| Call (c : MgrCall) (k : MgrRes c -> Coro R)
| Await (a : Awaitable) (k : AwaitRes a -> Coro R).

Arguments Ret {R} r.
Arguments Throw {R} e.
Arguments Call {R} c k.
Arguments Await {R} a k.

Fixpoint bind {A B} (m : Coro A) (f : A -> Coro B) : Coro B :=
  match m with
  | Ret r => f r
  | Throw e => Throw e
  | Call c k => Call c (fun x => bind (k x) f)
  | Await a k => Await a (fun x => bind (k x) f)
  end.

Notation "x <- c1 ;; c2" := (bind c1 (fun x => c2))
  (at level 61, c1 at next level, right associativity).
Notation "c1 ;; c2" := (bind c1 (fun _ => c2))
  (at level 61, right associativity).

(** [try: body finally: fin]. *)
Fixpoint try_finally {R} (body : Coro R) (fin : Coro unit) : Coro R :=
  match body with
  | Ret r => fin ;; Ret r
  | Throw e => fin ;; Throw e
  | Call c k => Call c (fun x => try_finally (k x) fin)
  | Await a k => Await a (fun x => try_finally (k x) fin)
  end.

(** [try: body except Exception: handler]. *)
Fixpoint try_except {R} (body : Coro R) (handler : Exn -> Coro R) : Coro R :=
  match body with
  | Ret r => Ret r
  | Throw e => if is_Exception e then handler e else Throw e
  | Call c k => Call c (fun x => try_except (k x) handler)
  | Await a k => Await a (fun x => try_except (k x) handler)
  end.

(** The awaited operations, as the code calls them. *)
Definition get_cached (browser : string) (proxy : option string)
  : Coro (option Entry) :=
  Call (CGetCached browser proxy)
       (fun r => match r with Return x => Ret x | Raise e => Throw e end).

Definition set_cache (cache : Entry) : Coro unit :=
  Call (CSetCache cache)
       (fun r => match r with None => Ret tt | Some e => Throw e end).

Definition invalidate : Coro unit := Call CInvalidate Ret.

Definition is_refreshing : Coro bool := Call CIsRefreshing Ret.

Definition set_refreshing (value : bool) : Coro unit :=
  Call (CSetRefreshing value) Ret.

Definition sleep (seconds : Z) : Coro unit :=
  Await (ASleep seconds)
        (fun r => match r with Woke => Ret tt | Cancelled => Throw CancelledError end).

Definition post (request : HttpRequest) : Coro Response :=
  Await (AHttpPost request)
        (fun r => match r with
                  | HttpResponse response => Ret response
                  | HttpRaised e => Throw e
                  end).

(** ** service.py *)

Module CFClearanceService.

Definition _get_service_url (cfg : Config) : option string :=
  cf_clearance_service_url cfg.

Definition _get_api_key (cfg : Config) : option string :=
  cf_clearance_api_key cfg.

Definition _get_target_url (cfg : Config) : string :=
  get_config (cf_clearance_target_url cfg) "https://grok.com".

Definition _get_timeout (cfg : Config) : Z :=
  get_config (cf_clearance_timeout cfg) 120.

Definition _get_proxy (cfg : Config) : option string :=
  proxy_base_proxy_url cfg.

Definition _get_browser (cfg : Config) : string :=
  get_config (proxy_browser cfg) "chrome136".

Definition _get_user_agent (cfg : Config) : option string :=
  proxy_user_agent cfg.

Definition is_enabled (cfg : Config) : bool :=
  truthy (_get_service_url cfg).

(** The entry built from a successful reply (the [CFClearanceCache(...)]
    call of [fetch_from_service]). *)
Definition entry_of_payload (data : Payload)
    (browser : string) (proxy : option string) : Entry :=
  {| CFClearanceCache.cf_clearance := dict_get (p_cf_clearance data) "";
     CFClearanceCache.user_agent := dict_get (p_user_agent data) "";
     CFClearanceCache.browser := dict_get (p_browser data) browser;
     CFClearanceCache.proxy := proxy;
     CFClearanceCache.expires_at :=
       dict_get (p_expires_at data) (PyNumber.PyInt 0);
     CFClearanceCache.cookie_string := p_cookie_string data;
     CFClearanceCache.cookies := p_cookies data |}.

(** The request that [fetch_from_service] sends. *)
Definition build_request (cfg : Config) (service_url : string)
    (browser : string) (proxy user_agent : option string) (timeout : Z)
  : HttpRequest :=
  let api_key := _get_api_key cfg in
  let target_url := _get_target_url cfg in
  let context :=
    {| ctx_browser := browser;
       ctx_proxy := if truthy proxy then proxy else None;
       ctx_user_agent := if truthy user_agent then user_agent else None;
       ctx_timeout := if timeout =? 0 then None else Some timeout |} in
  {| full_url := rstrip_slash service_url ++ "/api/v1/credentials";
     header_x_api_key := if truthy api_key then api_key else None;
     payload_target_url := target_url;
     payload_context := context;
     client_timeout := timeout + 10 |}.

Definition fetch_from_service (cfg : Config)
    (browser proxy user_agent : option string) (timeout : option Z)
  : Coro (option Entry) :=
  match _get_service_url cfg with
  | None => Ret None
  | Some service_url =>
    if negb (truthy_str service_url) then Ret None else
    let browser := py_or browser (_get_browser cfg) in
    let proxy := if_not_none proxy (_get_proxy cfg) in
    let user_agent := py_or_opt user_agent (_get_user_agent cfg) in
    let timeout := py_or_int timeout (_get_timeout cfg) in
    try_except
      (response <- post (build_request cfg service_url browser proxy
                                       user_agent timeout) ;;
       if negb (status_code response =? 200) then Ret None else
       match body response with
       | BodyNotJson => Throw OtherException
       | JsonNotObject => Throw OtherException
       | JsonObject data =>
           if negb (dict_get (p_success data) false) then Ret None
           else Ret (Some (entry_of_payload data browser proxy))
       end)
      (fun e => match e with
                | TimeoutException => Ret None
                | _ => Ret None
                end)
  end.

(** The [for _ in range(n)] loop of [get_clearance]. [Some v] is a [return v]
    from inside the loop; [None] means the loop was left, by [break] or by
    exhaustion, and control reaches the statement after it. *)
Fixpoint wait_loop_clearance (n : nat)
    (browser : string) (proxy : option string)
  : Coro (option (option string)) :=
  match n with
  | O => Ret None
  | S n' =>
      sleep 1 ;;
      cached <- get_cached browser proxy ;;
      match cached with
      | Some c => Ret (Some (Some (CFClearanceCache.cf_clearance c)))
      | None =>
          refreshing <- is_refreshing ;;
          if negb refreshing then Ret None
          else wait_loop_clearance n' browser proxy
      end
  end.

(** [get_clearance] from the test of [is_refreshing] on. *)
Definition get_clearance_miss (cfg : Config)
    (browser : string) (proxy : option string) : Coro (option string) :=
  refreshing <- is_refreshing ;;
  if refreshing then
    r <- wait_loop_clearance 30 browser proxy ;;
    match r with
    | Some v => Ret v
    | None => Ret None
    end
  else
    set_refreshing true ;;
    try_finally
      (cache <- fetch_from_service cfg (Some browser) proxy None None ;;
       match cache with
       | Some c => set_cache c ;; Ret (Some (CFClearanceCache.cf_clearance c))
       | None => Ret None
       end)
      (set_refreshing false).

Definition get_clearance (cfg : Config)
    (browser proxy : option string) (force_refresh : bool)
  : Coro (option string) :=
  let browser := py_or browser (_get_browser cfg) in
  let proxy := if_not_none proxy (_get_proxy cfg) in
  if negb force_refresh then
    cached <- get_cached browser proxy ;;
    match cached with
    | Some c => Ret (Some (CFClearanceCache.cf_clearance c))
    | None => get_clearance_miss cfg browser proxy
    end
  else get_clearance_miss cfg browser proxy.

(** The loop of [get_cache]. *)
Fixpoint wait_loop_cache (n : nat)
    (browser : string) (proxy : option string)
  : Coro (option (option Entry)) :=
  match n with
  | O => Ret None
  | S n' =>
      sleep 1 ;;
      cached <- get_cached browser proxy ;;
      match cached with
      | Some c => Ret (Some (Some c))
      | None =>
          refreshing <- is_refreshing ;;
          if negb refreshing then Ret None
          else wait_loop_cache n' browser proxy
      end
  end.

Definition get_cache_miss (cfg : Config)
    (browser : string) (proxy : option string) : Coro (option Entry) :=
  refreshing <- is_refreshing ;;
  if refreshing then
    r <- wait_loop_cache 30 browser proxy ;;
    match r with
    | Some v => Ret v
    | None => Ret None
    end
  else
    set_refreshing true ;;
    try_finally
      (cache <- fetch_from_service cfg (Some browser) proxy None None ;;
       match cache with
       | Some c => set_cache c ;; Ret (Some c)
       | None => Ret None
       end)
      (set_refreshing false).

Definition get_cache (cfg : Config)
    (browser proxy : option string) (force_refresh : bool)
  : Coro (option Entry) :=
  let browser := py_or browser (_get_browser cfg) in
  let proxy := if_not_none proxy (_get_proxy cfg) in
  if negb force_refresh then
    cached <- get_cached browser proxy ;;
    match cached with
    | Some c => Ret (Some c)
    | None => get_cache_miss cfg browser proxy
    end
  else get_cache_miss cfg browser proxy.

Definition invalidate_cache : Coro unit := invalidate.

End CFClearanceService.

(** ** integration.py *)

Module Integration.

Import CFClearanceService.

(** [get_config("proxy.cf_clearance") or None]. *)
Definition static_cf_clearance (cfg : Config) : option string :=
  if truthy (proxy_cf_clearance cfg) then proxy_cf_clearance cfg else None.

Definition ensure_cf_clearance (cfg : Config) : Coro (option string) :=
  if is_enabled cfg then
    cf_clearance <- get_clearance cfg None None false ;;
    if truthy cf_clearance then Ret cf_clearance
    else Ret (static_cf_clearance cfg)
  else Ret (static_cf_clearance cfg).

Definition refresh_cf_clearance (cfg : Config) : Coro (option string) :=
  if is_enabled cfg then
    cf_clearance <- get_clearance cfg None None true ;;
    if truthy cf_clearance then Ret cf_clearance
    else Ret (static_cf_clearance cfg)
  else Ret (static_cf_clearance cfg).

Definition handle_403_refresh (cfg : Config) : Coro unit :=
  if is_enabled cfg then invalidate_cache else Ret tt.

End Integration.

(** ** admin_api/cf_clearance.py *)

Module AdminApi.

Import CFClearanceService.

Record CFStatusResponse : Type := mkCFStatusResponse {
  enabled : bool;
  service_url : option string;
  has_cache : bool;
  cached_clearance : option string
}.

Record RefreshResponse : Type := mkRefreshResponse {
  refresh_success : bool;
  refresh_cf_clearance : option string;
  refresh_message : string
}.

(** [service_url[:50] + "..." if service_url and len(service_url) > 50
    else service_url]. *)
Definition redact_service_url (service_url : option string) : option string :=
  match service_url with
  | Some u =>
      if truthy_str u && (50 <? Z.of_nat (String.length u))
      then Some (take 50 u ++ "...") else Some u
  | None => None
  end.

(** [cache.cf_clearance[:30] + "..." if cache.cf_clearance else None]. *)
Definition preview (cf_clearance : string) : option string :=
  if truthy_str cf_clearance then Some (take 30 cf_clearance ++ "...")
  else None.

Definition get_cf_status (cfg : Config) : Coro CFStatusResponse :=
  let service_url := _get_service_url cfg in
  r <- (if is_enabled cfg then
          cache <- get_cache cfg None None false ;;
          match cache with
          | Some c => Ret (true, preview (CFClearanceCache.cf_clearance c))
          | None => Ret (false, None)
          end
        else Ret (false, None)) ;;
  Ret {| enabled := is_enabled cfg;
         service_url := redact_service_url service_url;
         has_cache := fst r;
         cached_clearance := snd r |}.

Definition refresh_failed : RefreshResponse :=
  {| refresh_success := false;
     refresh_cf_clearance := None;
     refresh_message :=
       "Failed to refresh CF Clearance, check logs for details" |}.

Definition refresh_cf (cfg : Config) (force : bool) : Coro RefreshResponse :=
  if negb (is_enabled cfg) then Throw (HTTPException 400) else
  (if force then invalidate_cache else Ret tt) ;;
  cf_clearance <- get_clearance cfg None None force ;;
  match cf_clearance with
  | Some token =>
      if truthy_str token then
        Ret {| refresh_success := true;
               refresh_cf_clearance := Some (take 30 token ++ "...");
               refresh_message := "CF Clearance refreshed successfully" |}
      else Ret refresh_failed
  | None => Ret refresh_failed
  end.

Definition invalidate_cf : Coro bool :=
  invalidate_cache ;; Ret true.

End AdminApi.

(** ** Running coroutines *)

(** What all tasks share: the single manager instance and the clock. *)
Record World : Type := mkWorld {
  manager : Manager;
  clock : Z
}.

Inductive Event : Type :=
| EvCall (c : MgrCall)
| EvAwait (a : Awaitable).

(** A task after it has run as far as it can without the event loop. *)
Inductive Susp (R : Type) : Type :=
| Finished (o : Outcome R)
| Suspended (a : Awaitable) (k : AwaitRes a -> Coro R).

Arguments Finished {R} o.
Arguments Suspended {R} a k.

(** What happens while a task is suspended: the other tasks and the clock
    change the world, and the awaited operation produces its result. *)
Record Resume : Type := mkResume {
  interfere : World -> World;
  reply : forall a : Awaitable, AwaitRes a
}.

Section Semantics.

Variable localtime_ok : Number -> bool.

Definition do_call (c : MgrCall) (w : World) : MgrRes c * World :=
  match c as c0 return MgrRes c0 * World with
  | CGetCached browser proxy =>
      (CFClearanceCacheManager.get_cached (manager w) (clock w) browser proxy, w)
  | CSetCache cache =>
      let '(m, r) := CFClearanceCacheManager.set_cache localtime_ok (manager w) cache in
      (r, {| manager := m; clock := clock w |})
  | CInvalidate =>
      (tt, {| manager := CFClearanceCacheManager.invalidate (manager w);
              clock := clock w |})
  | CIsRefreshing =>
      (CFClearanceCacheManager.is_refreshing (manager w), w)
  | CSetRefreshing value =>
      (tt, {| manager := CFClearanceCacheManager.set_refreshing (manager w) value;
              clock := clock w |})
  end.

(** One turn of a task on the event loop: up to its next suspension. *)
Fixpoint run_atomic {R} (p : Coro R) (w : World)
  : Susp R * World * list Event :=
  match p with
  | Ret r => (Finished (Return r), w, [])
  | Throw e => (Finished (Raise e), w, [])
  | Call c k =>
      let '(x, w1) := do_call c w in
      let '(s, w2, tr) := run_atomic (k x) w1 in
      (s, w2, EvCall c :: tr)
  | Await a k => (Suspended a k, w, [])
  end.

(** A whole call, with the environment [env] deciding what the task finds
    at its [i]-th, [i+1]-th, ... resumption. *)
Fixpoint run {R} (p : Coro R) (env : nat -> Resume) (i : nat) (w : World)
  : Outcome R * World * list Event :=
  match p with
  | Ret r => (Return r, w, [])
  | Throw e => (Raise e, w, [])
  | Call c k =>
      let '(x, w1) := do_call c w in
      let '(o, w2, tr) := run (k x) env i w1 in
      (o, w2, EvCall c :: tr)
  | Await a k =>
      let '(o, w2, tr) :=
        run (k (reply (env i) a)) env (S i) (interfere (env i) w) in
      (o, w2, EvAwait a :: tr)
  end.

End Semantics.

(** ** The event loop

    Tasks of one event loop over one manager. A task is a request that has
    not run yet, a coroutine parked on an await, or a finished call. The loop
    runs one task at a time, each for one turn ([run_atomic]). *)

Inductive Task : Type :=
| NotStarted (R : Type) (p : Coro R)
| Parked (R : Type) (a : Awaitable) (k : AwaitRes a -> Coro R)
| Done (R : Type) (o : Outcome R).

Arguments NotStarted {R} p.
Arguments Parked {R} a k.
Arguments Done {R} o.

Definition task_of_susp {R} (s : Susp R) : Task :=
  match s with
  | Finished o => Done o
  | Suspended a k => Parked a k
  end.

(** The calls that reach the coordinator: the two entry points of the
    service and its invalidation, the administrative endpoints, the helpers
    of [integration.py], and the bare lookup that [reverse/utils/headers.py]
    makes on the manager. *)
Inductive Request : Type :=
| ReqGetClearance (browser proxy : option string) (force_refresh : bool)
| ReqGetCache (browser proxy : option string) (force_refresh : bool)
| ReqInvalidateCache
| ReqCfStatus
| ReqRefreshCf (force : bool)
| ReqInvalidateCf
| ReqEnsureCfClearance
| ReqRefreshCfClearance
| ReqHandle403Refresh
| ReqGetCached (browser : string) (proxy : option string).

Definition task_of_request (cfg : Config) (r : Request) : Task :=
  match r with
  | ReqGetClearance browser proxy force_refresh =>
      NotStarted (CFClearanceService.get_clearance cfg browser proxy force_refresh)
  | ReqGetCache browser proxy force_refresh =>
      NotStarted (CFClearanceService.get_cache cfg browser proxy force_refresh)
  | ReqInvalidateCache => NotStarted CFClearanceService.invalidate_cache
  | ReqCfStatus => NotStarted (AdminApi.get_cf_status cfg)
  | ReqRefreshCf force => NotStarted (AdminApi.refresh_cf cfg force)
  | ReqInvalidateCf => NotStarted AdminApi.invalidate_cf
  | ReqEnsureCfClearance => NotStarted (Integration.ensure_cf_clearance cfg)
  | ReqRefreshCfClearance => NotStarted (Integration.refresh_cf_clearance cfg)
  | ReqHandle403Refresh => NotStarted (Integration.handle_403_refresh cfg)
  | ReqGetCached browser proxy => NotStarted (get_cached browser proxy)
  end.

Record System : Type := mkSystem {
  world : World;
  tasks : list Task
}.

(** Replace the [i]-th task. *)
Fixpoint set_task (i : nat) (t : Task) (ts : list Task) : list Task :=
  match ts, i with
  | [], _ => []
  | _ :: rest, O => t :: rest
  | x :: rest, S j => x :: set_task j t rest
  end.

Section EventLoop.

Variable localtime_ok : Number -> bool.

Inductive step (cfg : Config) : System -> System -> Prop :=
| step_spawn : forall s r,
    step cfg s {| world := world s;
                  tasks := tasks s ++ [task_of_request cfg r] |}
| step_start : forall s i R (p : Coro R) su w tr,
    nth_error (tasks s) i = Some (NotStarted p) ->
    run_atomic localtime_ok p (world s) = (su, w, tr) ->
    step cfg s {| world := w; tasks := set_task i (task_of_susp su) (tasks s) |}
| step_resume : forall s i R a (k : AwaitRes a -> Coro R) x su w tr,
    nth_error (tasks s) i = Some (Parked a k) ->
    run_atomic localtime_ok (k x) (world s) = (su, w, tr) ->
    step cfg s {| world := w; tasks := set_task i (task_of_susp su) (tasks s) |}
| step_tick : forall s d,
    0 <= d ->
    step cfg s {| world := {| manager := manager (world s);
                              clock := clock (world s) + d |};
                  tasks := tasks s |}.

Inductive reachable (cfg : Config) : System -> Prop :=
| reachable_init : forall now,
    reachable cfg {| world := {| manager := CFClearanceCacheManager.init;
                                 clock := now |};
                     tasks := [] |}
| reachable_step : forall s s',
    reachable cfg s -> step cfg s s' -> reachable cfg s'.

End EventLoop.

(** A task is fetching when it is parked on the HTTP round trip. *)
Definition fetching (t : Task) : bool :=
  match t with
  | Parked (AHttpPost _) _ => true
  | _ => false
  end.

Definition in_flight (s : System) : nat :=
  List.length (filter fetching (tasks s)).

(** ** Which way a call goes *)

Section Paths.

Import CFClearanceService.

Variable cfg : Config.

(** The context a call works with, after the defaults from the
    configuration ([browser or ...], [proxy if proxy is not None else ...]). *)
Definition effective_browser (browser : option string) : string :=
  py_or browser (_get_browser cfg).

Definition effective_proxy (proxy : option string) : option string :=
  if_not_none proxy (_get_proxy cfg).

(** The entry that [get_cached] finds valid in world [w], before it writes
    its log line. *)
Definition lookup (w : World) (browser : string) (proxy : option string)
  : option Entry :=
  match CFClearanceCacheManager._cache (manager w) with
  | Some c =>
      if CFClearanceCache.is_valid_for c (clock w) browser proxy
      then Some c else None
  | None => None
  end.

(** The log line of a hit on [c] can be written at the clock of [w]. *)
Definition log_ok (w : World) (c : Entry) : bool :=
  match PyNumber.expires_in (CFClearanceCache.expires_at c) (clock w) with
  | Some _ => true
  | None => false
  end.

(** What [get_cached] gives for the entry [found] that it finds valid. *)
Definition hit_or_raise (w : World) (found : option Entry)
  : Outcome (option Entry) :=
  match found with
  | Some c => if log_ok w c then Return (Some c) else Raise OtherException
  | None => Return None
  end.

Definition refreshing (w : World) : bool :=
  CFClearanceCacheManager._refreshing (manager w).

(** The first test of [get_clearance] and [get_cache]. *)
Definition cache_hit (w : World) (browser proxy : option string)
    (force_refresh : bool) : option Entry :=
  if force_refresh then None
  else lookup w (effective_browser browser) (effective_proxy proxy).

Definition waiter_path (w : World) (browser proxy : option string)
    (force_refresh : bool) : bool :=
  match cache_hit w browser proxy force_refresh with
  | Some _ => false
  | None => refreshing w
  end.

Definition fetcher_path (w : World) (browser proxy : option string)
    (force_refresh : bool) : bool :=
  match cache_hit w browser proxy force_refresh with
  | Some _ => false
  | None => negb (refreshing w)
  end.

(** The events of a call before it waits or fetches. *)
Definition first_checks (browser proxy : option string)
    (force_refresh : bool) : list Event :=
  (if force_refresh then []
   else [EvCall (CGetCached (effective_browser browser) (effective_proxy proxy))])
  ++ [EvCall CIsRefreshing].

(** The request sent by a call that fetches. *)
Definition request_of (service_url : string) (browser proxy : option string)
  : HttpRequest :=
  build_request cfg service_url
    (py_or (Some (effective_browser browser)) (_get_browser cfg))
    (if_not_none (effective_proxy proxy) (_get_proxy cfg))
    (py_or_opt None (_get_user_agent cfg))
    (py_or_int None (_get_timeout cfg)).

(** The events of a fetcher whose remote call yields no entry. *)
Definition failed_fetch_trace (service_url : string)
    (browser proxy : option string) (force : bool) : list Event :=
  first_checks browser proxy force ++
  [EvCall (CSetRefreshing true);
   EvAwait (AHttpPost (request_of service_url browser proxy));
   EvCall (CSetRefreshing false)].

End Paths.

(** The world a task finds at its [k]-th resumption when it changes nothing
    itself: [k] rounds of interference, starting with the suspension
    numbered [i]. *)
Fixpoint world_after (env : nat -> Resume) (i k : nat) (w : World) : World :=
  match k with
  | O => w
  | S k' => interfere (env (i + k')%nat) (world_after env i k' w)
  end.

(** One turn of the wait loop that neither hits nor breaks, for the context
    [(b, p)] the loop polls with. *)
Definition poll (b : string) (p : option string) : list Event :=
  [EvAwait (ASleep 1); EvCall (CGetCached b p); EvCall CIsRefreshing].

Fixpoint polls (n : nat) (b : string) (p : option string) : list Event :=
  match n with
  | O => []
  | S n' => poll b p ++ polls n' b p
  end.

(** The last turn of the wait loop: a hit returns before the flag is read, a
    miss reads the flag. *)
Definition last_poll (b : string) (p : option string) (found : option Entry)
  : list Event :=
  [EvAwait (ASleep 1); EvCall (CGetCached b p)] ++
  match found with
  | Some _ => []
  | None => [EvCall CIsRefreshing]
  end.

(** For its next [n] resumptions (numbered from [i]) a sleeping task wakes
    up normally, finds no entry valid for [(b, p)] and finds the refreshing
    flag still set. *)
Fixpoint stalled (env : nat -> Resume) (i : nat) (w : World)
    (b : string) (p : option string) (n : nat) : bool :=
  match n with
  | O => true
  | S n' =>
      let w1 := interfere (env i) w in
      match reply (env i) (ASleep 1) with
      | Woke =>
          match CFClearanceCacheManager.get_cached (manager w1) (clock w1) b p with
          | Return None =>
              CFClearanceCacheManager._refreshing (manager w1)
              && stalled env (S i) w1 b p n'
          | _ => false
          end
      | Cancelled => false
      end
  end.

(** The remote call did not yield a credential: the reasons the coordinator
    tells apart, on the reply of the HTTP round trip. *)
Definition remote_failed (o : HttpOutcome) : bool :=
  match o with
  | HttpRaised TimeoutException => true            (* timeout *)
  | HttpRaised OtherException => true              (* transport error *)
  | HttpRaised (HTTPException _) => true
  | HttpRaised CancelledError => false             (* the task was cancelled *)
  | HttpResponse response =>
      if negb (status_code response =? 200) then true   (* non-success status *)
      else match body response with
           | BodyNotJson => true                   (* malformed payload *)
           | JsonNotObject => true                 (* unusable payload *)
           | JsonObject data =>                    (* success is false or absent *)
               negb (dict_get (p_success data) false)
           end
  end.

(** The reply carries a credential: status 200 and an object whose
    [success] is true. *)
Definition remote_success (o : HttpOutcome) : option Payload :=
  match o with
  | HttpRaised _ => None
  | HttpResponse response =>
      if negb (status_code response =? 200) then None
      else match body response with
           | JsonObject data =>
               if dict_get (p_success data) false then Some data else None
           | _ => None
           end
  end.

Definition with_refreshing (w : World) (value : bool) : World :=
  {| manager := CFClearanceCacheManager.set_refreshing (manager w) value;
     clock := clock w |}.

Definition with_cache (w : World) (cache : Entry) : World :=
  {| manager := {| CFClearanceCacheManager._cache := Some cache;
                   CFClearanceCacheManager._refreshing := refreshing w |};
     clock := clock w |}.

(** The number of suspensions in a trace. *)
Fixpoint awaits (tr : list Event) : nat :=
  match tr with
  | [] => O
  | EvAwait _ :: tr' => S (awaits tr')
  | EvCall _ :: tr' => awaits tr'
  end.

(** The three parts of what [run] yields. *)
Definition outcome_of {R} (r : Outcome R * World * list Event) : Outcome R :=
  fst (fst r).

Definition final_world {R} (r : Outcome R * World * list Event) : World :=
  snd (fst r).

Definition trace_of {R} (r : Outcome R * World * list Event) : list Event :=
  snd r.

Definition map_outcome {A B} (f : A -> B) (o : Outcome A) : Outcome B :=
  match o with
  | Return r => Return (f r)
  | Raise e => Raise e
  end.

Definition map_result {A B} (f : A -> B)
    (r : Outcome A * World * list Event) : Outcome B * World * list Event :=
  let '(o, w, tr) := r in (map_outcome f o, w, tr).

(** The token of an entry that may be missing: what [get_clearance] hands
    out where [get_cache] hands out the entry. *)
Definition token_of (c : option Entry) : option string :=
  option_map CFClearanceCache.cf_clearance c.

(** The response that [get_cf_status] builds from what [get_cache] gave. *)
Definition status_response (cfg : Config) (cache : option Entry)
  : AdminApi.CFStatusResponse :=
  {| AdminApi.enabled := CFClearanceService.is_enabled cfg;
     AdminApi.service_url :=
       AdminApi.redact_service_url (CFClearanceService._get_service_url cfg);
     AdminApi.has_cache := match cache with Some _ => true | None => false end;
     AdminApi.cached_clearance :=
       match cache with
       | Some c => AdminApi.preview (CFClearanceCache.cf_clearance c)
       | None => None
       end |}.

(** The events of a fetcher whose remote call yields the entry [c]. *)
Definition fetched_trace (cfg : Config) (service_url : string)
    (browser proxy : option string) (force : bool) (c : Entry) : list Event :=
  first_checks cfg browser proxy force ++
  [EvCall (CSetRefreshing true);
   EvAwait (AHttpPost (request_of cfg service_url browser proxy));
   EvCall (CSetCache c);
   EvCall (CSetRefreshing false)].

(** The last operation of a call was a lookup in the cache. *)
Definition ends_with_lookup (tr : list Event) : bool :=
  match last tr (EvCall CInvalidate) with
  | EvCall (CGetCached _ _) => true
  | _ => false
  end.

(** ** Sample configurations, worlds and environments *)

Definition sample_cfg : Config :=
  {| cf_clearance_service_url := Some "http://cf-service:8080/";
     cf_clearance_api_key := None;
     cf_clearance_target_url := None;
     cf_clearance_timeout := None;
     proxy_base_proxy_url := None;
     proxy_browser := None;
     proxy_user_agent := None;
     proxy_cf_clearance := None |}.

(** The same with an empty service URL and a static credential. *)
Definition sample_cfg_disabled : Config :=
  {| cf_clearance_service_url := Some "";
     cf_clearance_api_key := None;
     cf_clearance_target_url := None;
     cf_clearance_timeout := None;
     proxy_base_proxy_url := None;
     proxy_browser := None;
     proxy_user_agent := None;
     proxy_cf_clearance := Some "static-token" |}.

Definition sample_entry (token : string) (expires_at : Z) : Entry :=
  {| CFClearanceCache.cf_clearance := token;
     CFClearanceCache.user_agent := "Mozilla/5.0";
     CFClearanceCache.browser := "chrome136";
     CFClearanceCache.proxy := None;
     CFClearanceCache.expires_at := PyNumber.PyInt expires_at;
     CFClearanceCache.cookie_string := None;
     CFClearanceCache.cookies := None |}.

Definition sample_world (cache : option Entry) (flag : bool) (now : Z)
  : World :=
  {| manager := {| CFClearanceCacheManager._cache := cache;
                   CFClearanceCacheManager._refreshing := flag |};
     clock := now |}.

Definition sample_payload (token : string) (expires_at : Z) : Payload :=
  {| p_success := Some true;
     p_cf_clearance := Some token;
     p_user_agent := Some "Mozilla/5.0";
     p_browser := Some "chrome136";
     p_expires_at := Some (PyNumber.PyInt expires_at);
     p_cookie_string := None;
     p_cookies := None |}.

(** A platform on which [time.localtime] accepts every timestamp. *)
Definition always_ok (t : Number) : bool := true.

Definition tick (d : Z) (w : World) : World :=
  {| manager := manager w; clock := clock w + d |}.

Definition reply_with (o : HttpOutcome) (a : Awaitable) : AwaitRes a :=
  match a with
  | ASleep _ => Woke
  | AHttpPost _ => o
  end.

(** Nobody else touches the manager; a second passes at each suspension and
    the remote call ends with [o]. *)
Definition quiet (o : HttpOutcome) (i : nat) : Resume :=
  {| interfere := tick 1; reply := reply_with o |}.

(** While the task sleeps, the fetcher ends without publishing an entry. *)
Definition fetcher_gives_up (i : nat) : Resume :=
  {| interfere := fun w => with_refreshing (tick 1 w) false;
     reply := reply_with (HttpRaised TimeoutException) |}.

(** While the task sleeps, the fetcher publishes [c] and clears the flag. *)
Definition fetcher_publishes (c : Entry) (i : nat) : Resume :=
  {| interfere := fun w => with_refreshing (with_cache (tick 1 w) c) false;
     reply := reply_with (HttpRaised TimeoutException) |}.

(** ** The discipline of the refreshing flag

    What a task has to do with the flag at a point of its code: it has set
    the flag and not yet cleared it ([Holding]); or it has not, and has seen
    the flag down in its current turn ([FlagDown]); or it has not, and knows
    nothing ([Unknown]). *)
Inductive Hold : Type := Holding | FlagDown | Unknown.

(** After a suspension a task that does not hold the flag knows nothing. *)
Definition parked (s : Hold) : Hold :=
  match s with
  | Holding => Holding
  | _ => Unknown
  end.

(** [follows s p Q]: from a point where [s] holds, the code [p] sets the
    flag only after it has seen it down in the same turn, clears it only
    when it holds it, awaits the remote service only while it holds it, and
    ends at a point where [Q] holds. *)
Fixpoint follows {R} (s : Hold) (p : Coro R) (Q : Hold -> Prop) : Prop :=
  match p with
  | Ret _ => Q s
  | Throw _ => Q s
  | Call c k =>
      match c as c0 return (MgrRes c0 -> Coro R) -> Prop with
      | CGetCached _ _ => fun k => forall x, follows s (k x) Q
      | CSetCache _ => fun k => forall x, follows s (k x) Q
      | CInvalidate => fun k => forall x, follows s (k x) Q
      | CIsRefreshing => fun k =>
          match s with
          | Holding => follows Holding (k true) Q
          | _ => follows FlagDown (k false) Q /\ follows Unknown (k true) Q
          end
      | CSetRefreshing true => fun k => s = FlagDown /\ follows Holding (k tt) Q
      | CSetRefreshing false => fun k => s = Holding /\ follows FlagDown (k tt) Q
      end k
  | Await a k =>
      match a as a0 return (AwaitRes a0 -> Coro R) -> Prop with
      | ASleep _ => fun k => forall x, follows (parked s) (k x) Q
      | AHttpPost _ => fun k => s = Holding /\ forall x, follows Holding (k x) Q
      end k
  end.

Definition released (s : Hold) : Prop := s <> Holding.

(** The flag [flag] and whether another task holds it ([other]), as they
    must be when a task is at a point where [s] holds. *)
Definition consistent (s : Hold) (flag other : bool) : Prop :=
  match s with
  | Holding => flag = true /\ other = false
  | FlagDown => flag = false /\ other = false
  | Unknown => flag = other
  end.

(** A task in the list of tasks, with [h] telling whether it holds the flag. *)
Definition task_ok (h : bool) (t : Task) : Prop :=
  match t with
  | NotStarted p => h = false /\ follows Unknown p released
  | Parked a k =>
      match a as a0 return (AwaitRes a0 -> Coro _) -> Prop with
      | ASleep _ => fun k =>
          forall x, follows (if h then Holding else Unknown) (k x) released
      | AHttpPost _ => fun k =>
          h = true /\ forall x, follows Holding (k x) released
      end k
  | Done _ => h = false
  end.

Fixpoint count_true (hs : list bool) : nat :=
  match hs with
  | [] => O
  | true :: hs' => S (count_true hs')
  | false :: hs' => count_true hs'
  end.

(** The invariant of the event loop: the flag is up exactly when one task
    holds it, and no two tasks hold it. *)
Definition flag_invariant (s : System) : Prop :=
  exists hs : list bool,
    Forall2 task_ok hs (tasks s) /\
    count_true hs = if refreshing (world s) then 1%nat else 0%nat.

(** What is known of a task when its turn ends. *)
Definition turn_end {R} (Q : Hold -> Prop) (s : Hold) (su : Susp R) : Prop :=
  match su with
  | Finished _ => Q s
  | Suspended a k =>
      match a as a0 return (AwaitRes a0 -> Coro R) -> Prop with
      | ASleep _ => fun k => forall x, follows (parked s) (k x) Q
      | AHttpPost _ => fun k => s = Holding /\ forall x, follows Holding (k x) Q
      end k
  end.

(** The code a task runs in its next turn follows the discipline. *)
Definition turn_start (h : bool) {R} (p : Coro R) : Prop :=
  follows (if h then Holding else Unknown) p released.

(** What a task left parked on after a turn: the remote service or not. *)
Definition parked_on_fetch {R} (su : Susp R) : bool :=
  match su with
  | Suspended (AHttpPost _) _ => true
  | _ => false
  end.

(** The event loop after one request has arrived at an empty manager and has
    had its first turn. *)
Definition after_first_turn (localtime_ok : Number -> bool) (cfg : Config)
    (r : Request) (now : Z) : System :=
  let w0 := {| manager := CFClearanceCacheManager.init; clock := now |} in
  match task_of_request cfg r with
  | NotStarted p =>
      let '(su, w, _) := run_atomic localtime_ok p w0 in
      {| world := w;
         tasks := set_task 0 (task_of_susp su) [task_of_request cfg r] |}
  | t => {| world := w0; tasks := [t] |}
  end.

(** ** reverse/utils/headers.py: the credential in the cookie *)

Module Headers.

Import CFClearanceService.

(** [_get_cached_cf_clearance]: a lookup on the manager with the context of
    the configuration, made while the calling task keeps the event loop.
    [raises] says that the machinery around the lookup (the thread pool, the
    second event loop, the five-second limit) raised an exception, which the
    function turns into [None]. *)
Definition _get_cached_cf_clearance (cfg : Config) (raises : bool)
  : Coro (option string) :=
  if raises then Ret None else
  try_except
    (cache <- get_cached (get_config (proxy_browser cfg) "chrome136")
                         (proxy_base_proxy_url cfg) ;;
     match cache with
     | Some c =>
         if truthy_str (CFClearanceCache.cf_clearance c)
         then Ret (Some (CFClearanceCache.cf_clearance c))
         else Ret None
     | None => Ret None
     end)
    (fun e => Ret None).

Definition _get_cf_clearance (cfg : Config) (raises : bool)
  : Coro (option string) :=
  cached <- _get_cached_cf_clearance cfg raises ;;
  if truthy cached then Ret cached
  else Ret (if truthy (proxy_cf_clearance cfg) then proxy_cf_clearance cfg
            else None).

(** [raises1] is for the lookup made inside the [try] block, [raises2] for
    the one made by the [except] clause. *)
Definition _get_cf_clearance_auto (cfg : Config) (raises1 raises2 : bool)
  : Coro (option string) :=
  try_except
    (if negb (is_enabled cfg) then _get_cf_clearance cfg raises1
     else
       cf_clearance <- get_clearance cfg None None false ;;
       if truthy cf_clearance then Ret cf_clearance
       else _get_cf_clearance cfg raises1)
    (fun e => _get_cf_clearance cfg raises2).

(** [s[n:]]. *)
Definition drop (n : nat) (s : string) : string :=
  substring n (String.length s - n) s.

(** [sso_token[4:] if sso_token.startswith("sso=") else sso_token]. *)
Definition strip_sso (sso_token : string) : string :=
  if String.prefix "sso=" sso_token then drop 4 sso_token else sso_token.

(** The cookie built from the token and from what the credential lookup
    gave. *)
Definition sso_cookie (sso_token : string) (cf_clearance : option string)
  : string :=
  let sso_token := strip_sso sso_token in
  let cookie := "sso=" ++ sso_token ++ "; sso-rw=" ++ sso_token in
  match cf_clearance with
  | Some v => if truthy_str v then cookie ++ ";cf_clearance=" ++ v else cookie
  | None => cookie
  end.

Definition build_sso_cookie (cfg : Config) (raises : bool)
    (sso_token : string) : Coro string :=
  cf_clearance <- _get_cf_clearance cfg raises ;;
  Ret (sso_cookie sso_token cf_clearance).

Definition build_sso_cookie_async (cfg : Config) (raises1 raises2 : bool)
    (sso_token : string) : Coro string :=
  cf_clearance <- _get_cf_clearance_auto cfg raises1 raises2 ;;
  Ret (sso_cookie sso_token cf_clearance).

End Headers.

(** ** More vocabulary for runs *)

(** The world after [invalidate]. *)
Definition invalidated (w : World) : World :=
  {| manager := CFClearanceCacheManager.invalidate (manager w);
     clock := clock w |}.

(** Operations that leave the manager alone and do not reach the remote
    service: lookups, reads of the flag, sleeps. *)
Definition passive (ev : Event) : bool :=
  match ev with
  | EvCall (CGetCached _ _) => true
  | EvCall CIsRefreshing => true
  | EvAwait (ASleep _) => true
  | _ => false
  end.

(** The operation is a request to the remote service. *)
Definition is_post (ev : Event) : bool :=
  match ev with
  | EvAwait (AHttpPost _) => true
  | _ => false
  end.

(** The call did not return an empty string. *)
Definition never_empty (o : Outcome (option string)) : bool :=
  match o with
  | Return (Some s) => truthy_str s
  | _ => true
  end.

(** The call did not let an [Exception] escape. *)
Definition no_exception {R} (o : Outcome R) : bool :=
  match o with
  | Return _ => true
  | Raise e => negb (is_Exception e)
  end.

(** A value that Python takes for false is absent: [None] or non-empty. *)
Definition none_or_truthy (x : option string) : bool :=
  match x with
  | None => true
  | Some s => truthy_str s
  end.

(** What the header builder falls back on in the world [w]. The cached
    credential is the token of the entry that a lookup for the context of the
    configuration returns, when the lookup is made undisturbed ([raises] is
    false), finds a valid entry, writes its log line and the token is not
    empty; the static credential is the one of the configuration, when it is
    not empty. The cached one comes first. *)
Definition static_credential (cfg : Config) : option string :=
  match proxy_cf_clearance cfg with
  | Some s => if truthy_str s then Some s else None
  | None => None
  end.

Definition cached_credential (cfg : Config) (raises : bool) (w : World)
  : option string :=
  if raises then None else
  match lookup w (get_config (proxy_browser cfg) "chrome136")
               (proxy_base_proxy_url cfg) with
  | Some c =>
      if log_ok w c && truthy_str (CFClearanceCache.cf_clearance c)
      then Some (CFClearanceCache.cf_clearance c) else None
  | None => None
  end.

Definition fallback_credential (cfg : Config) (raises : bool) (w : World)
  : option string :=
  match cached_credential cfg raises w with
  | Some s => Some s
  | None => static_credential cfg
  end.

(** What [ensure_cf_clearance] and [refresh_cf_clearance] make of the result
    of [get_clearance]: a token that Python takes for false gives way to the
    static value [static]. *)
Definition or_static (static : option string)
    (g : Outcome (option string) * World * list Event)
  : Outcome (option string) * World * list Event :=
  let '(o, w, tr) := g in
  (match o with
   | Return v => Return (if truthy v then v else static)
   | Raise e => Raise e
   end, w, tr).

(** ** core/config_env.py

    Strings are taken to be ASCII text: on such strings [upper], [lower],
    [strip] and the pattern [[^A-Z0-9]+] are as written here. A dict is the
    list of its items in insertion order, with distinct keys. A float is
    carried as the bit pattern of its binary64 value. *)

Module ConfigEnv.

#[local] Set Warnings "-register-all".

Inductive Value : Type :=
| VNone
| VBool (b : bool)
| VInt (n : Z)
| VFloat (bits : Z)
| VStr (s : string)
| VList (items : list Value)
| VDict (d : list (string * Value)).

Definition Dict : Type := list (string * Value).

(** [isinstance(v, dict)]. *)
Definition is_dict (v : Value) : bool :=
  match v with
  | VDict _ => true
  | _ => false
  end.

(** [bool(v)]. *)
Definition value_truthy (v : Value) : bool :=
  match v with
  | VNone => false
  | VBool b => b
  | VInt n => negb (n =? 0)
  | VFloat bits => negb ((bits =? 0) || (bits =? 2 ^ 63))
  | VStr s => truthy_str s
  | VList items => match items with [] => false | _ => true end
  | VDict d => match d with [] => false | _ => true end
  end.

(** *** Operations of [dict] *)

Section DictOps.

Context {A : Type}.

(** [d.get(key)]. *)
Fixpoint dict_get_item (key : string) (d : list (string * A)) : option A :=
  match d with
  | [] => None
  | (k, v) :: rest => if String.eqb key k then Some v else dict_get_item key rest
  end.

(** [d[key] = value]: in place when the key is there, at the end when not. *)
Fixpoint dict_set_item (key : string) (value : A) (d : list (string * A))
  : list (string * A) :=
  match d with
  | [] => [(key, value)]
  | (k, v) :: rest =>
      if String.eqb key k then (key, value) :: rest
      else (k, v) :: dict_set_item key value rest
  end.

(** [out.update(other)]. *)
Definition dict_update (out other : list (string * A)) : list (string * A) :=
  fold_left (fun acc kv => dict_set_item (fst kv) (snd kv) acc) other out.

Definition dict_keys (d : list (string * A)) : list string := map fst d.

(** [key in d]. *)
Definition dict_has (key : string) (d : list (string * A)) : bool :=
  existsb (String.eqb key) (dict_keys d).

End DictOps.

(** *** Methods of [str] *)

Definition between (lo hi : nat) (c : ascii) : bool :=
  (lo <=? nat_of_ascii c)%nat && (nat_of_ascii c <=? hi)%nat.

Definition upper_char (c : ascii) : ascii :=
  if between 97 122 c then ascii_of_nat (nat_of_ascii c - 32) else c.

Definition lower_char (c : ascii) : ascii :=
  if between 65 90 c then ascii_of_nat (nat_of_ascii c + 32) else c.

Fixpoint map_chars (f : ascii -> ascii) (s : string) : string :=
  match s with
  | EmptyString => EmptyString
  | String c r => String (f c) (map_chars f r)
  end.

(** [s.upper()] and [s.lower()]. *)
Definition upper (s : string) : string := map_chars upper_char s.
Definition lower (s : string) : string := map_chars lower_char s.

(** The characters that [s.strip()] removes: tab to carriage return, the
    four separators and the space. *)
Definition is_space (c : ascii) : bool :=
  between 9 13 c || between 28 32 c.

Definition is_underscore (c : ascii) : bool := Ascii.eqb c "_"%char.

Fixpoint lstrip (f : ascii -> bool) (s : string) : string :=
  match s with
  | EmptyString => EmptyString
  | String c r => if f c then lstrip f r else s
  end.

Fixpoint rstrip (f : ascii -> bool) (s : string) : string :=
  match s with
  | EmptyString => EmptyString
  | String c r =>
      match rstrip f r with
      | EmptyString => if f c then EmptyString else String c EmptyString
      | r' => String c r'
      end
  end.

(** [s.strip()] is [strip is_space s]; [s.strip("_")] is
    [strip is_underscore s]. *)
Definition strip (f : ascii -> bool) (s : string) : string :=
  rstrip f (lstrip f s).

(** [s.split(sep)] for a separator of one character. *)
Fixpoint split_on (sep : ascii) (s : string) : list string :=
  match s with
  | EmptyString => [EmptyString]
  | String c r =>
      if Ascii.eqb c sep then EmptyString :: split_on sep r
      else match split_on sep r with
           | h :: t => String c h :: t
           | [] => [String c EmptyString]
           end
  end.

(** [sep.join(items)]. *)
Definition join (sep : string) (items : list string) : string :=
  String.concat sep items.

(** [sorted(items)] on strings. *)
Fixpoint insert_sorted (x : string) (l : list string) : list string :=
  match l with
  | [] => [x]
  | y :: rest =>
      if String.leb x y then x :: l else y :: insert_sorted x rest
  end.

Definition sorted (items : list string) : list string :=
  fold_right insert_sorted [] items.

(** [set(a) | set(b)], as a list without repetition. *)
Definition set_union (a b : list string) : list string :=
  nodup string_dec (a ++ b).

(** *** The module's constants *)

Definition DEFAULT_ENV_PREFIX : string := "GROK2API_CONFIG__".

Definition _TRUE_VALUES : list string := ["1"; "true"; "yes"; "y"; "on"].
Definition _FALSE_VALUES : list string := ["0"; "false"; "no"; "n"; "off"].

Definition mem (x : string) (l : list string) : bool :=
  existsb (String.eqb x) l.

(** A character that [_ENV_SEGMENT_PATTERN], [[^A-Z0-9]+], does not
    match. *)
Definition is_env_char (c : ascii) : bool :=
  between 65 90 c || between 48 57 c.

(** [_ENV_SEGMENT_PATTERN.sub("_", s)]: every maximal run of characters
    outside [A-Z0-9] becomes one underscore. [in_run] tells that the
    character before was in such a run. *)
Fixpoint sub_runs (in_run : bool) (s : string) : string :=
  match s with
  | EmptyString => EmptyString
  | String c r =>
      if is_env_char c then String c (sub_runs false r)
      else if in_run then sub_runs true r
      else String "_"%char (sub_runs true r)
  end.

(** *** The functions *)

Fixpoint _flatten_dict (data : Value) (parent : list string) {struct data}
  : Dict :=
  match data with
  | VDict d =>
      (fix items (d : list (string * Value)) (out : Dict) {struct d} : Dict :=
         match d with
         | [] => out
         | (key, value) :: rest =>
             let current := (parent ++ [key])%list in
             items rest
               (if is_dict value
                then dict_update out (_flatten_dict value current)
                else dict_set_item (join "." current) value out)
         end) d []
  | _ => []
  end.

Fixpoint _set_by_path (target : Dict) (segments : list string) (value : Value)
  : Dict :=
  match segments with
  | [] => target
  | segment :: rest =>
      match rest with
      | [] => dict_set_item segment value target
      | _ :: _ =>
          let node := match dict_get_item segment target with
                      | Some (VDict n) => n
                      | _ => []
                      end in
          dict_set_item segment (VDict (_set_by_path node rest value)) target
      end
  end.

Definition _normalize_segment (segment : string) : string :=
  let cleaned := strip is_underscore (sub_runs false (upper segment)) in
  if truthy_str cleaned then cleaned else "UNKNOWN".

Definition path_to_env_var (prefix : string) (path : string) : string :=
  let segments := filter truthy_str (split_on "." path) in
  let normalized := map _normalize_segment segments in
  prefix ++ join "__" normalized.

(** The result of [_parse_value]: a value, or the message of the
    [ValueError] it raises. *)
Inductive Parsed : Type :=
| ParsedOk (v : Value)
| ParseError (msg : string).

Record EnvOverrideResult : Type := mkEnvOverrideResult {
  overrides : Dict;
  locked_paths : list (string * string);
  errors : list (string * string)
}.

Section Builtins.

(** [int(text)] and [float(text)], [None] when they raise [ValueError];
    [json.loads(text)], [None] when it raises. *)
Variable py_int : string -> option Z.
Variable py_float : string -> option Z.
Variable json_loads : string -> option Value.

Definition _parse_json_value (raw : string) : Value :=
  match json_loads raw with
  | Some v => v
  | None => VNone
  end.

Definition _parse_value (raw : string) (template : Value) : Parsed :=
  let text := strip is_space raw in
  match template with
  | VBool _ =>
      let lowered := lower text in
      if mem lowered _TRUE_VALUES then ParsedOk (VBool true)
      else if mem lowered _FALSE_VALUES then ParsedOk (VBool false)
      else ParseError "布尔值仅支持 true/false/1/0/yes/no/on/off"
  | VInt _ =>
      match py_int text with
      | Some n => ParsedOk (VInt n)
      | None => ParseError "应为整数"
      end
  | VFloat _ =>
      match py_float text with
      | Some x => ParsedOk (VFloat x)
      | None => ParseError "应为数字"
      end
  | VList _ =>
      match _parse_json_value text with
      | VList parsed => ParsedOk (VList parsed)
      | _ =>
          if String.eqb text "" then ParsedOk (VList [])
          else ParsedOk
                 (VList (map (fun item => VStr (strip is_space item))
                             (filter (fun item => truthy_str (strip is_space item))
                                     (split_on "," text))))
      end
  | VDict _ =>
      match _parse_json_value text with
      | VDict parsed => ParsedOk (VDict parsed)
      | _ => ParseError "应为 JSON 对象"
      end
  | _ => ParsedOk (VStr raw)
  end.

(** One turn of the loop of [build], for [path]. *)
Definition build_step (prefix : string) (environ : string -> option string)
    (templates baseline_values : Dict)
    (result : EnvOverrideResult) (path : string) : EnvOverrideResult :=
  let env_var := path_to_env_var prefix path in
  match environ env_var with
  | None => result
  | Some raw_value =>
      let template :=
        match dict_get_item path templates with
        | Some t => t
        | None => match dict_get_item path baseline_values with
                  | Some t => t
                  | None => VNone
                  end
        end in
      match _parse_value raw_value template with
      | ParseError exc =>
          {| overrides := overrides result;
             locked_paths := locked_paths result;
             errors := dict_set_item path (env_var ++ ": " ++ exc)
                                     (errors result) |}
      | ParsedOk parsed =>
          {| overrides := _set_by_path (overrides result)
                                       (split_on "." path) parsed;
             locked_paths := dict_set_item path env_var (locked_paths result);
             errors := errors result |}
      end
  end.

(** The paths that [build] goes through, in its order. *)
Definition build_paths (defaults baseline : Value) : list string :=
  let templates :=
    _flatten_dict (if value_truthy defaults then defaults else VDict []) [] in
  let baseline_values :=
    _flatten_dict (if value_truthy baseline then baseline else VDict []) [] in
  sorted (set_union (dict_keys templates) (dict_keys baseline_values)).

Definition build (prefix : string) (environ : string -> option string)
    (defaults baseline : Value) : EnvOverrideResult :=
  let templates :=
    _flatten_dict (if value_truthy defaults then defaults else VDict []) [] in
  let baseline_values :=
    _flatten_dict (if value_truthy baseline then baseline else VDict []) [] in
  let paths := sorted (set_union (dict_keys templates)
                                 (dict_keys baseline_values)) in
  fold_left (build_step prefix environ templates baseline_values) paths
            {| overrides := []; locked_paths := []; errors := [] |}.

End Builtins.

(** One turn of the loop of [filter_locked_config]. *)
Definition filter_step (locked : list string)
    (acc : Dict * list string) (item : string * Value) : Dict * list string :=
  let '(filtered, ignored) := acc in
  let '(path, value) := item in
  if mem path locked then (filtered, (ignored ++ [path])%list)
  else (_set_by_path filtered (split_on "." path) value, ignored).

(** [locked] is the set of locked paths: the keys of the mapping, or the
    set itself. *)
Definition filter_locked_config (new_config : Value) (locked : list string)
  : Dict * list string :=
  if negb (is_dict new_config) then ([], []) else
  let flat_new := _flatten_dict new_config [] in
  let '(filtered, ignored) := fold_left (filter_step locked) flat_new ([], []) in
  (filtered, sorted ignored).

End ConfigEnv.

(** *** Vocabulary for the properties of [config_env.py] *)

Module ConfigEnvSpec.

Import ConfigEnv.

(** The loop of [_flatten_dict] over the items [d] of a dict, with [out] as
    filled so far. *)
Fixpoint flatten_items (parent : list string) (d : Dict) (out : Dict) : Dict :=
  match d with
  | [] => out
  | (key, value) :: rest =>
      let current := (parent ++ [key])%list in
      flatten_items parent rest
        (if is_dict value
         then dict_update out (_flatten_dict value current)
         else dict_set_item (join "." current) value out)
  end.

(** The paths, as lists of keys, of the leaves below a dict: the values
    that are not dicts. An empty dict has none. *)
Fixpoint leaf_paths (v : Value) : list (list string) :=
  match v with
  | VDict d =>
      (fix go (d : list (string * Value)) : list (list string) :=
         match d with
         | [] => []
         | (key, value) :: rest =>
             ((if is_dict value then map (cons key) (leaf_paths value)
               else [[key]]) ++ go rest)%list
         end) d
  | _ => []
  end.

Definition entry_paths (key : string) (value : Value) : list (list string) :=
  if is_dict value then map (cons key) (leaf_paths value) else [[key]].

Fixpoint items_paths (d : Dict) : list (list string) :=
  match d with
  | [] => []
  | (key, value) :: rest => (entry_paths key value ++ items_paths rest)%list
  end.

(** The shape [[A-Z0-9]+(_[A-Z0-9]+)*] of a normalized segment: [tail_ok]
    is for what follows a character of [A-Z0-9]. *)
Fixpoint tail_ok (s : string) : bool :=
  match s with
  | EmptyString => true
  | String c r =>
      if is_env_char c then tail_ok r
      else if is_underscore c then
        match r with
        | String c' r' => is_env_char c' && tail_ok r'
        | EmptyString => false
        end
      else false
  end.

Definition segment_ok (s : string) : bool :=
  match s with
  | EmptyString => false
  | String c r => is_env_char c && tail_ok r
  end.

(** The type of a value, as [_parse_value] tells types apart. *)
Inductive Kind : Type :=
| KNone | KBool | KInt | KFloat | KStr | KList | KDict.

Definition kind (v : Value) : Kind :=
  match v with
  | VNone => KNone
  | VBool _ => KBool
  | VInt _ => KInt
  | VFloat _ => KFloat
  | VStr _ => KStr
  | VList _ => KList
  | VDict _ => KDict
  end.

Definition kind_eqb (a b : Kind) : bool :=
  match a, b with
  | KNone, KNone | KBool, KBool | KInt, KInt | KFloat, KFloat
  | KStr, KStr | KList, KList | KDict, KDict => true
  | _, _ => false
  end.

(** A key that [path.split(".")] gives back as it is. *)
Fixpoint dot_free (s : string) : bool :=
  match s with
  | EmptyString => true
  | String c r => negb (Ascii.eqb c ".") && dot_free r
  end.

(** A configuration that survives flattening and rebuilding: in every dict
    the keys are distinct and free of dots, and no dict is empty but the
    outermost. *)
Fixpoint well_formed (v : Value) : Prop :=
  match v with
  | VDict d =>
      NoDup (map fst d) /\
      (fix all (d : list (string * Value)) : Prop :=
         match d with
         | [] => True
         | (key, value) :: rest =>
             dot_free key = true /\
             match value with
             | VDict [] => False
             | _ => well_formed value
             end /\
             all rest
         end) d
  | _ => True
  end.

End ConfigEnvSpec.

(** *** Vocabulary for the names of environment variables *)

Module EnvVarSpec.

Import ConfigEnv.

(** What follows a segment in a joined name: nothing, or the separator and
    the first character of the next segment. *)
Definition after_segment (rest : string) : Prop :=
  rest = EmptyString \/
  exists c r, rest = String "_" (String "_" (String c r)) /\
              is_env_char c = true.

(** The segments that [path_to_env_var] joins. *)
Definition env_segments (path : string) : list string :=
  map _normalize_segment (filter truthy_str (split_on "." path)).

End EnvVarSpec.

(** *** Vocabulary for [_parse_value] *)

Module ParseSpec.

Import ConfigEnv ConfigEnvSpec.

(** The type of the value that [_parse_value] gives for a template. *)
Definition expected_kind (template : Value) : Kind :=
  match template with
  | VBool _ => KBool
  | VInt _ => KInt
  | VFloat _ => KFloat
  | VList _ => KList
  | VDict _ => KDict
  | VNone | VStr _ => KStr
  end.

(** The templates for which [_parse_value] reads the stripped text. *)
Definition reads_text (template : Value) : bool :=
  match template with
  | VNone | VStr _ => false
  | _ => true
  end.

(** An item of a list that was given with commas: a string that is not
    empty and has no space at either end. *)
Definition stripped_item (v : Value) : Prop :=
  match v with
  | VStr s => truthy_str s = true /\ strip is_space s = s
  | _ => False
  end.

End ParseSpec.

(** *** Vocabulary for [build] *)

Module OverlaySpec.

Import ConfigEnv.

Section Builtins.

Variable py_int : string -> option Z.
Variable py_float : string -> option Z.
Variable json_loads : string -> option Value.

(** [_flatten_dict(defaults or {})]. *)
Definition flat_or_empty (data : Value) : Dict :=
  _flatten_dict (if value_truthy data then data else VDict []) [].

(** [templates.get(path, baseline_values.get(path))]. *)
Definition template_of (defaults baseline : Value) (path : string) : Value :=
  match dict_get_item path (flat_or_empty defaults) with
  | Some t => t
  | None => match dict_get_item path (flat_or_empty baseline) with
            | Some t => t
            | None => VNone
            end
  end.

(** What the environment says of a path: nothing when its variable is
    not set, and the parsed text of the variable when it is. *)
Definition reading (prefix : string) (environ : string -> option string)
    (defaults baseline : Value) (path : string) : option Parsed :=
  match environ (path_to_env_var prefix path) with
  | None => None
  | Some raw =>
      Some (_parse_value py_int py_float json_loads raw
              (template_of defaults baseline path))
  end.

Definition empty_result : EnvOverrideResult :=
  {| overrides := []; locked_paths := []; errors := [] |}.

End Builtins.

End OverlaySpec.

(** *** Vocabulary for flattening and rebuilding *)

Module RoundTripSpec.

Import ConfigEnv ConfigEnvSpec.

(** A leaf below a key: its path gets the key in front. *)
Definition under (key : string) (e : list string * Value)
  : list string * Value :=
  (key :: fst e, snd e).

(** The leaves below a dict, each with its path, in the order in which
    [_flatten_dict] meets them. *)
Fixpoint leaf_entries (v : Value) : list (list string * Value) :=
  match v with
  | VDict d =>
      (fix go (d : list (string * Value)) : list (list string * Value) :=
         match d with
         | [] => []
         | (key, value) :: rest =>
             ((if is_dict value then map (under key) (leaf_entries value)
               else [([key], value)]) ++ go rest)%list
         end) d
  | _ => []
  end.

Definition entry_entries (key : string) (value : Value)
  : list (list string * Value) :=
  if is_dict value then map (under key) (leaf_entries value)
  else [([key], value)].

Fixpoint items_entries (d : Dict) : list (list string * Value) :=
  match d with
  | [] => []
  | (key, value) :: rest =>
      (entry_entries key value ++ items_entries rest)%list
  end.

(** The key that [_flatten_dict] gives a leaf, and its item. *)
Definition flat_key (parent : list string) (e : list string * Value)
  : string :=
  join "." (parent ++ fst e).

Definition flat_item (parent : list string) (e : list string * Value)
  : string * Value :=
  (flat_key parent e, snd e).

(** What [well_formed] asks of the items of a dict. *)
Fixpoint items_ok (d : Dict) : Prop :=
  match d with
  | [] => True
  | (key, value) :: rest =>
      dot_free key = true /\
      match value with
      | VDict [] => False
      | _ => well_formed value
      end /\
      items_ok rest
  end.

(** [_set_by_path(target, path, value)] for a leaf. *)
Definition set_entry (target : Dict) (e : list string * Value) : Dict :=
  _set_by_path target (fst e) (snd e).

(** [cursor.get(segment)] when it is a dict, and a new dict when it is
    not. *)
Definition node_at (key : string) (target : Dict) : Dict :=
  match dict_get_item key target with
  | Some (VDict n) => n
  | _ => []
  end.

End RoundTripSpec.

(** * Properties *)

(** ** Validity of an entry *)

Lemma opt_str_eqb_eq (a b : option string) :
  opt_str_eqb a b = true <-> a = b.
Proof.
  destruct a as [x|], b as [y|]; simpl; split; intro H;
    try discriminate; try reflexivity.
  - apply String.eqb_eq in H. now subst.
  - injection H as ->. apply String.eqb_refl.
Qed.

Lemma is_expired_false (e : Entry) (now : Z) :
  CFClearanceCache.is_expired e now 300 = false <->
  PyNumber.truthy (CFClearanceCache.expires_at e) = true /\
  PyNumber.time_ge now (PyNumber.sub_int (CFClearanceCache.expires_at e) 300)
  = false.
Proof.
  unfold CFClearanceCache.is_expired.
  destruct (PyNumber.truthy (CFClearanceCache.expires_at e)); cbn [negb].
  - tauto.
  - split; [discriminate|intros [H _]; discriminate].
Qed.

Lemma is_valid_for_true (e : Entry) (now : Z)
    (browser : string) (proxy : option string) :
  CFClearanceCache.is_valid_for e now browser proxy = true <->
  CFClearanceCache.is_expired e now 300 = false /\
  CFClearanceCache.browser e = browser /\
  CFClearanceCache.proxy e = proxy.
Proof.
  unfold CFClearanceCache.is_valid_for.
  destruct (CFClearanceCache.is_expired e now 300).
  { split; [discriminate | intros [H _]; discriminate]. }
  destruct (String.eqb_spec (CFClearanceCache.browser e) browser) as [B|B]; simpl.
  2: { split; [discriminate | intros (_ & H & _); contradiction]. }
  destruct (opt_str_eqb (CFClearanceCache.proxy e) proxy) eqn:P; simpl.
  - apply opt_str_eqb_eq in P. tauto.
  - split; [discriminate|]. intros (_ & _ & H).
    apply opt_str_eqb_eq in H. congruence.
Qed.

(** *** Numbers that are not NaN *)

Section NotNaN.

Import PyNumber.

Lemma shr_1_nonneg mrs : 0 <= shr_m mrs -> 0 <= shr_m (shr_1 mrs).
Proof.
  destruct mrs as [m r s0]. cbn [shr_m].
  destruct m as [|[q|q|]|q]; cbn; lia.
Qed.

Lemma iter_shr_1_nonneg n : forall mrs,
  0 <= shr_m mrs -> 0 <= shr_m (iter_pos shr_1 n mrs).
Proof.
  induction n as [n IH|n IH|]; intros mrs H; cbn [iter_pos].
  - apply IH, IH, shr_1_nonneg, H.
  - apply IH, IH, H.
  - apply shr_1_nonneg, H.
Qed.

Lemma shr_fexp_nonneg m e l :
  0 <= m -> 0 <= shr_m (fst (shr_fexp prec emax m e l)).
Proof.
  intro H. unfold shr_fexp, shr.
  assert (0 <= shr_m (shr_record_of_loc m l)) as H0
    by (destruct l as [|[]]; exact H).
  destruct (fexp prec emax (Zdigits2 m + e) - e); cbn [fst];
    [exact H0|now apply iter_shr_1_nonneg|exact H0].
Qed.

Lemma round_nearest_even_nonneg m l :
  0 <= m -> 0 <= round_nearest_even m l.
Proof.
  intro H. unfold round_nearest_even.
  destruct l as [|[]]; [lia| |lia|lia].
  destruct (Z.even m); lia.
Qed.

Lemma binary_round_aux_not_nan s m e l :
  0 <= m -> binary_round_aux prec emax s m e l <> S754_nan.
Proof.
  intro H. unfold binary_round_aux.
  pose proof (shr_fexp_nonneg m e l H) as H1.
  destruct (shr_fexp prec emax m e l) as [mrs1 e1]. cbn [fst] in H1.
  pose proof (shr_fexp_nonneg _ e1 loc_Exact
                (round_nearest_even_nonneg _ (loc_of_shr_record mrs1) H1))
    as H2.
  destruct (shr_fexp prec emax _ e1 loc_Exact) as [mrs2 e2]. cbn [fst] in H2.
  destruct (shr_m mrs2) as [|q|q]; [discriminate| |lia].
  destruct (e2 <=? emax - prec); discriminate.
Qed.

Lemma binary_normalize_not_nan m e :
  binary_normalize prec emax m e false <> S754_nan.
Proof.
  unfold binary_normalize, binary_round.
  destruct m as [|q|q]; [discriminate| |];
    destruct (shl_align _ _ _) as [mz ez];
    apply binary_round_aux_not_nan; lia.
Qed.

(** A float subtraction gives NaN only from NaN, or from two infinities. *)
Lemma SFsub_finite_not_nan f g :
  f <> S754_nan -> is_finite g = true -> SFsub prec emax f g <> S754_nan.
Proof.
  intros F G. destruct g as [sg|sg| |sg mg eg]; try discriminate G;
    destruct f as [sf|sf| |sf mf ef]; try congruence; cbn [SFsub];
    try discriminate.
  - destruct sf, sg; discriminate.
  - apply binary_normalize_not_nan.
Qed.

Lemma of_Z_not_nan z : of_Z z <> S754_nan.
Proof. apply binary_normalize_not_nan. Qed.

Lemma sub_int_300_not_nan x :
  is_nan x = false -> is_nan (sub_int x 300) = false.
Proof.
  destruct x as [z|f]; [reflexivity|]. intro N. cbn [sub_int is_nan].
  assert (f <> S754_nan) as F by (intros ->; discriminate N).
  pose proof (SFsub_finite_not_nan f (of_Z 300) F eq_refl) as H.
  destruct (SFsub prec emax f (of_Z 300)); congruence.
Qed.

(** Of a number that is not NaN, [now < x] holds exactly when [now >= x]
    does not. *)
Lemma time_lt_not_ge now x :
  is_nan x = false -> time_lt now x = negb (time_ge now x).
Proof.
  destruct x as [z|[s|s| |s m e]]; cbn [time_lt time_ge Z_lt_float Z_ge_float];
    intro N; try discriminate N.
  - apply Z.ltb_antisym.
  - apply Z.ltb_antisym.
  - reflexivity.
  - cbv zeta. destruct (0 <=? e); apply Z.ltb_antisym.
Qed.

(** Zero less 300 is below every clock reading that is not negative. *)
Lemma zero_sub_300_passed now x :
  0 <= now -> truthy x = false -> time_lt now (sub_int x 300) = false.
Proof.
  intros H T. destruct x as [z|[s|s| |s m e]]; try discriminate T.
  - cbn in T. apply negb_false_iff, Z.eqb_eq in T. subst z.
    cbn. apply Z.ltb_ge. lia.
  - cbn [sub_int time_lt]. destruct s; cbn; apply Z.ltb_ge; nia.
Qed.

End NotNaN.

(** C2, as amended. [is_valid_for] holds exactly when the entry's browser
    and proxy both equal the ones asked for, [expires_at] is not zero and the
    test [now >= expires_at - 300] fails. For an [expires_at] that is not
    NaN, at a clock reading that is not negative, that is: the context is
    the one asked for and [now < expires_at - 300]. An entry whose
    [expires_at] is zero is valid for no context at any time, and so is an
    entry built from a reply that carries no [expires_at]. *)
Theorem is_valid_for_iff (e : Entry) (now : Z)
    (browser : string) (proxy : option string) :
  let expires_at := CFClearanceCache.expires_at e in
  (CFClearanceCache.is_valid_for e now browser proxy = true <->
   (CFClearanceCache.browser e = browser /\
    CFClearanceCache.proxy e = proxy) /\
   PyNumber.truthy expires_at = true /\
   PyNumber.time_ge now (PyNumber.sub_int expires_at 300) = false) /\
  (PyNumber.is_nan expires_at = false -> 0 <= now ->
   (CFClearanceCache.is_valid_for e now browser proxy = true <->
    (CFClearanceCache.browser e = browser /\
     CFClearanceCache.proxy e = proxy) /\
    PyNumber.time_lt now (PyNumber.sub_int expires_at 300) = true)) /\
  (PyNumber.truthy expires_at = false ->
   CFClearanceCache.is_valid_for e now browser proxy = false) /\
  (forall data b p,
     p_expires_at data = None ->
     CFClearanceCache.is_valid_for
       (CFClearanceService.entry_of_payload data b p) now browser proxy
     = false).
Proof.
  cbv zeta. split; [|split; [|split]].
  - rewrite is_valid_for_true, is_expired_false. tauto.
  - intros N Hnow. rewrite is_valid_for_true, is_expired_false.
    rewrite (time_lt_not_ge now _ (sub_int_300_not_nan _ N)).
    rewrite negb_true_iff. split; [tauto|]. intros [C G].
    repeat split; try tauto.
    destruct (PyNumber.truthy (CFClearanceCache.expires_at e)) eqn:T;
      [reflexivity|].
    pose proof (zero_sub_300_passed now _ Hnow T) as Z0.
    rewrite (time_lt_not_ge now _ (sub_int_300_not_nan _ N)) in Z0.
    rewrite G in Z0. discriminate Z0.
  - intro T. unfold CFClearanceCache.is_valid_for, CFClearanceCache.is_expired.
    rewrite T. reflexivity.
  - intros data b p A.
    unfold CFClearanceCache.is_valid_for, CFClearanceCache.is_expired.
    cbn. rewrite A. reflexivity.
Qed.

(** C2, as stated, fails for an entry whose [expires_at] is NaN, which is
    what [response.json()] reads from the literal [NaN]: the entry is valid
    for its own context, at the clock reading 1000 as at any other, though
    [1000 < expires_at - 300] does not hold. *)
Lemma nan_expiry_is_valid :
  let e := {| CFClearanceCache.cf_clearance := "abcd1234";
              CFClearanceCache.user_agent := "Mozilla/5.0";
              CFClearanceCache.browser := "chrome136";
              CFClearanceCache.proxy := None;
              CFClearanceCache.expires_at := PyNumber.PyFloat S754_nan;
              CFClearanceCache.cookie_string := None;
              CFClearanceCache.cookies := None |} in
  CFClearanceCache.is_valid_for e 1000 "chrome136" None = true /\
  PyNumber.time_lt 1000
    (PyNumber.sub_int (CFClearanceCache.expires_at e) 300) = false /\
  (forall now, CFClearanceCache.is_valid_for e now "chrome136" None = true).
Proof.
  cbv zeta. repeat split.
Qed.

(** ** Running composed coroutines *)

Lemma awaits_app (t1 t2 : list Event) :
  awaits (t1 ++ t2) = (awaits t1 + awaits t2)%nat.
Proof.
  induction t1 as [|[c|a] t1 IH]; simpl; auto.
Qed.

Section RunLemmas.

Variable localtime_ok : Number -> bool.


Lemma run_bind {A B} (p : Coro A) (f : A -> Coro B) env i w :
  run localtime_ok (bind p f) env i w =
  let '(o, w1, tr1) := run localtime_ok p env i w in
  match o with
  | Return r =>
      let '(o2, w2, tr2) := run localtime_ok (f r) env (i + awaits tr1) w1 in
      (o2, w2, (tr1 ++ tr2)%list)
  | Raise e => (Raise e, w1, tr1)
  end.
Proof.
  revert i w. induction p as [r|e|c k IH|a k IH]; intros i w; simpl.
  - rewrite Nat.add_0_r. now destruct (run localtime_ok (f r) env i w) as [[o2 w2] tr2].
  - reflexivity.
  - destruct (do_call localtime_ok c w) as [x w1]. rewrite IH.
    destruct (run localtime_ok (k x) env i w1) as [[o w2] tr1].
    destruct o as [r|e]; [|reflexivity].
    simpl. now destruct (run localtime_ok (f r) env (i + awaits tr1) w2) as [[o2 w3] tr2].
  - rewrite IH.
    destruct (run localtime_ok (k (reply (env i) a)) env (S i) (interfere (env i) w))
      as [[o w2] tr1].
    destruct o as [r|e]; [|reflexivity].
    simpl. rewrite Nat.add_succ_r.
    now destruct (run localtime_ok (f r) env (S (i + awaits tr1)) w2) as [[o2 w3] tr2].
Qed.

Lemma run_try_finally {R} (body : Coro R) (fin : Coro unit) env i w :
  run localtime_ok (try_finally body fin) env i w =
  let '(o, w1, tr1) := run localtime_ok body env i w in
  let '(o', w2, tr2) := run localtime_ok fin env (i + awaits tr1) w1 in
  (match o' with Return _ => o | Raise e => Raise e end, w2, (tr1 ++ tr2)%list).
Proof.
  revert i w. induction body as [r|e|c k IH|a k IH]; intros i w; simpl.
  - rewrite run_bind, Nat.add_0_r.
    destruct (run localtime_ok fin env i w) as [[o' w2] tr2].
    destruct o'; simpl; now rewrite ?app_nil_r.
  - rewrite run_bind, Nat.add_0_r.
    destruct (run localtime_ok fin env i w) as [[o' w2] tr2].
    destruct o'; simpl; now rewrite ?app_nil_r.
  - destruct (do_call localtime_ok c w) as [x w1]. rewrite IH.
    destruct (run localtime_ok (k x) env i w1) as [[o w2] tr1]. cbn [awaits].
    now destruct (run localtime_ok fin env (i + awaits tr1) w2) as [[o' w3] tr2].
  - rewrite IH.
    destruct (run localtime_ok (k (reply (env i) a)) env (S i) (interfere (env i) w))
      as [[o w2] tr1].
    simpl. rewrite Nat.add_succ_r.
    now destruct (run localtime_ok fin env (S (i + awaits tr1)) w2) as [[o' w3] tr2].
Qed.

Lemma run_try_except {R} (body : Coro R) (handler : Exn -> Coro R) env i w :
  run localtime_ok (try_except body handler) env i w =
  let '(o, w1, tr1) := run localtime_ok body env i w in
  match o with
  | Return r => (Return r, w1, tr1)
  | Raise e =>
      if is_Exception e then
        let '(o2, w2, tr2) := run localtime_ok (handler e) env (i + awaits tr1) w1 in
        (o2, w2, (tr1 ++ tr2)%list)
      else (Raise e, w1, tr1)
  end.
Proof.
  revert i w. induction body as [r|e|c k IH|a k IH]; intros i w; simpl.
  - reflexivity.
  - destruct (is_Exception e); [|reflexivity].
    rewrite Nat.add_0_r. now destruct (run localtime_ok (handler e) env i w) as [[o2 w2] tr2].
  - destruct (do_call localtime_ok c w) as [x w1]. rewrite IH.
    destruct (run localtime_ok (k x) env i w1) as [[o w2] tr1].
    destruct o as [r|e]; [reflexivity|].
    destruct (is_Exception e); [|reflexivity]. cbn [awaits].
    now destruct (run localtime_ok (handler e) env (i + awaits tr1) w2) as [[o2 w3] tr2].
  - rewrite IH.
    destruct (run localtime_ok (k (reply (env i) a)) env (S i) (interfere (env i) w))
      as [[o w2] tr1].
    destruct o as [r|e]; [reflexivity|].
    destruct (is_Exception e); [|reflexivity].
    simpl. rewrite Nat.add_succ_r.
    now destruct (run localtime_ok (handler e) env (S (i + awaits tr1)) w2) as [[o2 w3] tr2].
Qed.

(** A whole call is its first turn followed by the rest of the call. *)
Lemma run_run_atomic {R} (p : Coro R) env i w :
  run localtime_ok p env i w =
  match run_atomic localtime_ok p w with
  | (Finished o, w1, tr1) => (o, w1, tr1)
  | (Suspended a k, w1, tr1) =>
      let '(o, w2, tr2) :=
        run localtime_ok (k (reply (env i) a)) env (S i) (interfere (env i) w1) in
      (o, w2, (tr1 ++ EvAwait a :: tr2)%list)
  end.
Proof.
  revert w. induction p as [r|e|c k IH|a k IH]; intros w; simpl; auto.
  destruct (do_call localtime_ok c w) as [x w1]. rewrite IH.
  destruct (run_atomic localtime_ok (k x) w1) as [[[o|a k'] w2] tr1]; auto.
  now destruct (run localtime_ok (k' (reply (env i) a)) env (S i) (interfere (env i) w2))
    as [[o w3] tr2].
Qed.

End RunLemmas.

(** ** The remote fetch *)

Lemma py_or_idem (x : option string) (d : string) :
  py_or (Some (py_or x d)) d = py_or x d.
Proof.
  unfold py_or. destruct x as [s|].
  - destruct (truthy_str s) eqn:E; [now rewrite E|].
    now destruct (truthy_str d).
  - now destruct (truthy_str d).
Qed.

Lemma if_not_none_idem {A} (x d : option A) :
  if_not_none (if_not_none x d) d = if_not_none x d.
Proof.
  destruct x; simpl; auto. now destruct d.
Qed.

Section Fetch.

Import CFClearanceService.

Variable localtime_ok : Number -> bool.
Variable cfg : Config.
Variable service_url : string.
Hypothesis Hurl : cf_clearance_service_url cfg = Some service_url.
Hypothesis Htruthy : truthy_str service_url = true.


Variables (browser proxy : option string).

Let b := effective_browser cfg browser.
Let p := effective_proxy cfg proxy.
Let req := request_of cfg service_url browser proxy.

Lemma run_fetch_raw env i w :
  run localtime_ok (fetch_from_service cfg (Some b) p None None) env i w =
  (match reply (env i) (AHttpPost req) with
   | HttpRaised e => if is_Exception e then Return None else Raise e
   | HttpResponse response =>
       if negb (status_code response =? 200) then Return None
       else match body response with
            | JsonObject data =>
                if negb (dict_get (p_success data) false) then Return None
                else Return (Some (entry_of_payload data b p))
            | _ => Return None
            end
   end, interfere (env i) w, [EvAwait (AHttpPost req)]).
Proof.
  unfold fetch_from_service, _get_service_url.
  rewrite Hurl, Htruthy. cbn [negb].
  unfold b at 1 2, p at 1 2, effective_browser, effective_proxy.
  rewrite py_or_idem, if_not_none_idem.
  fold (effective_browser cfg browser) (effective_proxy cfg proxy).
  rewrite run_try_except, run_bind.
  unfold post. cbn [run].
  replace (build_request cfg service_url (effective_browser cfg browser)
             (effective_proxy cfg proxy)
             (py_or_opt None (_get_user_agent cfg))
             (py_or_int None (_get_timeout cfg))) with req.
  2:{ unfold req, request_of, effective_browser, effective_proxy.
      now rewrite py_or_idem, if_not_none_idem. }
  destruct (reply (env i) (AHttpPost req)) as [response|e]; cbn.
  - destruct (status_code response =? 200); cbn; [|reflexivity].
    destruct (body response) as [| |data]; cbn; try reflexivity.
    destruct (dict_get (p_success data) false); reflexivity.
  - destruct e; reflexivity.
Qed.

Lemma run_fetch_failed env i w :
  remote_failed (reply (env i) (AHttpPost req)) = true ->
  run localtime_ok (fetch_from_service cfg (Some b) p None None) env i w =
  (Return None, interfere (env i) w, [EvAwait (AHttpPost req)]).
Proof.
  intro F. rewrite run_fetch_raw. f_equal. f_equal.
  unfold remote_failed in F.
  destruct (reply (env i) (AHttpPost req)) as [response|e].
  - destruct (negb (status_code response =? 200)); [reflexivity|].
    destruct (body response) as [| |data]; try reflexivity.
    now rewrite F.
  - destruct e; try reflexivity. discriminate.
Qed.

Lemma run_fetch_success env i w data :
  remote_success (reply (env i) (AHttpPost req)) = Some data ->
  run localtime_ok (fetch_from_service cfg (Some b) p None None) env i w =
  (Return (Some (entry_of_payload data b p)), interfere (env i) w,
   [EvAwait (AHttpPost req)]).
Proof.
  intro F. rewrite run_fetch_raw. f_equal. f_equal.
  unfold remote_success in F.
  destruct (reply (env i) (AHttpPost req)) as [response|e]; [|discriminate].
  destruct (negb (status_code response =? 200)); [discriminate|].
  destruct (body response) as [| |d]; try discriminate.
  destruct (dict_get (p_success d) false); [|discriminate].
  now injection F as ->.
Qed.

End Fetch.

(** ** The lookup *)

(** [get_cached] returns the entry it finds valid, unless the log line of
    the hit raises; it returns [None] when it finds none. *)
Lemma get_cached_lookup w b p :
  CFClearanceCacheManager.get_cached (manager w) (clock w) b p =
  hit_or_raise w (lookup w b p).
Proof.
  unfold CFClearanceCacheManager.get_cached, lookup, hit_or_raise, log_ok.
  destruct (CFClearanceCacheManager._cache (manager w)) as [c|];
    [|reflexivity].
  destruct (CFClearanceCache.is_valid_for c (clock w) b p); [|reflexivity].
  now destruct (PyNumber.expires_in _ _).
Qed.

Lemma get_cached_miss w b p :
  lookup w b p = None ->
  CFClearanceCacheManager.get_cached (manager w) (clock w) b p = Return None.
Proof. intro L. now rewrite get_cached_lookup, L. Qed.

Lemma get_cached_none w b p :
  CFClearanceCacheManager.get_cached (manager w) (clock w) b p = Return None ->
  lookup w b p = None.
Proof.
  rewrite get_cached_lookup. unfold hit_or_raise.
  destruct (lookup w b p) as [c|]; [|reflexivity].
  destruct (log_ok w c); discriminate.
Qed.

(** ** The fetcher path *)

Lemma refreshing_with_refreshing (w : World) (v : bool) :
  refreshing (with_refreshing w v) = v.
Proof. reflexivity. Qed.

Lemma run_set_refreshing localtime_ok (v : bool) env i w :
  run localtime_ok (set_refreshing v) env i w =
  (Return tt, with_refreshing w v, [EvCall (CSetRefreshing v)]).
Proof. reflexivity. Qed.

Section Fetcher.

Import CFClearanceService.

Variable localtime_ok : Number -> bool.
Variable cfg : Config.

(** A block [try: body finally: await set_refreshing(False)] ends with the
    flag cleared, however [body] ends. *)
Lemma run_finally_reset {R} (body : Coro R) env i w :
  run localtime_ok (try_finally body (set_refreshing false)) env i w =
  let '(o, w1, tr1) := run localtime_ok body env i w in
  (o, with_refreshing w1 false, (tr1 ++ [EvCall (CSetRefreshing false)])%list).
Proof.
  rewrite run_try_finally.
  destruct (run localtime_ok body env i w) as [[o w1] tr1].
  now rewrite run_set_refreshing.
Qed.

Lemma run_get_clearance_miss_fetcher browser proxy env i w :
  refreshing w = false ->
  run localtime_ok (get_clearance_miss cfg browser proxy) env i w =
  let '(o, w1, tr1) :=
    run localtime_ok
      (cache <- fetch_from_service cfg (Some browser) proxy None None ;;
       match cache with
       | Some c => set_cache c ;; Ret (Some (CFClearanceCache.cf_clearance c))
       | None => Ret None
       end) env i (with_refreshing w true) in
  (o, with_refreshing w1 false,
   (EvCall CIsRefreshing :: EvCall (CSetRefreshing true) :: tr1
    ++ [EvCall (CSetRefreshing false)])%list).
Proof.
  intro F. unfold get_clearance_miss, is_refreshing.
  cbn [bind run do_call]. unfold CFClearanceCacheManager.is_refreshing.
  unfold refreshing in F. rewrite F. unfold set_refreshing at 1.
  cbn [bind run do_call]. fold (with_refreshing w true). rewrite run_finally_reset.
  match goal with |- context [run localtime_ok ?b env i ?w0] =>
    destruct (run localtime_ok b env i w0) as [[o w1] tr1] end.
  reflexivity.
Qed.

Lemma run_get_cache_miss_fetcher browser proxy env i w :
  refreshing w = false ->
  run localtime_ok (get_cache_miss cfg browser proxy) env i w =
  let '(o, w1, tr1) :=
    run localtime_ok
      (cache <- fetch_from_service cfg (Some browser) proxy None None ;;
       match cache with
       | Some c => set_cache c ;; Ret (Some c)
       | None => Ret None
       end) env i (with_refreshing w true) in
  (o, with_refreshing w1 false,
   (EvCall CIsRefreshing :: EvCall (CSetRefreshing true) :: tr1
    ++ [EvCall (CSetRefreshing false)])%list).
Proof.
  intro F. unfold get_cache_miss, is_refreshing.
  cbn [bind run do_call]. unfold CFClearanceCacheManager.is_refreshing.
  unfold refreshing in F. rewrite F. unfold set_refreshing at 1.
  cbn [bind run do_call]. fold (with_refreshing w true). rewrite run_finally_reset.
  match goal with |- context [run localtime_ok ?b env i ?w0] =>
    destruct (run localtime_ok b env i w0) as [[o w1] tr1] end.
  reflexivity.
Qed.

(** On the fetcher path both calls are their first checks followed by the
    part after the test of [is_refreshing]. *)
Lemma run_get_clearance_to_miss browser proxy force env i w :
  cache_hit cfg w browser proxy force = None ->
  run localtime_ok (get_clearance cfg browser proxy force) env i w =
  let '(o, w1, tr1) :=
    run localtime_ok
      (get_clearance_miss cfg (effective_browser cfg browser)
                          (effective_proxy cfg proxy)) env i w in
  (o, w1,
   ((if force then []
     else [EvCall (CGetCached (effective_browser cfg browser)
                              (effective_proxy cfg proxy))]) ++ tr1)%list).
Proof.
  unfold cache_hit, get_clearance.
  fold (effective_browser cfg browser) (effective_proxy cfg proxy).
  destruct force; cbn [negb]; intro H.
  - now destruct (run localtime_ok _ env i w) as [[o w1] tr1].
  - unfold get_cached. cbn [bind run do_call].
    rewrite (get_cached_miss _ _ _ H).
    now destruct (run localtime_ok _ env i w) as [[o w1] tr1].
Qed.

Lemma run_get_cache_to_miss browser proxy force env i w :
  cache_hit cfg w browser proxy force = None ->
  run localtime_ok (get_cache cfg browser proxy force) env i w =
  let '(o, w1, tr1) :=
    run localtime_ok
      (get_cache_miss cfg (effective_browser cfg browser)
                      (effective_proxy cfg proxy)) env i w in
  (o, w1,
   ((if force then []
     else [EvCall (CGetCached (effective_browser cfg browser)
                              (effective_proxy cfg proxy))]) ++ tr1)%list).
Proof.
  unfold cache_hit, get_cache.
  fold (effective_browser cfg browser) (effective_proxy cfg proxy).
  destruct force; cbn [negb]; intro H.
  - now destruct (run localtime_ok _ env i w) as [[o w1] tr1].
  - unfold get_cached. cbn [bind run do_call].
    rewrite (get_cached_miss _ _ _ H).
    now destruct (run localtime_ok _ env i w) as [[o w1] tr1].
Qed.

Lemma fetcher_path_inv browser proxy force w :
  fetcher_path cfg w browser proxy force = true ->
  cache_hit cfg w browser proxy force = None /\ refreshing w = false.
Proof.
  unfold fetcher_path.
  destruct (cache_hit cfg w browser proxy force); [discriminate|].
  destruct (refreshing w); [discriminate|auto].
Qed.

Lemma waiter_path_inv browser proxy force w :
  waiter_path cfg w browser proxy force = true ->
  cache_hit cfg w browser proxy force = None /\ refreshing w = true.
Proof.
  unfold waiter_path.
  destruct (cache_hit cfg w browser proxy force); [discriminate|auto].
Qed.

(** C4. A call of [get_clearance] or of [get_cache] that takes the fetcher
    path ends with the refreshing flag false, whatever the remote fetch does
    (a result, no result, or an exception that escapes it) and whatever the
    other tasks did meanwhile: the reset sits in a [finally] block. *)
Theorem fetcher_resets_refreshing browser proxy force env i w :
  fetcher_path cfg w browser proxy force = true ->
  refreshing
    (final_world (run localtime_ok (get_clearance cfg browser proxy force) env i w))
    = false /\
  refreshing
    (final_world (run localtime_ok (get_cache cfg browser proxy force) env i w))
    = false.
Proof.
  intro P. apply fetcher_path_inv in P as [H F]. split.
  - rewrite (run_get_clearance_to_miss _ _ _ _ _ _ H).
    rewrite (run_get_clearance_miss_fetcher _ _ _ _ _ F).
    now destruct (run localtime_ok _ env i (with_refreshing w true)) as [[o w1] tr1].
  - rewrite (run_get_cache_to_miss _ _ _ _ _ _ H).
    rewrite (run_get_cache_miss_fetcher _ _ _ _ _ F).
    now destruct (run localtime_ok _ env i (with_refreshing w true)) as [[o w1] tr1].
Qed.

End Fetcher.

(** ** A fetch that fails *)

Section FailedFetch.

Import CFClearanceService.

Variable localtime_ok : Number -> bool.
Variable cfg : Config.
Variable service_url : string.
Hypothesis Hurl : cf_clearance_service_url cfg = Some service_url.
Hypothesis Henabled : is_enabled cfg = true.

Lemma enabled_truthy : truthy_str service_url = true.
Proof.
  unfold is_enabled, _get_service_url in Henabled.
  now rewrite Hurl in Henabled.
Qed.

(** C3, as amended. When the service is configured, the call takes the
    fetcher path and the remote call fails in a way that the code tells
    apart (a status other than 200, [success] false or missing, a body that
    is not a JSON object, a transport error or a timeout), [get_clearance]
    and [get_cache] return [None]; the only thing done to the manager after
    the reply is the reset of the refreshing flag, so the cached entry is
    the one held when the reply arrived and every lookup answers as it did
    then. *)
Theorem failed_fetch_keeps_cache browser proxy force env i w :
  fetcher_path cfg w browser proxy force = true ->
  remote_failed
    (reply (env i) (AHttpPost (request_of cfg service_url browser proxy)))
    = true ->
  let wr := interfere (env i) (with_refreshing w true) in
  run localtime_ok (get_clearance cfg browser proxy force) env i w =
    (Return None, with_refreshing wr false,
     failed_fetch_trace cfg service_url browser proxy force) /\
  run localtime_ok (get_cache cfg browser proxy force) env i w =
    (Return None, with_refreshing wr false,
     failed_fetch_trace cfg service_url browser proxy force) /\
  CFClearanceCacheManager._cache (manager (with_refreshing wr false)) =
    CFClearanceCacheManager._cache (manager wr) /\
  (forall b p, lookup (with_refreshing wr false) b p = lookup wr b p).
Proof.
  intros P F wr. apply (fetcher_path_inv cfg) in P as [H R].
  pose proof enabled_truthy as T.
  repeat split.
  - rewrite run_get_clearance_to_miss by exact H.
    rewrite run_get_clearance_miss_fetcher by exact R.
    rewrite run_bind.
    rewrite (run_fetch_failed localtime_ok cfg service_url Hurl T
               browser proxy env i _ F).
    unfold failed_fetch_trace, first_checks. cbn.
    now rewrite <- app_assoc.
  - rewrite run_get_cache_to_miss by exact H.
    rewrite run_get_cache_miss_fetcher by exact R.
    rewrite run_bind.
    rewrite (run_fetch_failed localtime_ok cfg service_url Hurl T
               browser proxy env i _ F).
    unfold failed_fetch_trace, first_checks. cbn.
    now rewrite <- app_assoc.
Qed.

End FailedFetch.

(** ** The two entry points side by side *)

Section Agree.

Import CFClearanceService.

Variable localtime_ok : Number -> bool.
Variable cfg : Config.

Lemma run_wait_loops_agree n browser proxy env i w :
  run localtime_ok (wait_loop_clearance n browser proxy) env i w =
  map_result (option_map token_of)
    (run localtime_ok (wait_loop_cache n browser proxy) env i w).
Proof.
  revert i w. induction n as [|n IH]; intros i w; [reflexivity|].
  cbn [wait_loop_clearance wait_loop_cache sleep get_cached is_refreshing
       bind run do_call].
  destruct (reply (env i) (ASleep 1)); [|reflexivity].
  cbn [bind run do_call].
  destruct (CFClearanceCacheManager.get_cached _ _ browser proxy)
    as [[c|]|e]; [reflexivity| |reflexivity].
  cbn [bind run do_call].
  destruct (CFClearanceCacheManager.is_refreshing _); cbn [negb];
    [|reflexivity].
  rewrite IH.
  now destruct (run localtime_ok (wait_loop_cache n browser proxy) env (S i) _)
    as [[o w1] tr1].
Qed.

Lemma run_fetch_bodies_agree browser proxy env i w :
  run localtime_ok
    (cache <- fetch_from_service cfg (Some browser) proxy None None ;;
     match cache with
     | Some c => set_cache c ;; Ret (Some (CFClearanceCache.cf_clearance c))
     | None => Ret None
     end) env i w =
  map_result token_of
    (run localtime_ok
       (cache <- fetch_from_service cfg (Some browser) proxy None None ;;
        match cache with
        | Some c => set_cache c ;; Ret (Some c)
        | None => Ret None
        end) env i w).
Proof.
  rewrite !run_bind.
  destruct (run localtime_ok (fetch_from_service cfg _ _ _ _) env i w)
    as [[o w1] tr1].
  destruct o as [[c|]|e]; try reflexivity.
  cbn. now destruct (localtime_ok (CFClearanceCache.expires_at c)).
Qed.

Lemma run_miss_agree browser proxy env i w :
  run localtime_ok (get_clearance_miss cfg browser proxy) env i w =
  map_result token_of
    (run localtime_ok (get_cache_miss cfg browser proxy) env i w).
Proof.
  destruct (refreshing w) eqn:F.
  - unfold get_clearance_miss, get_cache_miss, is_refreshing.
    cbn [bind run do_call]. unfold CFClearanceCacheManager.is_refreshing.
    unfold refreshing in F. rewrite F.
    rewrite !run_bind, run_wait_loops_agree.
    destruct (run localtime_ok (wait_loop_cache 30 browser proxy) env i w)
      as [[o w1] tr1].
    destruct o as [[v|]|e]; reflexivity.
  - rewrite run_get_clearance_miss_fetcher, run_get_cache_miss_fetcher by exact F.
    rewrite run_fetch_bodies_agree.
    now destruct (run localtime_ok _ env i (with_refreshing w true))
      as [[o w1] tr1].
Qed.

Lemma run_get_agree browser proxy force env i w :
  run localtime_ok (get_clearance cfg browser proxy force) env i w =
  map_result token_of
    (run localtime_ok (get_cache cfg browser proxy force) env i w).
Proof.
  unfold get_clearance, get_cache.
  destruct force; cbn [negb].
  - apply run_miss_agree.
  - unfold get_cached. cbn [bind run do_call].
    destruct (CFClearanceCacheManager.get_cached _ _ _ _) as [[c|]|e];
      [reflexivity| |reflexivity].
    cbn [bind run]. rewrite run_miss_agree.
    now destruct (run localtime_ok (get_cache_miss cfg _ _) env i w)
      as [[o w1] tr1].
Qed.

End Agree.

(** C9. With the same configuration, arguments, world and environment,
    [get_clearance] returns the [cf_clearance] field of the entry that
    [get_cache] returns, raises what [get_cache] raises, leaves the same
    world and performs the same operations; it returns [None] exactly when
    [get_cache] does. *)
Theorem get_clearance_projects_get_cache localtime_ok cfg
    browser proxy force env i w :
  let r1 := run localtime_ok
              (CFClearanceService.get_clearance cfg browser proxy force) env i w in
  let r2 := run localtime_ok
              (CFClearanceService.get_cache cfg browser proxy force) env i w in
  outcome_of r1 = map_outcome token_of (outcome_of r2) /\
  final_world r1 = final_world r2 /\
  trace_of r1 = trace_of r2 /\
  (outcome_of r1 = Return None <-> outcome_of r2 = Return None).
Proof.
  cbv zeta. rewrite run_get_agree.
  destruct (run localtime_ok (CFClearanceService.get_cache cfg browser proxy force)
              env i w) as [[o w1] tr1].
  unfold outcome_of, final_world, trace_of. cbn.
  repeat split; try reflexivity.
  - destruct o as [[c|]|e]; cbn; congruence.
  - intros ->. reflexivity.
Qed.

(** ** The cache hit *)

(** What a call without [force_refresh] does when the lookup finds an
    entry: it ends in its first turn with what the lookup gave. *)
Lemma run_get_hit localtime_ok cfg browser proxy env i w c :
  lookup w (effective_browser cfg browser) (effective_proxy cfg proxy)
  = Some c ->
  let lookup_only :=
    [EvCall (CGetCached (effective_browser cfg browser)
                        (effective_proxy cfg proxy))] in
  let found := hit_or_raise w (Some c) in
  run localtime_ok (CFClearanceService.get_clearance cfg browser proxy false)
      env i w
    = (map_outcome token_of found, w, lookup_only) /\
  run localtime_ok (CFClearanceService.get_cache cfg browser proxy false)
      env i w
    = (found, w, lookup_only) /\
  run_atomic localtime_ok
      (CFClearanceService.get_clearance cfg browser proxy false) w
    = (Finished (map_outcome token_of found), w, lookup_only) /\
  run_atomic localtime_ok
      (CFClearanceService.get_cache cfg browser proxy false) w
    = (Finished found, w, lookup_only).
Proof.
  intro L. cbv zeta.
  unfold CFClearanceService.get_clearance, CFClearanceService.get_cache.
  fold (effective_browser cfg browser) (effective_proxy cfg proxy).
  unfold get_cached.
  cbn [negb bind run run_atomic do_call].
  rewrite get_cached_lookup, L. cbn [hit_or_raise].
  destruct (log_ok w c); repeat split.
Qed.




(** ** The waiter path *)

Lemma world_after_shift env i k w :
  world_after env (S i) k (interfere (env i) w) = world_after env i (S k) w.
Proof.
  induction k as [|k IH]; cbn [world_after].
  - now rewrite Nat.add_0_r.
  - rewrite IH. cbn [world_after]. now rewrite Nat.add_succ_r.
Qed.

Section Waiter.

Import CFClearanceService.

Variable localtime_ok : Number -> bool.
Variable cfg : Config.

(** [n] stalled turns of the loop are [n] polls, after which the loop goes
    on with its remaining turns. *)
Lemma run_wait_loop_cache_stalled n m b p env i w :
  stalled env i w b p n = true ->
  run localtime_ok (wait_loop_cache (n + m) b p) env i w =
  let '(o, w1, tr) :=
    run localtime_ok (wait_loop_cache m b p) env (i + n)
        (world_after env i n w) in
  (o, w1, (polls n b p ++ tr)%list).
Proof.
  revert i w. induction n as [|n IH]; intros i w S.
  - cbn [Nat.add world_after polls app]. rewrite Nat.add_0_r.
    now destruct (run localtime_ok _ env i w) as [[o w1] tr].
  - cbn [stalled] in S.
    cbn [Nat.add wait_loop_cache sleep get_cached is_refreshing
         bind run do_call].
    destruct (reply (env i) (ASleep 1)); [|discriminate].
    cbn [bind run do_call].
    destruct (CFClearanceCacheManager.get_cached _ _ b p) as [[c|]|e];
      [discriminate| |discriminate].
    apply andb_prop in S as [F S].
    cbn [bind run do_call]. unfold CFClearanceCacheManager.is_refreshing.
    rewrite F. cbn [negb]. rewrite (IH _ _ S).
    rewrite world_after_shift, Nat.add_succ_r. cbn [Nat.add].
    now destruct (run localtime_ok _ env _ _) as [[o w1] tr].
Qed.

(** The turn that ends the loop early: a hit, or a miss with the flag down. *)
Lemma run_wait_loop_cache_last m b p env i w :
  let w1 := interfere (env i) w in
  reply (env i) (ASleep 1) = Woke ->
  lookup w1 b p <> None \/ refreshing w1 = false ->
  run localtime_ok (wait_loop_cache (S m) b p) env i w =
  (map_outcome (option_map Some) (hit_or_raise w1 (lookup w1 b p)), w1,
   last_poll b p (lookup w1 b p)).
Proof.
  intros w1 K D.
  cbn [wait_loop_cache sleep get_cached is_refreshing bind run do_call].
  rewrite K. cbn [bind run do_call]. fold w1. rewrite get_cached_lookup.
  destruct (lookup w1 b p) as [c|]; cbn [hit_or_raise].
  - destruct (log_ok w1 c); reflexivity.
  - destruct D as [D|D]; [congruence|].
    cbn [bind run do_call]. unfold CFClearanceCacheManager.is_refreshing.
    unfold refreshing in D. rewrite D. reflexivity.
Qed.

Lemma run_get_cache_waiter browser proxy force env i w :
  waiter_path cfg w browser proxy force = true ->
  run localtime_ok (get_cache cfg browser proxy force) env i w =
  let '(o, w1, tr) :=
    run localtime_ok
      (wait_loop_cache 30 (effective_browser cfg browser)
                       (effective_proxy cfg proxy)) env i w in
  (match o with
   | Return (Some v) => Return v
   | Return None => Return None
   | Raise e => Raise e
   end, w1, (first_checks cfg browser proxy force ++ tr)%list).
Proof.
  intro P. apply waiter_path_inv in P as [H F].
  rewrite run_get_cache_to_miss by exact H.
  unfold get_cache_miss, is_refreshing, first_checks.
  cbn [bind run do_call]. unfold CFClearanceCacheManager.is_refreshing.
  unfold refreshing in F. rewrite F. rewrite run_bind.
  destruct (run localtime_ok (wait_loop_cache 30 _ _) env i w) as [[o w1] tr].
  destruct o as [[v|]|e]; cbn [run]; rewrite ?app_nil_r, <- ?app_assoc;
    reflexivity.
Qed.

End Waiter.

(** C5. A call on the waiter path that, at each of its next 30 resumptions,
    wakes up to find no entry valid for its context and the refreshing flag
    still set, performs exactly 30 turns of [sleep(1)], lookup, flag read,
    and then returns [None]. *)
Theorem waiter_gives_up_after_30 localtime_ok cfg browser proxy force env i w :
  waiter_path cfg w browser proxy force = true ->
  stalled env i w (effective_browser cfg browser) (effective_proxy cfg proxy)
          30 = true ->
  let tr := (first_checks cfg browser proxy force ++
             polls 30 (effective_browser cfg browser)
                      (effective_proxy cfg proxy))%list in
  run localtime_ok (CFClearanceService.get_clearance cfg browser proxy force)
      env i w = (Return None, world_after env i 30 w, tr) /\
  run localtime_ok (CFClearanceService.get_cache cfg browser proxy force)
      env i w = (Return None, world_after env i 30 w, tr) /\
  awaits tr = 30%nat.
Proof.
  intros P S tr.
  assert (G : run localtime_ok
                (CFClearanceService.get_cache cfg browser proxy force) env i w
              = (Return None, world_after env i 30 w, tr)).
  { rewrite run_get_cache_waiter by exact P.
    change 30%nat with (30 + 0)%nat at 1.
    rewrite run_wait_loop_cache_stalled by exact S.
    cbn [CFClearanceService.wait_loop_cache run]. now rewrite app_nil_r. }
  split; [|split].
  - rewrite run_get_agree, G. reflexivity.
  - exact G.
  - unfold tr, first_checks. now destruct force.
Qed.

(** C6, as the code has it. In a turn of the wait loop the lookup comes
    first and the flag is read after it, on the same state. A call on the
    waiter path that stalls for [k < 30] turns and then wakes up to an entry
    valid for its context, with an expiry whose remaining lifetime the
    lookup can write in its log line, returns it, whatever the flag; if it
    wakes up to no such entry and to a cleared flag it leaves the loop and
    returns [None], and the flag read is its last operation: no lookup
    follows it. *)
Theorem waiter_last_turn localtime_ok cfg browser proxy force env i w k :
  waiter_path cfg w browser proxy force = true ->
  (k < 30)%nat ->
  stalled env i w (effective_browser cfg browser) (effective_proxy cfg proxy)
          k = true ->
  let b := effective_browser cfg browser in
  let p := effective_proxy cfg proxy in
  let wk := interfere (env (i + k)%nat) (world_after env i k w) in
  reply (env (i + k)%nat) (ASleep 1) = Woke ->
  lookup wk b p <> None \/ refreshing wk = false ->
  (forall c, lookup wk b p = Some c -> log_ok wk c = true) ->
  let tr := (first_checks cfg browser proxy force ++ polls k b p ++
             last_poll b p (lookup wk b p))%list in
  run localtime_ok (CFClearanceService.get_cache cfg browser proxy force)
      env i w = (Return (lookup wk b p), wk, tr) /\
  run localtime_ok (CFClearanceService.get_clearance cfg browser proxy force)
      env i w = (Return (token_of (lookup wk b p)), wk, tr) /\
  (lookup wk b p = None -> ends_with_lookup tr = false).
Proof.
  intros P K St b p wk W D Lg tr.
  assert (G : run localtime_ok
                (CFClearanceService.get_cache cfg browser proxy force) env i w
              = (Return (lookup wk b p), wk, tr)).
  { rewrite run_get_cache_waiter by exact P.
    replace 30%nat with (k + S (29 - k))%nat by lia.
    rewrite run_wait_loop_cache_stalled by exact St.
    rewrite run_wait_loop_cache_last by assumption.
    fold wk b p. unfold tr.
    destruct (lookup wk b p) as [c|] eqn:L; cbn [hit_or_raise];
      [rewrite (Lg c eq_refl)|]; reflexivity. }
  split; [exact G|split].
  - rewrite run_get_agree, G. reflexivity.
  - intro N. unfold tr, ends_with_lookup, last_poll. rewrite N.
    rewrite !app_assoc, last_last. reflexivity.
Qed.

(** C6, as the spec has it, fails: here the waiter wakes up to a cleared flag
    and an empty cache, reads the flag and returns [None] at once. Its last
    operation is the flag read, not a lookup. *)
Lemma waiter_break_without_final_check :
  let w := sample_world None true 1000 in
  let r := run always_ok
               (CFClearanceService.get_clearance sample_cfg None None false)
               fetcher_gives_up 0 w in
  waiter_path sample_cfg w None None false = true /\
  refreshing (interfere (fetcher_gives_up 0%nat) w) = false /\
  outcome_of r = Return None /\
  trace_of r = [EvCall (CGetCached "chrome136" None); EvCall CIsRefreshing;
                EvAwait (ASleep 1);
                EvCall (CGetCached "chrome136" None); EvCall CIsRefreshing] /\
  ends_with_lookup (trace_of r) = false.
Proof. repeat split. Qed.

(** ** The status endpoint *)

Lemma length_take (n : nat) (s : string) :
  String.length (take n s) = Nat.min n (String.length s).
Proof.
  unfold take. revert n. induction s as [|c s IH]; intros [|n]; cbn; auto.
Qed.

Lemma take_all (n : nat) (s : string) :
  (String.length s <= n)%nat -> take n s = s.
Proof.
  unfold take. revert n. induction s as [|c s IH]; intros [|n] L; cbn in *;
    try reflexivity; try lia.
  f_equal. apply IH. lia.
Qed.

Lemma length_append (s1 s2 : string) :
  String.length (s1 ++ s2) = (String.length s1 + String.length s2)%nat.
Proof.
  induction s1 as [|c s1 IH]; cbn; auto.
Qed.

Section Status.

Import CFClearanceService.

Variable localtime_ok : Number -> bool.
Variable cfg : Config.

Lemma run_get_cf_status_enabled env i w :
  is_enabled cfg = true ->
  run localtime_ok (AdminApi.get_cf_status cfg) env i w =
  map_result (status_response cfg)
    (run localtime_ok (get_cache cfg None None false) env i w).
Proof.
  intro E. unfold AdminApi.get_cf_status. rewrite E, !run_bind.
  destruct (run localtime_ok (get_cache cfg None None false) env i w)
    as [[o w1] tr1].
  destruct o as [[c|]|e]; cbn; unfold status_response;
    rewrite ?E, ?app_nil_r; reflexivity.
Qed.

Lemma run_get_cf_status_disabled env i w :
  is_enabled cfg = false ->
  run localtime_ok (AdminApi.get_cf_status cfg) env i w =
  (Return (status_response cfg None), w, []).
Proof.
  intro E. unfold AdminApi.get_cf_status, status_response. rewrite E.
  reflexivity.
Qed.

(** C8, as the code has it. The cached-value field of the status response is
    absent, or it is the first 30 characters of the token of the entry that
    the call got from [get_cache], followed by three dots. It has at most 33
    characters, so it is shorter than any token of more than 33 characters;
    a token of at most 30 characters is in it in full. *)
Theorem status_preview env i w resp :
  outcome_of (run localtime_ok (AdminApi.get_cf_status cfg) env i w)
    = Return resp ->
  AdminApi.cached_clearance resp = None \/
  exists c,
    outcome_of (run localtime_ok (get_cache cfg None None false) env i w)
      = Return (Some c) /\
    let token := CFClearanceCache.cf_clearance c in
    let field := take 30 token ++ "..." in
    AdminApi.cached_clearance resp = Some field /\
    (String.length field <= 33)%nat /\
    ((33 < String.length token)%nat ->
     (String.length field < String.length token)%nat) /\
    ((String.length token <= 30)%nat -> field = token ++ "...").
Proof.
  destruct (is_enabled cfg) eqn:E.
  2:{ rewrite run_get_cf_status_disabled by exact E. cbn.
      intros [= <-]. now left. }
  rewrite run_get_cf_status_enabled by exact E.
  destruct (run localtime_ok (get_cache cfg None None false) env i w)
    as [[o w1] tr1].
  destruct o as [[c|]|e]; cbn; intros [= <-]; cbn.
  2:{ now left. }
  unfold AdminApi.preview.
  destruct (truthy_str (CFClearanceCache.cf_clearance c)); [|now left].
  right. exists c. split; [reflexivity|].
  cbv zeta. rewrite length_append, length_take. cbn [String.length].
  repeat split; try lia.
  intro L. now rewrite take_all.
Qed.

End Status.

(** C8, as the spec has it, fails: with the 8-character token of the spec's
    own example in the cache, the status response carries the whole token in
    front of the three dots. *)
Lemma status_shows_short_token :
  let w := sample_world (Some (sample_entry "abcd1234" 5000)) false 1000 in
  let r := run always_ok (AdminApi.get_cf_status sample_cfg)
               (quiet (HttpRaised TimeoutException)) 0 w in
  outcome_of r =
    Return {| AdminApi.enabled := true;
              AdminApi.service_url := Some "http://cf-service:8080/";
              AdminApi.has_cache := true;
              AdminApi.cached_clearance := Some "abcd1234..." |} /\
  String.prefix "abcd1234" "abcd1234..." = true.
Proof. split; reflexivity. Qed.

(** ** A fetch that succeeds *)

Section Fetched.

Import CFClearanceService.

Variable localtime_ok : Number -> bool.
Variable cfg : Config.
Variable service_url : string.
Hypothesis Hurl : cf_clearance_service_url cfg = Some service_url.
Hypothesis Henabled : is_enabled cfg = true.

Lemma run_get_cache_fetched browser proxy force env i w data :
  fetcher_path cfg w browser proxy force = true ->
  remote_success
    (reply (env i) (AHttpPost (request_of cfg service_url browser proxy)))
    = Some data ->
  let c := entry_of_payload data (effective_browser cfg browser)
                            (effective_proxy cfg proxy) in
  let wr := interfere (env i) (with_refreshing w true) in
  run localtime_ok (get_cache cfg browser proxy force) env i w =
  (if localtime_ok (CFClearanceCache.expires_at c) then Return (Some c)
   else Raise OtherException,
   with_refreshing (with_cache wr c) false,
   fetched_trace cfg service_url browser proxy force c).
Proof.
  intros P F c wr. apply (fetcher_path_inv cfg) in P as [H R].
  pose proof (enabled_truthy cfg service_url Hurl Henabled) as T.
  rewrite run_get_cache_to_miss by exact H.
  rewrite run_get_cache_miss_fetcher by exact R.
  rewrite run_bind.
  rewrite (run_fetch_success localtime_ok cfg service_url Hurl T
             browser proxy env i _ data F).
  fold c wr. unfold fetched_trace, first_checks, set_cache.
  cbn [bind run do_call CFClearanceCacheManager.set_cache].
  destruct (localtime_ok (CFClearanceCache.expires_at c));
    cbn; rewrite <- app_assoc; reflexivity.
Qed.

Lemma run_get_cache_fetcher_trace browser proxy force env i w :
  fetcher_path cfg w browser proxy force = true ->
  exists rest,
    trace_of (run localtime_ok (get_cache cfg browser proxy force) env i w) =
    (first_checks cfg browser proxy force ++
     EvCall (CSetRefreshing true) ::
     EvAwait (AHttpPost (request_of cfg service_url browser proxy)) :: rest)%list.
Proof.
  intros P. apply (fetcher_path_inv cfg) in P as [H R].
  pose proof (enabled_truthy cfg service_url Hurl Henabled) as T.
  rewrite run_get_cache_to_miss by exact H.
  rewrite run_get_cache_miss_fetcher by exact R.
  rewrite run_bind.
  rewrite (run_fetch_raw localtime_ok cfg service_url Hurl T browser proxy).
  unfold first_checks.
  match goal with |- context [match ?o with Return _ => _ | Raise _ => _ end] =>
    destruct o as [[c|]|e] end.
  - cbn [app Nat.add awaits].
    destruct (run localtime_ok _ env _ _) as [[o2 w2] tr2].
    eexists. unfold trace_of. cbn. rewrite <- app_assoc. reflexivity.
  - eexists. unfold trace_of. cbn. rewrite <- app_assoc. reflexivity.
  - eexists. unfold trace_of. cbn. rewrite <- app_assoc. reflexivity.
Qed.

(** C10. A status call made while the service is configured, no entry
    valid for the default context is cached and no refresh is in flight sets
    the refreshing flag and sends the request to the remote service itself.
    When the reply carries a credential, the entry built from it is in the
    cache at the end of the call, written by [set_cache] before the flag is
    cleared, and the response (when the log line of [set_cache] does not
    raise) reports that entry. *)
Theorem status_fetches_and_caches env i w :
  lookup w (effective_browser cfg None) (effective_proxy cfg None) = None ->
  refreshing w = false ->
  let r := run localtime_ok (AdminApi.get_cf_status cfg) env i w in
  let req := request_of cfg service_url None None in
  (exists rest,
     trace_of r = (first_checks cfg None None false ++
                   EvCall (CSetRefreshing true) ::
                   EvAwait (AHttpPost req) :: rest)%list) /\
  (forall data,
     remote_success (reply (env i) (AHttpPost req)) = Some data ->
     let c := entry_of_payload data (effective_browser cfg None)
                               (effective_proxy cfg None) in
     CFClearanceCacheManager._cache (manager (final_world r)) = Some c /\
     trace_of r = fetched_trace cfg service_url None None false c /\
     (localtime_ok (CFClearanceCache.expires_at c) = true ->
      outcome_of r = Return (status_response cfg (Some c)))).
Proof.
  intros L R r req.
  assert (P : fetcher_path cfg w None None false = true).
  { unfold fetcher_path, cache_hit. now rewrite L, R. }
  subst r req. rewrite run_get_cf_status_enabled by exact Henabled.
  split.
  - destruct (run_get_cache_fetcher_trace None None false env i w P)
      as [rest E].
    exists rest. rewrite <- E.
    now destruct (run localtime_ok (get_cache cfg None None false) env i w)
      as [[o w1] tr1].
  - intros data S c.
    rewrite (run_get_cache_fetched None None false env i w data P S).
    fold c. unfold final_world, trace_of, outcome_of. cbn.
    repeat split. intros ->. reflexivity.
Qed.

End Fetched.

(** ** One fetch at a time *)

Ltac follows_step IH H :=
  cbn in H |- *;
  repeat match goal with
         | H0 : _ /\ _ |- _ => destruct H0
         | |- _ /\ _ => split
         | |- forall _, _ => intro
         end;
  try assumption; try (apply IH; auto; fail).

Section Discipline.

Lemma follows_weaken {R} (p : Coro R) s (Q Q' : Hold -> Prop) :
  (forall s', Q s' -> Q' s') ->
  follows s p Q -> follows s p Q'.
Proof.
  intro HQ. revert s.
  induction p as [r|e|c k IH|a k IH]; intros s H; cbn in *; auto.
  - destruct c as [b p|c| | |[|]]; try destruct s; follows_step IH H.
  - destruct a as [n|req]; follows_step IH H.
Qed.

Lemma follows_bind {A B} (p : Coro A) (f : A -> Coro B) s
    (Q1 Q : Hold -> Prop) :
  follows s p Q1 ->
  (forall s', Q1 s' -> Q s') ->
  (forall s' r, Q1 s' -> follows s' (f r) Q) ->
  follows s (bind p f) Q.
Proof.
  intros H HT HR. revert s H.
  induction p as [r|e|c k IH|a k IH]; intros s H; cbn in *; auto.
  - destruct c as [b p|c| | |[|]]; try destruct s; follows_step IH H.
  - destruct a as [n|req]; follows_step IH H.
Qed.

Lemma follows_try_finally {R} (body : Coro R) (fin : Coro unit) s
    (Q1 Q : Hold -> Prop) :
  follows s body Q1 ->
  (forall s', Q1 s' -> follows s' fin Q) ->
  follows s (try_finally body fin) Q.
Proof.
  intros H HF. revert s H.
  induction body as [r|e|c k IH|a k IH]; intros s H; cbn in *.
  - apply follows_bind with (Q1 := Q); auto.
  - apply follows_bind with (Q1 := Q); auto.
  - destruct c as [b p|c| | |[|]]; try destruct s; follows_step IH H.
  - destruct a as [n|req]; follows_step IH H.
Qed.

Lemma follows_try_except {R} (body : Coro R) (handler : Exn -> Coro R) s
    (Q : Hold -> Prop) :
  follows s body Q ->
  (forall s' e, Q s' -> follows s' (handler e) Q) ->
  follows s (try_except body handler) Q.
Proof.
  intros H HF. revert s H.
  induction body as [r|e|c k IH|a k IH]; intros s H; cbn in *; auto.
  - destruct (is_Exception e); cbn; auto.
  - destruct c as [b p|c| | |[|]]; try destruct s; follows_step IH H.
  - destruct a as [n|req]; follows_step IH H.
Qed.

Import CFClearanceService.

Variable cfg : Config.

Lemma follows_fetch_from_service browser proxy user_agent timeout :
  follows Holding (fetch_from_service cfg browser proxy user_agent timeout)
          (eq Holding).
Proof.
  unfold fetch_from_service.
  destruct (_get_service_url cfg) as [u|]; [|reflexivity].
  destruct (truthy_str u); cbn [negb]; [|reflexivity].
  apply follows_try_except.
  - cbn. split; [reflexivity|]. intros [response|e]; cbn; [|reflexivity].
    destruct (status_code response =? 200); cbn; [|reflexivity].
    destruct (body response) as [| |data]; cbn; try reflexivity.
    destruct (dict_get (p_success data) false); reflexivity.
  - intros s' e <-. destruct e; reflexivity.
Qed.

Lemma follows_wait_loop_clearance n browser proxy :
  follows Unknown (wait_loop_clearance n browser proxy) released.
Proof.
  induction n as [|n IH]; cbn; [discriminate|].
  intros [|]; cbn; [|discriminate].
  intros [[c|]|e]; cbn; [discriminate| |discriminate].
  split; [discriminate|exact IH].
Qed.

Lemma follows_wait_loop_cache n browser proxy :
  follows Unknown (wait_loop_cache n browser proxy) released.
Proof.
  induction n as [|n IH]; cbn; [discriminate|].
  intros [|]; cbn; [|discriminate].
  intros [[c|]|e]; cbn; [discriminate| |discriminate].
  split; [discriminate|exact IH].
Qed.

Lemma follows_get_clearance_miss browser proxy :
  follows Unknown (get_clearance_miss cfg browser proxy) released.
Proof.
  unfold get_clearance_miss. cbn [is_refreshing bind follows]. split.
  - cbn. split; [reflexivity|].
    apply follows_try_finally with (Q1 := eq Holding).
    + eapply follows_bind; [apply follows_fetch_from_service|auto|].
      intros s' [c|] <-; cbn; [|reflexivity].
      intros [e|]; reflexivity.
    + intros s' <-. cbn. split; [reflexivity|discriminate].
  - eapply follows_bind; [apply follows_wait_loop_clearance|auto|].
    intros s' [v|] H; exact H.
Qed.

Lemma follows_get_cache_miss browser proxy :
  follows Unknown (get_cache_miss cfg browser proxy) released.
Proof.
  unfold get_cache_miss. cbn [is_refreshing bind follows]. split.
  - cbn. split; [reflexivity|].
    apply follows_try_finally with (Q1 := eq Holding).
    + eapply follows_bind; [apply follows_fetch_from_service|auto|].
      intros s' [c|] <-; cbn; [|reflexivity].
      intros [e|]; reflexivity.
    + intros s' <-. cbn. split; [reflexivity|discriminate].
  - eapply follows_bind; [apply follows_wait_loop_cache|auto|].
    intros s' [v|] H; exact H.
Qed.

Lemma follows_get_clearance browser proxy force :
  follows Unknown (get_clearance cfg browser proxy force) released.
Proof.
  unfold get_clearance. destruct force; cbn [negb].
  - apply follows_get_clearance_miss.
  - cbn. intros [[c|]|e]; cbn;
      [discriminate|apply follows_get_clearance_miss|discriminate].
Qed.

Lemma follows_get_cache browser proxy force :
  follows Unknown (get_cache cfg browser proxy force) released.
Proof.
  unfold get_cache. destruct force; cbn [negb].
  - apply follows_get_cache_miss.
  - cbn. intros [[c|]|e]; cbn;
      [discriminate|apply follows_get_cache_miss|discriminate].
Qed.

Lemma follows_get_cf_status :
  follows Unknown (AdminApi.get_cf_status cfg) released.
Proof.
  unfold AdminApi.get_cf_status.
  eapply follows_bind with (Q1 := released); auto.
  destruct (is_enabled cfg); [|discriminate].
  eapply follows_bind; [apply follows_get_cache|auto|].
  intros s' [c|] H; exact H.
Qed.

Lemma follows_refresh_cf force :
  follows Unknown (AdminApi.refresh_cf cfg force) released.
Proof.
  unfold AdminApi.refresh_cf.
  destruct (is_enabled cfg); cbn [negb]; [|discriminate].
  eapply follows_bind with (Q1 := eq Unknown).
  - destruct force; cbn; reflexivity.
  - intros s' <-. discriminate.
  - intros s' _ <-.
    eapply follows_bind; [apply follows_get_clearance|auto|].
    intros s' [token|] H; [destruct (truthy_str token)|]; exact H.
Qed.

Lemma follows_ensure_cf_clearance :
  follows Unknown (Integration.ensure_cf_clearance cfg) released.
Proof.
  unfold Integration.ensure_cf_clearance.
  destruct (is_enabled cfg); [|discriminate].
  eapply follows_bind; [apply follows_get_clearance|auto|].
  intros s' r H. destruct (truthy r); exact H.
Qed.

Lemma follows_refresh_cf_clearance :
  follows Unknown (Integration.refresh_cf_clearance cfg) released.
Proof.
  unfold Integration.refresh_cf_clearance.
  destruct (is_enabled cfg); [|discriminate].
  eapply follows_bind; [apply follows_get_clearance|auto|].
  intros s' r H. destruct (truthy r); exact H.
Qed.

Lemma task_ok_request (r : Request) : task_ok false (task_of_request cfg r).
Proof.
  destruct r; cbn; (split; [reflexivity|]).
  - apply follows_get_clearance.
  - apply follows_get_cache.
  - cbn. discriminate.
  - apply follows_get_cf_status.
  - apply follows_refresh_cf.
  - cbn. discriminate.
  - apply follows_ensure_cf_clearance.
  - apply follows_refresh_cf_clearance.
  - unfold Integration.handle_403_refresh.
    destruct (is_enabled cfg); cbn; discriminate.
  - cbn. intros [x|e]; discriminate.
Qed.

End Discipline.

Section OneFetch.

Import CFClearanceService.

Variable localtime_ok : Number -> bool.
Variable cfg : Config.

(** A turn of code that follows the discipline keeps the flag consistent
    with who holds it. *)
Lemma run_atomic_follows {R} (p : Coro R) (Q : Hold -> Prop) other :
  forall s w su w' tr,
  follows s p Q ->
  consistent s (refreshing w) other ->
  run_atomic localtime_ok p w = (su, w', tr) ->
  exists s', consistent s' (refreshing w') other /\ turn_end Q s' su.
Proof.
  induction p as [r|e|c k IH|a k IH]; intros s w su w' tr F C E.
  - cbn in E. injection E as <- <- <-. now exists s.
  - cbn in E. injection E as <- <- <-. now exists s.
  - cbn [run_atomic] in E.
    destruct (do_call localtime_ok c w) as [x w1] eqn:D.
    destruct (run_atomic localtime_ok (k x) w1) as [[su1 w2] tr1] eqn:E1.
    injection E as <- <- <-.
    destruct c as [b p|c| | |v]; cbn in D, F.
    + injection D as <- <-. eapply IH; [apply F| |exact E1]. exact C.
    + injection D as <- <-. eapply IH; [apply F| |exact E1]. exact C.
    + injection D as <- <-. eapply IH; [apply F| |exact E1]. exact C.
    + injection D as <- <-.
      unfold CFClearanceCacheManager.is_refreshing in E1.
      fold (refreshing w) in E1.
      destruct s; cbn in C.
      * destruct C as [C1 C2]. rewrite C1 in E1.
        eapply IH; [exact F| |exact E1]. cbn. auto.
      * destruct C as [C1 C2], F as [F1 F2]. rewrite C1 in E1.
        eapply IH; [exact F1| |exact E1]. cbn. auto.
      * destruct F as [F1 F2]. destruct (refreshing w) eqn:Fl.
        -- eapply IH; [exact F2| |exact E1]. cbn. now rewrite Fl.
        -- eapply IH; [exact F1| |exact E1]. cbn. now rewrite Fl.
    + injection D as <- <-.
      destruct v; destruct F as [-> F]; cbn in C; destruct C as [C1 C2].
      * eapply IH; [exact F| |exact E1]. cbn. auto.
      * eapply IH; [exact F| |exact E1]. cbn. auto.
  - cbn in E. injection E as <- <- <-. exists s. split; [exact C|].
    destruct a; exact F.
Qed.

Lemma count_true_app (h1 h2 : list bool) :
  count_true (h1 ++ h2) = (count_true h1 + count_true h2)%nat.
Proof.
  induction h1 as [|[|] h1 IH]; cbn; auto.
Qed.

Lemma set_task_app (l1 l2 : list Task) (t t' : Task) :
  set_task (List.length l1) t' (l1 ++ t :: l2) = (l1 ++ t' :: l2)%list.
Proof.
  induction l1 as [|x l1 IH]; cbn; [reflexivity|]. now rewrite IH.
Qed.

Lemma turn_preserves {R} (p : Coro R) h h1 h2 l1 l2 w su w' tr :
  Forall2 task_ok h1 l1 ->
  Forall2 task_ok h2 l2 ->
  count_true (h1 ++ h :: h2) = (if refreshing w then 1%nat else 0%nat) ->
  turn_start h p ->
  run_atomic localtime_ok p w = (su, w', tr) ->
  flag_invariant {| world := w'; tasks := l1 ++ task_of_susp su :: l2 |}.
Proof.
  intros A1 A2 N T E.
  rewrite count_true_app in N. cbn [count_true] in N.
  set (others := (count_true h1 + count_true h2)%nat).
  assert (C : consistent (if h then Holding else Unknown) (refreshing w)
                         (0 <? others)%nat /\ (others <= 1)%nat).
  { unfold others. destruct h, (refreshing w); cbn in N |- *;
      destruct (count_true h1 + count_true h2)%nat eqn:O; cbn;
      repeat split; first [reflexivity | lia | exfalso; lia]. }
  destruct C as [C B].
  destruct (run_atomic_follows p released _ _ _ _ _ _ T C E) as (s' & C' & TE).
  exists (h1 ++ (match s' with Holding => true | _ => false end) :: h2)%list.
  cbn [world tasks]. split.
  - apply Forall2_app; [exact A1|]. constructor; [|exact A2].
    destruct su as [o|a k]; cbn in TE |- *.
    + destruct s'; auto. now contradiction TE.
    + destruct a; cbn in TE |- *.
      * destruct s'; exact TE.
      * destruct TE as [-> TE]. auto.
  - rewrite count_true_app. unfold others in *. clear N C T E TE.
    destruct (count_true h1 + count_true h2)%nat as [|n] eqn:O;
      destruct s'; cbn in C' |- *; destruct (refreshing w');
      first [lia | exfalso; destruct C'; discriminate | exfalso; discriminate].
Qed.

Lemma split_task hs ts i t :
  Forall2 task_ok hs ts ->
  nth_error ts i = Some t ->
  exists h1 h h2 l1 l2,
    hs = (h1 ++ h :: h2)%list /\ ts = (l1 ++ t :: l2)%list /\
    List.length l1 = i /\
    Forall2 task_ok h1 l1 /\ task_ok h t /\ Forall2 task_ok h2 l2.
Proof.
  intros A N. apply nth_error_split in N as (l1 & l2 & -> & L).
  apply Forall2_app_inv_r in A as (h1 & hr & A1 & A2 & ->).
  inversion A2 as [|h t' h2 l2' T A3]; subst.
  exists h1, h, h2, l1, l2. repeat split; auto.
Qed.

Lemma step_preserves s s' :
  flag_invariant s -> step localtime_ok cfg s s' -> flag_invariant s'.
Proof.
  intros (hs & A & N) St.
  destruct St as [s r|s i R p su w tr Hn E|s i R a k x su w tr Hn E|s d D].
  - exists (hs ++ [false])%list. cbn [world tasks]. split.
    + apply Forall2_app; [exact A|]. constructor; [|constructor].
      apply task_ok_request.
    + rewrite count_true_app. cbn. now rewrite Nat.add_0_r.
  - destruct (split_task _ _ _ _ A Hn)
      as (h1 & h & h2 & l1 & l2 & -> & Ts & <- & A1 & T & A2).
    rewrite Ts, set_task_app. destruct T as [-> T].
    eapply turn_preserves; eauto.
  - destruct (split_task _ _ _ _ A Hn)
      as (h1 & h & h2 & l1 & l2 & -> & Ts & <- & A1 & T & A2).
    rewrite Ts, set_task_app.
    destruct a as [n|req]; cbn in T.
    + eapply turn_preserves; eauto. apply T.
    + destruct T as [-> T]. eapply turn_preserves; eauto. apply T.
  - exists hs. cbn [world tasks]. split; [exact A|exact N].
Qed.

Lemma reachable_flag_invariant s :
  reachable localtime_ok cfg s -> flag_invariant s.
Proof.
  induction 1 as [now|s s' _ IH St].
  - exists []. split; [constructor|reflexivity].
  - eapply step_preserves; eauto.
Qed.

Lemma fetching_holds hs ts :
  Forall2 task_ok hs ts ->
  (List.length (filter fetching ts) <= count_true hs)%nat.
Proof.
  induction 1 as [|h t hs ts T _ IH]; cbn; [lia|].
  destruct t as [R p|R a k|R o]; cbn in T |- *.
  - destruct T as [-> _]. exact IH.
  - destruct a as [n|req]; cbn.
    + destruct h; lia.
    + destruct T as [-> _]. cbn. lia.
  - rewrite T. exact IH.
Qed.

(** A call that starts while the flag is up ends its first turn with a hit,
    or asleep in the wait loop; it changes nothing. *)
Lemma run_atomic_get_cache_flag_up browser proxy force w :
  refreshing w = true ->
  exists su tr,
    run_atomic localtime_ok (get_cache cfg browser proxy force) w = (su, w, tr) /\
    match cache_hit cfg w browser proxy force with
    | Some c => su = Finished (hit_or_raise w (Some c))
    | None => exists k, su = Suspended (ASleep 1) k
    end.
Proof.
  intro F. unfold get_cache, cache_hit. cbv zeta.
  fold (effective_browser cfg browser) (effective_proxy cfg proxy).
  assert (M : forall b p, exists k tr,
    run_atomic localtime_ok (get_cache_miss cfg b p) w =
    (Suspended (ASleep 1) k, w, tr)).
  { intros b p. unfold get_cache_miss, is_refreshing.
    cbn [bind run_atomic do_call].
    unfold CFClearanceCacheManager.is_refreshing. unfold refreshing in F.
    rewrite F. change 30%nat with (S 29).
    cbn [wait_loop_cache sleep bind run_atomic]. eauto. }
  destruct force; cbn [negb].
  - destruct (M (effective_browser cfg browser) (effective_proxy cfg proxy))
      as (k & tr & E). rewrite E. eauto.
  - unfold get_cached. cbn [bind run_atomic do_call].
    rewrite get_cached_lookup.
    destruct (lookup w _ _) as [c|]; cbn [hit_or_raise].
    + destruct (log_ok w c); cbn; eauto.
    + destruct (M (effective_browser cfg browser) (effective_proxy cfg proxy))
        as (k & tr & E). cbn [bind run_atomic]. rewrite E. eauto.
Qed.

Lemma run_atomic_get_clearance_flag_up browser proxy force w :
  refreshing w = true ->
  exists su tr,
    run_atomic localtime_ok (get_clearance cfg browser proxy force) w
      = (su, w, tr) /\
    match cache_hit cfg w browser proxy force with
    | Some c =>
        su = Finished (map_outcome token_of (hit_or_raise w (Some c)))
    | None => exists k, su = Suspended (ASleep 1) k
    end.
Proof.
  intro F. unfold get_clearance, cache_hit. cbv zeta.
  fold (effective_browser cfg browser) (effective_proxy cfg proxy).
  assert (M : forall b p, exists k tr,
    run_atomic localtime_ok (get_clearance_miss cfg b p) w =
    (Suspended (ASleep 1) k, w, tr)).
  { intros b p. unfold get_clearance_miss, is_refreshing.
    cbn [bind run_atomic do_call].
    unfold CFClearanceCacheManager.is_refreshing. unfold refreshing in F.
    rewrite F. change 30%nat with (S 29).
    cbn [wait_loop_clearance sleep bind run_atomic]. eauto. }
  destruct force; cbn [negb].
  - destruct (M (effective_browser cfg browser) (effective_proxy cfg proxy))
      as (k & tr & E). rewrite E. eauto.
  - unfold get_cached. cbn [bind run_atomic do_call].
    rewrite get_cached_lookup.
    destruct (lookup w _ _) as [c|]; cbn [hit_or_raise].
    + destruct (log_ok w c); cbn; eauto.
    + destruct (M (effective_browser cfg browser) (effective_proxy cfg proxy))
        as (k & tr & E). cbn [bind run_atomic]. rewrite E. eauto.
Qed.

(** A call that misses while the flag is down raises it and is parked on the
    remote call when its first turn ends. *)
Lemma run_atomic_miss_flag_down service_url browser proxy w :
  cf_clearance_service_url cfg = Some service_url ->
  truthy_str service_url = true ->
  refreshing w = false ->
  let b := effective_browser cfg browser in
  let p := effective_proxy cfg proxy in
  let tr := [EvCall CIsRefreshing; EvCall (CSetRefreshing true)] in
  (exists k,
     run_atomic localtime_ok (get_clearance_miss cfg b p) w =
     (Suspended (AHttpPost (request_of cfg service_url browser proxy)) k,
      with_refreshing w true, tr)) /\
  (exists k,
     run_atomic localtime_ok (get_cache_miss cfg b p) w =
     (Suspended (AHttpPost (request_of cfg service_url browser proxy)) k,
      with_refreshing w true, tr)).
Proof.
  intros U T F b p tr. unfold refreshing in F.
  unfold get_clearance_miss, get_cache_miss, is_refreshing, set_refreshing,
    fetch_from_service, _get_service_url, post.
  rewrite U, T.
  cbn [negb bind try_finally try_except run_atomic do_call].
  unfold CFClearanceCacheManager.is_refreshing. rewrite F.
  cbn [negb bind try_finally try_except run_atomic do_call].
  split; eexists; reflexivity.
Qed.

Lemma run_atomic_get_flag_down service_url browser proxy force w :
  cf_clearance_service_url cfg = Some service_url ->
  is_enabled cfg = true ->
  fetcher_path cfg w browser proxy force = true ->
  let req := request_of cfg service_url browser proxy in
  (exists k tr,
     run_atomic localtime_ok (get_clearance cfg browser proxy force) w =
     (Suspended (AHttpPost req) k, with_refreshing w true, tr)) /\
  (exists k tr,
     run_atomic localtime_ok (get_cache cfg browser proxy force) w =
     (Suspended (AHttpPost req) k, with_refreshing w true, tr)).
Proof.
  intros U E P req. apply fetcher_path_inv in P as [H F].
  pose proof (enabled_truthy cfg service_url U E) as T.
  destruct (run_atomic_miss_flag_down service_url browser proxy w U T F)
    as [[k1 E1] [k2 E2]].
  unfold cache_hit in H.
  unfold get_clearance, get_cache. cbv zeta.
  fold (effective_browser cfg browser) (effective_proxy cfg proxy).
  destruct force; cbn [negb].
  - rewrite E1, E2. split; eauto.
  - unfold get_cached. cbn [bind run_atomic do_call].
    rewrite (get_cached_miss _ _ _ H). cbn [bind run_atomic].
    rewrite E1, E2. split; eauto.
Qed.

(** C1. In every state that the event loop can reach from an empty manager,
    with any requests arriving at any time and any replies and wake-ups, at
    most one task is parked on the remote call, and while one is the flag is
    up. A call of [get_clearance] or [get_cache] that starts while the flag
    is up changes nothing and ends its first turn with a cache hit or asleep
    in the wait loop, never on the remote call; one that starts while the
    flag is down and finds no valid entry raises the flag in that same turn,
    before any other task can run, and is parked on the remote call (the
    service being configured). *)
Theorem one_fetch_in_flight s :
  reachable localtime_ok cfg s ->
  (in_flight s <= 1)%nat /\
  (in_flight s = 1%nat -> refreshing (world s) = true) /\
  (forall service_url browser proxy force,
     cf_clearance_service_url cfg = Some service_url ->
     is_enabled cfg = true ->
     fetcher_path cfg (world s) browser proxy force = true ->
     let req := request_of cfg service_url browser proxy in
     (exists k tr,
        run_atomic localtime_ok (get_clearance cfg browser proxy force)
                   (world s)
        = (Suspended (AHttpPost req) k, with_refreshing (world s) true, tr)) /\
     (exists k tr,
        run_atomic localtime_ok (get_cache cfg browser proxy force) (world s)
        = (Suspended (AHttpPost req) k, with_refreshing (world s) true, tr))) /\
  (refreshing (world s) = true ->
   forall browser proxy force,
     (exists su tr,
        run_atomic localtime_ok (get_clearance cfg browser proxy force)
                   (world s) = (su, world s, tr) /\
        parked_on_fetch su = false) /\
     (exists su tr,
        run_atomic localtime_ok (get_cache cfg browser proxy force)
                   (world s) = (su, world s, tr) /\
        parked_on_fetch su = false)).
Proof.
  intro Re. destruct (reachable_flag_invariant s Re) as (hs & A & N).
  pose proof (fetching_holds hs (tasks s) A) as L. fold (in_flight s) in L.
  split; [|split; [|split]].
  - destruct (refreshing (world s)); lia.
  - intro I. destruct (refreshing (world s)); [reflexivity|lia].
  - intros u browser proxy force U E P.
    exact (run_atomic_get_flag_down u browser proxy force _ U E P).
  - intros F browser proxy force. split.
    + destruct (run_atomic_get_clearance_flag_up browser proxy force _ F)
        as (su & tr & E & M).
      exists su, tr. split; [exact E|].
      destruct (cache_hit cfg (world s) browser proxy force).
      * now subst su.
      * destruct M as [k ->]. reflexivity.
    + destruct (run_atomic_get_cache_flag_up browser proxy force _ F)
        as (su & tr & E & M).
      exists su, tr. split; [exact E|].
      destruct (cache_hit cfg (world s) browser proxy force).
      * now subst su.
      * destruct M as [k ->]. reflexivity.
Qed.

End OneFetch.

(** * The properties at work on sample runs *)

(** The entry of the spec's example: token ["abcd1234"], obtained at time
    1000 with an hour to live, looked up at time 1010. *)
Lemma is_valid_for_iff_witness :
  CFClearanceCache.is_valid_for (sample_entry "abcd1234" 0) 1010
    "chrome136" None = false /\
  (CFClearanceCache.is_valid_for (sample_entry "abcd1234" 4600) 1010
     "chrome136" None = true <->
   (CFClearanceCache.browser (sample_entry "abcd1234" 4600) = "chrome136" /\
    CFClearanceCache.proxy (sample_entry "abcd1234" 4600) = None) /\
   PyNumber.time_lt 1010
     (PyNumber.sub_int
        (CFClearanceCache.expires_at (sample_entry "abcd1234" 4600)) 300)
   = true).
Proof.
  split.
  - apply (proj1 (proj2 (proj2
             (is_valid_for_iff (sample_entry "abcd1234" 0) 1010
                               "chrome136" None)))).
    reflexivity.
  - apply (proj1 (proj2 (is_valid_for_iff (sample_entry "abcd1234" 4600) 1010
                                          "chrome136" None))).
    + reflexivity.
    + lia.
Defined.

(** A forced refresh that times out, with a valid entry in the cache: the
    call returns [None] and the entry is still served. *)
Lemma failed_fetch_keeps_cache_witness :
  let w := sample_world (Some (sample_entry "abcd1234" 4600)) false 1010 in
  let r := run always_ok
               (CFClearanceService.get_clearance sample_cfg None None true)
               (quiet (HttpRaised TimeoutException)) 0 w in
  outcome_of r = Return None /\
  lookup (final_world r) "chrome136" None
    = Some (sample_entry "abcd1234" 4600).
Proof.
  intros w r.
  destruct (failed_fetch_keeps_cache always_ok sample_cfg
              "http://cf-service:8080/" eq_refl eq_refl
              None None true (quiet (HttpRaised TimeoutException)) 0%nat w
              eq_refl eq_refl) as (H1 & _).
  unfold r. rewrite H1. split; reflexivity.
Defined.

(** C3, as the spec has it, fails for a payload that is unusable but says
    [success]: a reply with status 200 whose object holds ["success": true]
    and nothing else. The code takes it for a success. Here a valid entry is
    cached and a forced refresh gets such a reply: the call returns the
    empty string, not [None]; the valid entry is replaced by one with an
    empty token and expiry 0, and the lookup that hit before misses
    afterwards. *)
Lemma unusable_reply_replaces_entry :
  let old := sample_entry "abcd1234" 4600 in
  let w := sample_world (Some old) false 1010 in
  let data := {| p_success := Some true;
                 p_cf_clearance := None;
                 p_user_agent := None;
                 p_browser := None;
                 p_expires_at := None;
                 p_cookie_string := None;
                 p_cookies := None |} in
  let env := quiet (HttpResponse {| status_code := 200;
                                    body := JsonObject data |}) in
  let r := run always_ok
               (CFClearanceService.get_clearance sample_cfg None None true)
               env 0 w in
  lookup w "chrome136" None = Some old /\
  fetcher_path sample_cfg w None None true = true /\
  outcome_of r = Return (Some "") /\
  CFClearanceCacheManager._cache (manager (final_world r))
  = Some (CFClearanceService.entry_of_payload data "chrome136" None) /\
  lookup (final_world r) "chrome136" None = None.
Proof. repeat split. Qed.

(** A fetch that is cancelled half way: the exception escapes, the flag is
    down all the same. *)
Lemma fetcher_resets_refreshing_witness :
  let w := sample_world None false 1010 in
  let env := quiet (HttpRaised CancelledError) in
  outcome_of (run always_ok
                (CFClearanceService.get_clearance sample_cfg None None false)
                env 0 w) = Raise CancelledError /\
  refreshing (final_world
                (run always_ok
                   (CFClearanceService.get_clearance sample_cfg None None false)
                   env 0 w)) = false /\
  refreshing (final_world
                (run always_ok
                   (CFClearanceService.get_cache sample_cfg None None false)
                   env 0 w)) = false.
Proof.
  intros w env. split; [reflexivity|].
  apply (fetcher_resets_refreshing always_ok sample_cfg None None false
           env 0%nat w).
  reflexivity.
Defined.

(** A waiter whose fetcher never comes back. *)
Lemma waiter_gives_up_after_30_witness :
  let w := sample_world None true 1010 in
  let env := quiet (HttpRaised TimeoutException) in
  outcome_of (run always_ok
                (CFClearanceService.get_clearance sample_cfg None None false)
                env 0 w) = Return None /\
  clock (final_world
           (run always_ok
              (CFClearanceService.get_clearance sample_cfg None None false)
              env 0 w)) = 1040 /\
  awaits (trace_of
            (run always_ok
               (CFClearanceService.get_clearance sample_cfg None None false)
               env 0 w)) = 30%nat.
Proof.
  intros w env.
  destruct (waiter_gives_up_after_30 always_ok sample_cfg None None false
              env 0%nat w eq_refl eq_refl) as (H1 & _ & H3).
  rewrite H1. split; [reflexivity|split; [reflexivity|]].
  unfold trace_of, snd. exact H3.
Defined.

(** A waiter whose fetcher publishes an entry and clears the flag while the
    waiter sleeps: the waiter returns the entry at its first wake-up. *)
Lemma waiter_last_turn_witness :
  let w := sample_world None true 1010 in
  let env := fetcher_publishes (sample_entry "abcd1234" 4600) in
  run always_ok (CFClearanceService.get_clearance sample_cfg None None false)
      env 0 w
  = (Return (Some "abcd1234"),
     sample_world (Some (sample_entry "abcd1234" 4600)) false 1011,
     [EvCall (CGetCached "chrome136" None); EvCall CIsRefreshing;
      EvAwait (ASleep 1); EvCall (CGetCached "chrome136" None)]).
Proof.
  intros w env.
  destruct (waiter_last_turn always_ok sample_cfg None None false env
              0%nat w 0%nat eq_refl ltac:(lia) eq_refl eq_refl
              ltac:(left; discriminate)
              ltac:(intros c E; vm_compute in E; injection E as <-;
                    reflexivity)) as (_ & H2 & _).
  rewrite H2. reflexivity.
Defined.


(** The preview of a token of 40 characters. *)
Lemma status_preview_witness :
  let token := "0123456789012345678901234567890123456789" in
  let w := sample_world (Some (sample_entry token 4600)) false 1010 in
  let resp := {| AdminApi.enabled := true;
                 AdminApi.service_url := Some "http://cf-service:8080/";
                 AdminApi.has_cache := true;
                 AdminApi.cached_clearance :=
                   Some "012345678901234567890123456789..." |} in
  AdminApi.cached_clearance resp = None \/
  exists c,
    outcome_of (run always_ok
                  (CFClearanceService.get_cache sample_cfg None None false)
                  (quiet (HttpRaised TimeoutException)) 0 w)
      = Return (Some c) /\
    AdminApi.cached_clearance resp
      = Some (take 30 (CFClearanceCache.cf_clearance c) ++ "...").
Proof.
  intros token w resp.
  destruct (status_preview always_ok sample_cfg
              (quiet (HttpRaised TimeoutException)) 0%nat w resp eq_refl)
    as [H|(c & H1 & H2 & _)].
  - now left.
  - right. exists c. split; [exact H1|exact H2].
Defined.

(** The first call of the spec's example, made through the status endpoint. *)
Lemma status_fetches_and_caches_witness :
  let w := sample_world None false 1000 in
  let env := quiet (HttpResponse
                      {| status_code := 200;
                         body := JsonObject (sample_payload "abcd1234" 4600) |}) in
  let r := run always_ok (AdminApi.get_cf_status sample_cfg) env 0 w in
  CFClearanceCacheManager._cache (manager (final_world r))
    = Some (sample_entry "abcd1234" 4600) /\
  outcome_of r
    = Return {| AdminApi.enabled := true;
                AdminApi.service_url := Some "http://cf-service:8080/";
                AdminApi.has_cache := true;
                AdminApi.cached_clearance := Some "abcd1234..." |}.
Proof.
  intros w env r.
  destruct (status_fetches_and_caches always_ok sample_cfg
              "http://cf-service:8080/" eq_refl eq_refl env 0%nat w
              eq_refl eq_refl) as (_ & H).
  destruct (H (sample_payload "abcd1234" 4600) eq_refl) as (H1 & _ & H3).
  split; [exact H1|exact (H3 eq_refl)].
Defined.

(** One request at an empty manager: after its first turn it is the one
    fetch in flight. *)
Lemma after_first_turn_reachable :
  reachable always_ok sample_cfg
    (after_first_turn always_ok sample_cfg
       (ReqGetClearance None None false) 1000).
Proof.
  unfold after_first_turn. cbn [task_of_request].
  destruct (run_atomic always_ok
              (CFClearanceService.get_clearance sample_cfg None None false)
              {| manager := CFClearanceCacheManager.init; clock := 1000 |})
    as [[su w] tr] eqn:E.
  set (s0 := {| world := {| manager := CFClearanceCacheManager.init;
                            clock := 1000 |};
                tasks := [] |}).
  set (s1 := {| world := world s0;
                tasks := tasks s0 ++
                         [task_of_request sample_cfg
                            (ReqGetClearance None None false)] |}).
  apply (reachable_step always_ok sample_cfg s1).
  - apply (reachable_step always_ok sample_cfg s0).
    + apply (reachable_init always_ok sample_cfg 1000).
    + apply (step_spawn always_ok sample_cfg s0
               (ReqGetClearance None None false)).
  - exact (step_start always_ok sample_cfg s1 0%nat _ _ su w tr eq_refl E).
Defined.

Lemma one_fetch_in_flight_witness :
  let s := after_first_turn always_ok sample_cfg
             (ReqGetClearance None None false) 1000 in
  in_flight s = 1%nat /\ (in_flight s <= 1)%nat /\ refreshing (world s) = true.
Proof.
  intro s.
  destruct (one_fetch_in_flight always_ok sample_cfg s
              after_first_turn_reachable) as (H1 & H2 & _).
  assert (I : in_flight s = 1%nat) by reflexivity.
  split; [exact I|split; [exact H1|exact (H2 I)]].
Defined.

(** The URL that the sample configuration posts to. *)
Example sample_request_url :
  full_url (request_of sample_cfg "http://cf-service:8080/" None None)
  = "http://cf-service:8080/api/v1/credentials".
Proof. reflexivity. Qed.

(** The third call of the spec's example, after [now + 3301]: the entry is
    past its buffer, the call fetches again. *)
Example expired_entry_fetches_again :
  fetcher_path sample_cfg
    (sample_world (Some (sample_entry "abcd1234" 4600)) false 4301)
    None None false = true.
Proof. reflexivity. Qed.

(** * Further properties of the coordinator and of its callers *)

(** ** What a waiter does and does not do *)

Section WaiterPassive.

Import CFClearanceService.

Variable localtime_ok : Number -> bool.
Variable cfg : Config.

Lemma world_after_succ env i k w :
  world_after env i (S k) w = world_after env (S i) k (interfere (env i) w).
Proof. symmetry. apply world_after_shift. Qed.

(** Whatever the environment does, the wait loop only sleeps, looks up and
    reads the flag, at most [n] times, and what it leaves of the world is
    what the other tasks made of it. *)
Lemma run_wait_loop_cache_passive n b p env i w :
  let r := run localtime_ok (wait_loop_cache n b p) env i w in
  forallb passive (trace_of r) = true /\
  (awaits (trace_of r) <= n)%nat /\
  final_world r = world_after env i (awaits (trace_of r)) w.
Proof.
  revert i w. induction n as [|n IH]; intros i w.
  - cbn. auto.
  - cbn [wait_loop_cache sleep get_cached is_refreshing bind run do_call].
    destruct (reply (env i) (ASleep 1)).
    2:{ cbn. rewrite Nat.add_0_r. repeat split. lia. }
    cbn [bind run do_call].
    destruct (CFClearanceCacheManager.get_cached _ _ b p) as [[c|]|e].
    1,3: cbn; rewrite Nat.add_0_r; repeat split; lia.
    cbn [bind run do_call].
    destruct (CFClearanceCacheManager.is_refreshing _); cbn [negb].
    2:{ cbn. rewrite Nat.add_0_r. repeat split. lia. }
    specialize (IH (S i) (interfere (env i) w)).
    destruct (run localtime_ok (wait_loop_cache n b p) env (S i) _)
      as [[o w1] tr].
    unfold trace_of, final_world in *. cbn in *.
    destruct IH as (P & A & W). repeat split; auto; try lia.
    rewrite W. exact (world_after_shift env i (awaits tr) w).
Qed.

End WaiterPassive.

Section WaiterNeverFetches.

Import CFClearanceService.

Variable localtime_ok : Number -> bool.
Variable cfg : Config.

Lemma first_checks_passive browser proxy force :
  forallb passive (first_checks cfg browser proxy force) = true /\
  awaits (first_checks cfg browser proxy force) = 0%nat.
Proof. unfold first_checks. destruct force; split; reflexivity. Qed.

Lemma get_cache_waiter_passive browser proxy force env i w :
  waiter_path cfg w browser proxy force = true ->
  let r := run localtime_ok (get_cache cfg browser proxy force) env i w in
  forallb passive (trace_of r) = true /\
  (awaits (trace_of r) <= 30)%nat /\
  final_world r = world_after env i (awaits (trace_of r)) w.
Proof.
  intros P r. subst r.
  rewrite run_get_cache_waiter by exact P.
  pose proof (run_wait_loop_cache_passive localtime_ok 30
                (effective_browser cfg browser) (effective_proxy cfg proxy)
                env i w) as L.
  cbv zeta in L.
  destruct (run localtime_ok (wait_loop_cache 30 _ _) env i w) as [[o w1] tr].
  unfold trace_of, final_world in *. cbn in *.
  destruct L as (Pa & A & W).
  destruct (first_checks_passive browser proxy force) as (F1 & F2).
  rewrite forallb_app, awaits_app, F1, F2, Pa. cbn. auto.
Qed.

(** X1. A call that finds no valid entry while the refreshing flag is up
    never becomes a fetcher, whatever happens while it waits (also when the
    fetcher fails and clears the flag): it only sleeps, looks up the cache
    and reads the flag, sleeps at most 30 times, and changes nothing in the
    manager; what it leaves of the world is what the other tasks made of
    it. *)
Theorem waiter_never_fetches browser proxy force env i w :
  waiter_path cfg w browser proxy force = true ->
  let r := run localtime_ok (get_cache cfg browser proxy force) env i w in
  let r' := run localtime_ok (get_clearance cfg browser proxy force) env i w in
  forallb passive (trace_of r) = true /\
  (awaits (trace_of r) <= 30)%nat /\
  final_world r = world_after env i (awaits (trace_of r)) w /\
  trace_of r' = trace_of r /\
  final_world r' = final_world r.
Proof.
  intros P r r'. subst r r'.
  destruct (get_cache_waiter_passive browser proxy force env i w P)
    as (H1 & H2 & H3).
  rewrite run_get_agree.
  destruct (run localtime_ok (get_cache cfg browser proxy force) env i w)
    as [[o w1] tr].
  unfold trace_of, final_world in *. cbn in *. auto.
Qed.

End WaiterNeverFetches.

(** A waiter whose fetcher gives up: it returns [None] after one sleep and
    has not touched the flag nor the remote service. *)
Lemma waiter_never_fetches_witness :
  let w := sample_world None true 1010 in
  let r := run always_ok
               (CFClearanceService.get_cache sample_cfg None None false)
               fetcher_gives_up 0 w in
  outcome_of r = Return None /\
  forallb passive (trace_of r) = true /\
  (awaits (trace_of r) <= 30)%nat.
Proof.
  intros w r.
  destruct (waiter_never_fetches always_ok sample_cfg None None false
              fetcher_gives_up 0%nat w eq_refl) as (H1 & H2 & _).
  split; [reflexivity|split; [exact H1|exact H2]].
Defined.

(** ** The helpers of [integration.py] *)

Section IntegrationResults.

Import CFClearanceService.

Variable localtime_ok : Number -> bool.
Variable cfg : Config.

Lemma static_none_or_truthy :
  none_or_truthy (Integration.static_cf_clearance cfg) = true.
Proof.
  unfold Integration.static_cf_clearance.
  destruct (proxy_cf_clearance cfg) as [s|]; cbn; [|reflexivity].
  destruct (truthy_str s) eqn:E; cbn; [exact E|reflexivity].
Qed.

Lemma or_static_never_empty g :
  never_empty (outcome_of (or_static (Integration.static_cf_clearance cfg) g))
  = true.
Proof.
  destruct g as [[o w] tr]. unfold outcome_of. cbn.
  destruct o as [[s|]|e]; cbn; try reflexivity.
  - destruct (truthy_str s) eqn:E; [exact E|].
    pose proof static_none_or_truthy as N.
    now destruct (Integration.static_cf_clearance cfg).
  - pose proof static_none_or_truthy as N.
    now destruct (Integration.static_cf_clearance cfg).
Qed.

Lemma run_ensure_enabled env i w :
  is_enabled cfg = true ->
  run localtime_ok (Integration.ensure_cf_clearance cfg) env i w =
  or_static (Integration.static_cf_clearance cfg)
    (run localtime_ok (get_clearance cfg None None false) env i w).
Proof.
  intro E. unfold Integration.ensure_cf_clearance. rewrite E, run_bind.
  destruct (run localtime_ok (get_clearance cfg None None false) env i w)
    as [[o w1] tr].
  destruct o as [v|e]; [|reflexivity].
  unfold or_static. destruct (truthy v); cbn [run]; now rewrite app_nil_r.
Qed.

Lemma run_refresh_enabled env i w :
  is_enabled cfg = true ->
  run localtime_ok (Integration.refresh_cf_clearance cfg) env i w =
  or_static (Integration.static_cf_clearance cfg)
    (run localtime_ok (get_clearance cfg None None true) env i w).
Proof.
  intro E. unfold Integration.refresh_cf_clearance. rewrite E, run_bind.
  destruct (run localtime_ok (get_clearance cfg None None true) env i w)
    as [[o w1] tr].
  destruct o as [v|e]; [|reflexivity].
  unfold or_static. destruct (truthy v); cbn [run]; now rewrite app_nil_r.
Qed.

(** X2. [ensure_cf_clearance] and [refresh_cf_clearance] never return an
    empty string. With the service configured they return the token of
    [get_clearance] (not forced, forced) when it is non-empty and the static
    value of the configuration otherwise, with the world and the operations
    of that call; without it they return the static value and touch
    nothing. *)
Theorem integration_results env i w :
  let static := Integration.static_cf_clearance cfg in
  let ensure := run localtime_ok (Integration.ensure_cf_clearance cfg) env i w in
  let refresh := run localtime_ok (Integration.refresh_cf_clearance cfg) env i w in
  never_empty (outcome_of ensure) = true /\
  never_empty (outcome_of refresh) = true /\
  (if is_enabled cfg then
     ensure = or_static static
                (run localtime_ok (get_clearance cfg None None false) env i w) /\
     refresh = or_static static
                 (run localtime_ok (get_clearance cfg None None true) env i w)
   else ensure = (Return static, w, []) /\ refresh = (Return static, w, [])).
Proof.
  cbv zeta. destruct (is_enabled cfg) eqn:E.
  - rewrite run_ensure_enabled, run_refresh_enabled by exact E.
    repeat split; apply or_static_never_empty.
  - unfold Integration.ensure_cf_clearance, Integration.refresh_cf_clearance.
    rewrite E. cbn. unfold outcome_of. cbn.
    pose proof static_none_or_truthy as N.
    destruct (Integration.static_cf_clearance cfg); cbn in *; auto.
Qed.

End IntegrationResults.

(** ** A forced refresh from the administrative endpoint *)

Section ForcedRefresh.

Import CFClearanceService.

Variable localtime_ok : Number -> bool.
Variable cfg : Config.
Variable service_url : string.
Hypothesis Hurl : cf_clearance_service_url cfg = Some service_url.
Hypothesis Henabled : is_enabled cfg = true.

Lemma run_get_cache_failed browser proxy force env i w :
  fetcher_path cfg w browser proxy force = true ->
  remote_failed
    (reply (env i) (AHttpPost (request_of cfg service_url browser proxy)))
    = true ->
  run localtime_ok (get_cache cfg browser proxy force) env i w =
  (Return None,
   with_refreshing (interfere (env i) (with_refreshing w true)) false,
   failed_fetch_trace cfg service_url browser proxy force).
Proof.
  intros P F. apply (fetcher_path_inv cfg) in P as [H R].
  pose proof (enabled_truthy cfg service_url Hurl Henabled) as T.
  rewrite run_get_cache_to_miss by exact H.
  rewrite run_get_cache_miss_fetcher by exact R.
  rewrite run_bind.
  rewrite (run_fetch_failed localtime_ok cfg service_url Hurl T
             browser proxy env i _ F).
  unfold failed_fetch_trace, first_checks. cbn.
  now rewrite <- app_assoc.
Qed.

Lemma run_get_clearance_failed browser proxy force env i w :
  fetcher_path cfg w browser proxy force = true ->
  remote_failed
    (reply (env i) (AHttpPost (request_of cfg service_url browser proxy)))
    = true ->
  run localtime_ok (get_clearance cfg browser proxy force) env i w =
  (Return None,
   with_refreshing (interfere (env i) (with_refreshing w true)) false,
   failed_fetch_trace cfg service_url browser proxy force).
Proof.
  intros P F. rewrite run_get_agree.
  now rewrite (run_get_cache_failed browser proxy force env i w P F).
Qed.

Lemma lookup_invalidated w b p : lookup (invalidated w) b p = None.
Proof. reflexivity. Qed.

(** X3. The refresh endpoint called with [force] invalidates the cache
    before it fetches: when no refresh is in flight and the remote call
    fails, the response reports the failure and the entry that was cached
    before the call is gone, valid or not. [refresh_cf_clearance] of
    [integration.py], under the same conditions, does not invalidate: it
    returns the static value and only the flag is reset after the reply. *)
Theorem forced_refresh_failure_drops_entry env i w :
  refreshing w = false ->
  remote_failed
    (reply (env i) (AHttpPost (request_of cfg service_url None None))) = true ->
  run localtime_ok (AdminApi.refresh_cf cfg true) env i w =
    (Return AdminApi.refresh_failed,
     with_refreshing (interfere (env i) (with_refreshing (invalidated w) true))
                     false,
     EvCall CInvalidate :: failed_fetch_trace cfg service_url None None true) /\
  CFClearanceCacheManager._cache
    (manager (with_refreshing (invalidated w) true)) = None /\
  run localtime_ok (Integration.refresh_cf_clearance cfg) env i w =
    (Return (Integration.static_cf_clearance cfg),
     with_refreshing (interfere (env i) (with_refreshing w true)) false,
     failed_fetch_trace cfg service_url None None true).
Proof.
  intros R F. split; [|split; [reflexivity|]].
  - unfold AdminApi.refresh_cf. rewrite Henabled. cbn [negb].
    unfold invalidate_cache, invalidate.
    cbn [bind run do_call]. fold (invalidated w).
    rewrite run_bind.
    assert (P : fetcher_path cfg (invalidated w) None None true = true).
    { unfold fetcher_path, cache_hit. cbn. unfold refreshing in R.
      now rewrite R. }
    rewrite (run_get_clearance_failed None None true env i (invalidated w) P F).
    reflexivity.
  - rewrite run_refresh_enabled by exact Henabled.
    assert (P : fetcher_path cfg w None None true = true).
    { unfold fetcher_path, cache_hit. now rewrite R. }
    rewrite (run_get_clearance_failed None None true env i w P F).
    reflexivity.
Qed.

End ForcedRefresh.

(** A valid entry is cached; the forced refresh times out; the endpoint
    leaves an empty cache, the helper leaves the entry. *)
Lemma forced_refresh_failure_drops_entry_witness :
  let c := sample_entry "abcd1234" 4600 in
  let w := sample_world (Some c) false 1010 in
  let env := quiet (HttpRaised TimeoutException) in
  CFClearanceCacheManager._cache
    (manager (final_world (run always_ok (AdminApi.refresh_cf sample_cfg true)
                               env 0 w))) = None /\
  CFClearanceCacheManager._cache
    (manager (final_world
                (run always_ok (Integration.refresh_cf_clearance sample_cfg)
                     env 0 w))) = Some c.
Proof.
  intros c w env.
  destruct (forced_refresh_failure_drops_entry always_ok sample_cfg
              "http://cf-service:8080/" eq_refl eq_refl env 0%nat w
              eq_refl eq_refl) as (H1 & _ & H3).
  rewrite H1, H3. split; reflexivity.
Defined.

(** ** The entry a fetch leaves behind *)

Section FetchedEntry.

Import CFClearanceService.

Variable localtime_ok : Number -> bool.
Variable cfg : Config.
Variable service_url : string.
Hypothesis Hurl : cf_clearance_service_url cfg = Some service_url.
Hypothesis Henabled : is_enabled cfg = true.

Lemma lookup_with_refreshing w v b p :
  lookup (with_refreshing w v) b p = lookup w b p.
Proof. reflexivity. Qed.

Lemma lookup_with_cache w c b p :
  lookup (with_cache w c) b p =
  if CFClearanceCache.is_valid_for c (clock w) b p then Some c else None.
Proof. reflexivity. Qed.

Lemma run_get_clearance_hit browser proxy env i w c :
  lookup w (effective_browser cfg browser) (effective_proxy cfg proxy) = Some c ->
  run localtime_ok (get_clearance cfg browser proxy false) env i w =
  (if log_ok w c then Return (Some (CFClearanceCache.cf_clearance c))
   else Raise OtherException, w,
   [EvCall (CGetCached (effective_browser cfg browser)
                       (effective_proxy cfg proxy))]).
Proof.
  intro L.
  destruct (run_get_hit localtime_ok cfg browser proxy env i w c L)
    as (R & _).
  rewrite R. cbn [hit_or_raise]. now destruct (log_ok w c).
Qed.

(** X4. After a fetch that succeeds, the entry left in the cache answers
    the next lookup for the same context exactly when the reply named no
    browser other than the one asked for and gave an expiry that is not zero
    and that the clock, with the 300 seconds of the buffer, has not reached.
    When it does, the next call with the same arguments makes the lookup
    and nothing else, and returns the token of the entry when the log line
    of the hit can be written (the lookup raises when it cannot); when it
    does not, the next call finds nothing and fetches again. *)
Theorem fetched_entry_serves_next_call browser proxy force env i w data :
  fetcher_path cfg w browser proxy force = true ->
  remote_success
    (reply (env i) (AHttpPost (request_of cfg service_url browser proxy)))
    = Some data ->
  let b := effective_browser cfg browser in
  let p := effective_proxy cfg proxy in
  let c := entry_of_payload data b p in
  let expires_at := dict_get (p_expires_at data) (PyNumber.PyInt 0) in
  let w' := final_world
              (run localtime_ok (get_cache cfg browser proxy force) env i w) in
  (lookup w' b p = Some c <->
   dict_get (p_browser data) b = b /\
   PyNumber.truthy expires_at = true /\
   PyNumber.time_ge (clock w') (PyNumber.sub_int expires_at 300) = false) /\
  (lookup w' b p = Some c ->
   forall env' j,
     run localtime_ok (get_clearance cfg browser proxy false) env' j w' =
     (if log_ok w' c then Return (Some (CFClearanceCache.cf_clearance c))
      else Raise OtherException,
      w', [EvCall (CGetCached b p)])) /\
  (lookup w' b p <> Some c ->
   fetcher_path cfg w' browser proxy false = true).
Proof.
  intros P S b p c expires_at w'.
  assert (W : w' = with_refreshing
                     (with_cache (interfere (env i) (with_refreshing w true)) c)
                     false).
  { unfold w'.
    now rewrite (run_get_cache_fetched localtime_ok cfg service_url Hurl
                   Henabled browser proxy force env i w data P S). }
  assert (L : lookup w' b p =
              if CFClearanceCache.is_valid_for c (clock w') b p
              then Some c else None).
  { rewrite W. reflexivity. }
  split; [|split].
  - rewrite L.
    destruct (CFClearanceCache.is_valid_for c (clock w') b p) eqn:V.
    + apply is_valid_for_true in V as (X & B & _).
      apply is_expired_false in X. cbn in X, B. tauto.
    + split; [discriminate|]. intros (B & X1 & X2).
      assert (V' : CFClearanceCache.is_valid_for c (clock w') b p = true).
      { apply is_valid_for_true. split; [apply is_expired_false|]; cbn; auto. }
      congruence.
  - intros H env' j. now apply run_get_clearance_hit.
  - intro N. unfold fetcher_path, cache_hit. fold b p.
    rewrite L in *.
    destruct (CFClearanceCache.is_valid_for c (clock w') b p);
      [congruence|].
    rewrite W. reflexivity.
Qed.

End FetchedEntry.

(** The first and the second call of the spec's example. *)
Lemma fetched_entry_serves_next_call_witness :
  let w := sample_world None false 1000 in
  let env := quiet (HttpResponse
                      {| status_code := 200;
                         body := JsonObject (sample_payload "abcd1234" 4600) |}) in
  let w' := final_world
              (run always_ok
                   (CFClearanceService.get_cache sample_cfg None None false)
                   env 0 w) in
  run always_ok (CFClearanceService.get_clearance sample_cfg None None false)
      env 1 w'
  = (Return (Some "abcd1234"), w', [EvCall (CGetCached "chrome136" None)]).
Proof.
  intros w env w'.
  destruct (fetched_entry_serves_next_call always_ok sample_cfg
              "http://cf-service:8080/" eq_refl eq_refl None None false
              env 0%nat w (sample_payload "abcd1234" 4600) eq_refl eq_refl)
    as (_ & H & _).
  exact (H eq_refl env 1%nat).
Defined.

(** ** Without a configured service *)

Lemma passive_not_post tr :
  forallb passive tr = true -> existsb is_post tr = false.
Proof.
  induction tr as [|ev tr IH]; cbn; [reflexivity|].
  intro H. apply andb_prop in H as [H1 H2]. rewrite (IH H2).
  destruct ev as [c|[n|r]]; try reflexivity. discriminate.
Qed.

Lemma with_refreshing_round w :
  refreshing w = false ->
  with_refreshing (with_refreshing w true) false = w.
Proof.
  destruct w as [[c f] t]. unfold refreshing, with_refreshing. cbn.
  now intros ->.
Qed.

Section Disabled.

Import CFClearanceService.

Variable localtime_ok : Number -> bool.
Variable cfg : Config.
Hypothesis Hdisabled : is_enabled cfg = false.

Lemma fetch_from_service_disabled browser proxy user_agent timeout :
  fetch_from_service cfg browser proxy user_agent timeout = Ret None.
Proof.
  unfold fetch_from_service. unfold is_enabled in Hdisabled.
  destruct (_get_service_url cfg) as [u|]; [|reflexivity].
  cbn in Hdisabled. now rewrite Hdisabled.
Qed.

Lemma run_get_cache_disabled_fetcher browser proxy force env i w :
  fetcher_path cfg w browser proxy force = true ->
  run localtime_ok (get_cache cfg browser proxy force) env i w =
  (Return None, w,
   (first_checks cfg browser proxy force ++
    [EvCall (CSetRefreshing true); EvCall (CSetRefreshing false)])%list).
Proof.
  intro P. apply (fetcher_path_inv cfg) in P as [H R].
  rewrite run_get_cache_to_miss by exact H.
  rewrite run_get_cache_miss_fetcher by exact R.
  rewrite fetch_from_service_disabled. cbn [bind run].
  rewrite with_refreshing_round by exact R.
  unfold first_checks. cbn. now rewrite <- app_assoc.
Qed.

(** X5. When no service URL is configured (none, or the empty string), no
    call of [get_clearance] or [get_cache] ever sends a request, whatever the
    arguments, the state and the environment; a call that finds no valid
    entry and no refresh in flight raises the flag, lowers it again and
    returns [None] at once, leaving the world as it was. The status endpoint
    then makes no call on the manager, and the refresh endpoint refuses with
    status 400 before it touches anything. *)
Theorem disabled_service_never_posts browser proxy force env i w :
  existsb is_post
    (trace_of (run localtime_ok (get_cache cfg browser proxy force) env i w))
    = false /\
  existsb is_post
    (trace_of (run localtime_ok (get_clearance cfg browser proxy force) env i w))
    = false /\
  (if fetcher_path cfg w browser proxy force then
     run localtime_ok (get_clearance cfg browser proxy force) env i w =
     (Return None, w,
      (first_checks cfg browser proxy force ++
       [EvCall (CSetRefreshing true); EvCall (CSetRefreshing false)])%list)
   else True) /\
  run localtime_ok (AdminApi.get_cf_status cfg) env i w =
    (Return (status_response cfg None), w, []) /\
  run localtime_ok (AdminApi.refresh_cf cfg force) env i w =
    (Raise (HTTPException 400), w, []).
Proof.
  assert (G : existsb is_post
                (trace_of (run localtime_ok (get_cache cfg browser proxy force)
                               env i w)) = false).
  { destruct (cache_hit cfg w browser proxy force) as [c|] eqn:H.
    - unfold cache_hit in H. destruct force; [discriminate|].
      destruct (run_get_hit localtime_ok cfg browser proxy env i w c H)
        as (_ & E & _).
      rewrite E. reflexivity.
    - destruct (refreshing w) eqn:R.
      + apply passive_not_post.
        apply (get_cache_waiter_passive localtime_ok cfg browser proxy force
                 env i w).
        unfold waiter_path. now rewrite H, R.
      + rewrite run_get_cache_disabled_fetcher.
        * unfold trace_of, first_checks. cbn. now destruct force.
        * unfold fetcher_path. now rewrite H, R. }
  split; [exact G|split; [|split; [|split]]].
  - rewrite run_get_agree.
    now destruct (run localtime_ok (get_cache cfg browser proxy force) env i w)
      as [[o w1] tr].
  - destruct (fetcher_path cfg w browser proxy force) eqn:P; [|exact I].
    rewrite run_get_agree, run_get_cache_disabled_fetcher by exact P.
    reflexivity.
  - apply run_get_cf_status_disabled. exact Hdisabled.
  - unfold AdminApi.refresh_cf. now rewrite Hdisabled.
Qed.

End Disabled.

(** A miss with an empty service URL. *)
Lemma disabled_service_never_posts_witness :
  let w := sample_world None false 1010 in
  run always_ok (CFClearanceService.get_clearance sample_cfg_disabled
                   None None false)
      (quiet (HttpRaised TimeoutException)) 0 w
  = (Return None, w,
     [EvCall (CGetCached "chrome136" None); EvCall CIsRefreshing;
      EvCall (CSetRefreshing true); EvCall (CSetRefreshing false)]).
Proof.
  intro w.
  destruct (disabled_service_never_posts always_ok sample_cfg_disabled
              eq_refl None None false (quiet (HttpRaised TimeoutException))
              0%nat w) as (_ & _ & H & _).
  exact H.
Defined.

(** ** Invalidation *)

Section Invalidation.

Import CFClearanceService.

Variable localtime_ok : Number -> bool.
Variable cfg : Config.
Variable service_url : string.
Hypothesis Hurl : cf_clearance_service_url cfg = Some service_url.
Hypothesis Henabled : is_enabled cfg = true.

(** X6. Once a 403 has been handled (the service being configured), the
    entry that was cached is gone whatever it was: no context gets a hit,
    and a call made next, with no refresh in flight, raises the flag and
    sends a request to the remote service. The flag itself is not touched by
    the invalidation, so a call made while a refresh is in flight waits
    instead. *)
Theorem handled_403_forces_fetch browser proxy force env i w :
  run localtime_ok (Integration.handle_403_refresh cfg) env i w
    = (Return tt, invalidated w, [EvCall CInvalidate]) /\
  refreshing (invalidated w) = refreshing w /\
  (forall b p, lookup (invalidated w) b p = None) /\
  fetcher_path cfg (invalidated w) browser proxy force = negb (refreshing w) /\
  waiter_path cfg (invalidated w) browser proxy force = refreshing w /\
  (refreshing w = false ->
   exists rest,
     trace_of (run localtime_ok
                 (Integration.handle_403_refresh cfg ;;
                  get_cache cfg browser proxy force) env i w) =
     (EvCall CInvalidate :: first_checks cfg browser proxy force ++
      EvCall (CSetRefreshing true) ::
      EvAwait (AHttpPost (request_of cfg service_url browser proxy)) ::
      rest)%list).
Proof.
  assert (H : cache_hit cfg (invalidated w) browser proxy force = None).
  { unfold cache_hit. now destruct force. }
  assert (R : run localtime_ok (Integration.handle_403_refresh cfg) env i w
              = (Return tt, invalidated w, [EvCall CInvalidate])).
  { unfold Integration.handle_403_refresh. now rewrite Henabled. }
  split; [exact R|].
  split; [reflexivity|]. split; [reflexivity|].
  split; [unfold fetcher_path; now rewrite H|].
  split; [unfold waiter_path; now rewrite H|].
  intro F. rewrite run_bind, R. cbn [awaits Nat.add].
  assert (P : fetcher_path cfg (invalidated w) browser proxy force = true).
  { unfold fetcher_path. rewrite H. unfold refreshing in *. cbn. now rewrite F. }
  destruct (run_get_cache_fetcher_trace localtime_ok cfg service_url Hurl
              Henabled browser proxy force env (i + 0) (invalidated w) P)
    as [rest E].
  exists rest.
  destruct (run localtime_ok (get_cache cfg browser proxy force) env (i + 0)
              (invalidated w)) as [[o w1] tr].
  unfold trace_of in *. cbn in *. now rewrite E.
Qed.

End Invalidation.

(** A valid entry is cached when the 403 arrives. *)
Lemma handled_403_forces_fetch_witness :
  let w := sample_world (Some (sample_entry "abcd1234" 4600)) false 1010 in
  lookup w "chrome136" None = Some (sample_entry "abcd1234" 4600) /\
  fetcher_path sample_cfg (invalidated w) None None false = true.
Proof.
  intro w. split; [reflexivity|].
  destruct (handled_403_forces_fetch always_ok sample_cfg
              "http://cf-service:8080/" eq_refl eq_refl None None false
              (quiet (HttpRaised TimeoutException)) 0%nat w)
    as (_ & _ & _ & H & _).
  exact H.
Defined.

(** ** The passing of time *)

Lemma time_ge_mono now d x :
  0 <= d ->
  PyNumber.time_ge now x = true -> PyNumber.time_ge (now + d) x = true.
Proof.
  intro D. destruct x as [z|[s|s| |s m e]]; cbn.
  - rewrite !Z.leb_le. lia.
  - rewrite !Z.leb_le. lia.
  - auto.
  - auto.
  - destruct (0 <=? e); rewrite !Z.leb_le; [lia|].
    assert (0 <= 2 ^ (- e)) by apply Z.pow_nonneg, Z.le_0_2.
    nia.
Qed.

(** X7. Time alone never turns a miss into a hit: when the clock moves
    forward a lookup keeps its answer or loses it, so an entry that has
    missed on expiry is not served again. *)
Theorem expiry_is_final w d b p :
  0 <= d ->
  (lookup (tick d w) b p = lookup w b p \/ lookup (tick d w) b p = None) /\
  (lookup w b p = None -> lookup (tick d w) b p = None).
Proof.
  intro D.
  assert (M : forall c,
    CFClearanceCache.is_valid_for c (clock w + d) b p = true ->
    CFClearanceCache.is_valid_for c (clock w) b p = true).
  { intros c V. apply is_valid_for_true in V as (X & B & P).
    apply is_expired_false in X. apply is_valid_for_true.
    repeat split; auto. apply is_expired_false. split; [tauto|].
    destruct (PyNumber.time_ge (clock w)
                (PyNumber.sub_int (CFClearanceCache.expires_at c) 300)) eqn:G;
      [|reflexivity].
    apply (time_ge_mono _ d) in G; [|exact D].
    destruct X as [_ X]. congruence. }
  unfold lookup, tick, CFClearanceCacheManager.get_cached. cbn.
  destruct (CFClearanceCacheManager._cache (manager w)) as [c|]; [|auto].
  specialize (M c).
  destruct (CFClearanceCache.is_valid_for c (clock w + d) b p);
    destruct (CFClearanceCache.is_valid_for c (clock w) b p); auto.
  discriminate M. reflexivity.
Qed.

(** The entry of the spec's example, looked up ten seconds and then an hour
    after the fetch. *)
Lemma expiry_is_final_witness :
  let w := sample_world (Some (sample_entry "abcd1234" 4600)) false 1010 in
  lookup w "chrome136" None = Some (sample_entry "abcd1234" 4600) /\
  lookup (tick 3600 w) "chrome136" None = None /\
  lookup (tick 7200 (tick 3600 w)) "chrome136" None = None.
Proof.
  intro w. split; [reflexivity|]. split; [reflexivity|].
  apply (proj2 (expiry_is_final (tick 3600 w) 7200 "chrome136" None
                  ltac:(lia))).
  reflexivity.
Defined.

(** ** The service URL in the status response *)

(** X8. The status response shows a service URL of at most 50 characters
    as it is, and of a longer one the first 50 characters followed by three
    dots: never more than 53 characters. Without a URL the field is
    absent. *)
Theorem status_service_url_redacted cfg u :
  cf_clearance_service_url cfg = Some u ->
  let shown := AdminApi.service_url (status_response cfg None) in
  (if (String.length u <=? 50)%nat then shown = Some u
   else shown = Some (take 50 u ++ "...")) /\
  exists r, shown = Some r /\ (String.length r <= 53)%nat.
Proof.
  intros U shown. subst shown. unfold status_response. cbn.
  unfold CFClearanceService._get_service_url. rewrite U.
  unfold AdminApi.redact_service_url.
  destruct (Nat.leb_spec (String.length u) 50) as [L|L].
  - assert (E : (50 <? Z.of_nat (String.length u)) = false).
    { apply Z.ltb_ge. lia. }
    rewrite E, andb_false_r. split; [reflexivity|].
    exists u. split; [reflexivity|lia].
  - assert (E : (50 <? Z.of_nat (String.length u)) = true).
    { apply Z.ltb_lt. lia. }
    assert (T : truthy_str u = true).
    { destruct u; [cbn in L; lia|reflexivity]. }
    rewrite E, T. cbn [andb]. split; [reflexivity|].
    eexists. split; [reflexivity|].
    rewrite length_append, length_take. cbn [String.length]. lia.
Qed.

Lemma status_service_url_redacted_witness :
  AdminApi.service_url (status_response sample_cfg None)
  = Some "http://cf-service:8080/".
Proof.
  exact (proj1 (status_service_url_redacted sample_cfg
                  "http://cf-service:8080/" eq_refl)).
Defined.

(** ** The credential in the request headers *)

Section HeadersCredential.

Import CFClearanceService.

Variable localtime_ok : Number -> bool.
Variable cfg : Config.

Lemma fallback_credential_none_or_truthy raises w :
  none_or_truthy (fallback_credential cfg raises w) = true.
Proof.
  unfold fallback_credential, cached_credential, static_credential.
  assert (S : none_or_truthy
                match proxy_cf_clearance cfg with
                | Some s => if truthy_str s then Some s else None
                | None => None
                end = true).
  { destruct (proxy_cf_clearance cfg) as [s|]; [|reflexivity].
    destruct (truthy_str s) eqn:E; cbn; [exact E|reflexivity]. }
  destruct raises; [exact S|].
  destruct (lookup w _ _) as [c|]; [|exact S].
  destruct (log_ok w c); cbn [andb]; [|exact S].
  destruct (truthy_str (CFClearanceCache.cf_clearance c)) eqn:T;
    [exact T|exact S].
Qed.

Lemma run_headers_get_cf_clearance raises env i w :
  exists tr,
    run localtime_ok (Headers._get_cf_clearance cfg raises) env i w
      = (Return (fallback_credential cfg raises w), w, tr) /\
    forallb passive tr = true.
Proof.
  unfold Headers._get_cf_clearance, Headers._get_cached_cf_clearance.
  unfold fallback_credential, cached_credential, static_credential.
  assert (S : (if truthy (proxy_cf_clearance cfg) then proxy_cf_clearance cfg
               else None) =
              match proxy_cf_clearance cfg with
              | Some s => if truthy_str s then Some s else None
              | None => None
              end).
  { destruct (proxy_cf_clearance cfg) as [s|]; [|reflexivity].
    cbn. now destruct (truthy_str s). }
  rewrite S. clear S.
  destruct raises.
  - cbn. eexists. split; reflexivity.
  - rewrite run_bind, run_try_except.
    unfold get_cached. cbn [bind run do_call].
    rewrite get_cached_lookup.
    destruct (lookup w _ _) as [c|]; cbn [hit_or_raise].
    + destruct (log_ok w c); cbn [andb].
      * destruct (truthy_str (CFClearanceCache.cf_clearance c)) eqn:T;
          cbn; rewrite ?T; cbn; rewrite ?T; cbn; eexists; split; reflexivity.
      * cbn. eexists. split; reflexivity.
    + cbn. eexists. split; reflexivity.
Qed.

Lemma none_or_truthy_never_empty v :
  none_or_truthy v = true -> never_empty (Return v) = true.
Proof. now destruct v. Qed.

(** X9. Which credential the header builder gets when it asks
    asynchronously. Without a configured service it is the fallback: the
    token of the cached entry when a lookup returns one with a token that is
    not empty, and the static credential of the configuration otherwise
    ([None] when that is empty or absent). With a service it is the token
    that [get_clearance] returns when that is not empty; when
    [get_clearance] returns [None] or the empty string, or raises an
    [Exception] (the log line of [set_cache], for instance), it is the
    fallback, looked up in the state that the call left. So the credential
    is never an empty string and no [Exception] of the coordinator reaches
    the header builder; only a cancellation passes through. The state is
    the one that [get_clearance] left, and the cookie is built from that
    credential. *)
Theorem headers_credential_is_safe raises1 raises2 sso_token env i w :
  let r := run localtime_ok
               (Headers._get_cf_clearance_auto cfg raises1 raises2) env i w in
  let g := run localtime_ok (get_clearance cfg None None false) env i w in
  never_empty (outcome_of r) = true /\
  no_exception (outcome_of r) = true /\
  no_exception
    (outcome_of
       (run localtime_ok
            (Headers.build_sso_cookie_async cfg raises1 raises2 sso_token)
            env i w)) = true /\
  outcome_of r =
    (if is_enabled cfg then
       match outcome_of g with
       | Return v =>
           Return (if truthy v then v
                   else fallback_credential cfg raises1 (final_world g))
       | Raise e =>
           if is_Exception e
           then Return (fallback_credential cfg raises2 (final_world g))
           else Raise e
       end
     else Return (fallback_credential cfg raises1 w)) /\
  final_world r = (if is_enabled cfg then final_world g else w) /\
  outcome_of
    (run localtime_ok
         (Headers.build_sso_cookie_async cfg raises1 raises2 sso_token)
         env i w)
  = map_outcome (Headers.sso_cookie sso_token) (outcome_of r).
Proof.
  cbv zeta.
  assert (A :
    outcome_of (run localtime_ok
                  (Headers._get_cf_clearance_auto cfg raises1 raises2) env i w)
    = (if is_enabled cfg then
         match outcome_of (run localtime_ok (get_clearance cfg None None false)
                             env i w) with
         | Return v =>
             Return (if truthy v then v
                     else fallback_credential cfg raises1
                            (final_world
                               (run localtime_ok
                                  (get_clearance cfg None None false) env i w)))
         | Raise e =>
             if is_Exception e
             then Return (fallback_credential cfg raises2
                            (final_world
                               (run localtime_ok
                                  (get_clearance cfg None None false) env i w)))
             else Raise e
         end
       else Return (fallback_credential cfg raises1 w)) /\
    final_world (run localtime_ok
                   (Headers._get_cf_clearance_auto cfg raises1 raises2) env i w)
    = (if is_enabled cfg
       then final_world (run localtime_ok (get_clearance cfg None None false)
                           env i w)
       else w)).
  { unfold Headers._get_cf_clearance_auto.
    rewrite run_try_except.
    destruct (is_enabled cfg); cbn [negb].
    - rewrite run_bind.
      destruct (run localtime_ok (get_clearance cfg None None false) env i w)
        as [[o w1] tr1].
      unfold outcome_of, final_world. cbn [fst snd].
      destruct o as [v|e].
      + destruct (truthy v) eqn:T.
        * cbn. split; reflexivity.
        * destruct (run_headers_get_cf_clearance raises1 env
                      (i + awaits tr1) w1) as (tr' & E & _).
          rewrite E. cbn. split; reflexivity.
      + destruct (is_Exception e) eqn:X.
        * destruct (run_headers_get_cf_clearance raises2 env
                      (i + awaits tr1) w1) as (tr' & E & _).
          rewrite E. cbn. split; reflexivity.
        * cbn. split; reflexivity.
    - destruct (run_headers_get_cf_clearance raises1 env i w)
        as (tr' & E & _).
      rewrite E. cbn. split; reflexivity. }
  destruct A as [A W].
  assert (C :
    outcome_of
      (run localtime_ok
           (Headers.build_sso_cookie_async cfg raises1 raises2 sso_token)
           env i w)
    = map_outcome (Headers.sso_cookie sso_token)
        (outcome_of (run localtime_ok
                       (Headers._get_cf_clearance_auto cfg raises1 raises2)
                       env i w))).
  { unfold Headers.build_sso_cookie_async. rewrite run_bind.
    destruct (run localtime_ok
                (Headers._get_cf_clearance_auto cfg raises1 raises2) env i w)
      as [[o w1] tr1].
    unfold outcome_of. cbn. now destruct o. }
  assert (N :
    never_empty
      (outcome_of (run localtime_ok
                     (Headers._get_cf_clearance_auto cfg raises1 raises2)
                     env i w)) = true /\
    no_exception
      (outcome_of (run localtime_ok
                     (Headers._get_cf_clearance_auto cfg raises1 raises2)
                     env i w)) = true).
  { rewrite A.
    destruct (is_enabled cfg).
    - destruct (outcome_of (run localtime_ok
                              (get_clearance cfg None None false) env i w))
        as [v|e].
      + split; [|reflexivity].
        destruct (truthy v) eqn:T.
        * destruct v as [s|]; [exact T|reflexivity].
        * apply none_or_truthy_never_empty,
            fallback_credential_none_or_truthy.
      + destruct (is_Exception e) eqn:X.
        * split; [|reflexivity].
          apply none_or_truthy_never_empty,
            fallback_credential_none_or_truthy.
        * cbn. now rewrite X.
    - split; [|reflexivity].
      apply none_or_truthy_never_empty, fallback_credential_none_or_truthy. }
  destruct N as [N1 N2].
  split; [exact N1|]. split; [exact N2|].
  split; [|split; [exact A|split; [exact W|exact C]]].
  rewrite C.
  destruct (outcome_of (run localtime_ok
                          (Headers._get_cf_clearance_auto cfg raises1 raises2)
                          env i w)); [reflexivity|exact N2].
Qed.

End HeadersCredential.

(** The service is configured and the fetch succeeds, but the log line of
    [set_cache] raises after the entry is stored: [get_clearance] raises,
    and the header builder gets the token from the cache. *)
Lemma headers_credential_is_safe_witness :
  let w := sample_world None false 1010 in
  let env := quiet (HttpResponse
                      {| status_code := 200;
                         body := JsonObject (sample_payload "abcd1234" 4600) |}) in
  let never_ok (t : Number) := false in
  outcome_of (run never_ok
                  (CFClearanceService.get_clearance sample_cfg None None false)
                  env 0 w) = Raise OtherException /\
  outcome_of (run never_ok
                  (Headers._get_cf_clearance_auto sample_cfg false false)
                  env 0 w) = Return (Some "abcd1234").
Proof.
  intros w env never_ok. split; [reflexivity|].
  destruct (headers_credential_is_safe never_ok sample_cfg false false
              "eyJhbGciOi" env 0%nat w) as (_ & _ & _ & H & _).
  rewrite H. reflexivity.
Defined.

Lemma prefix_sso_append t : String.prefix "sso=" ("sso=" ++ t) = true.
Proof. cbn. now destruct t. Qed.

Lemma substring_all s : substring 0 (String.length s) s = s.
Proof. induction s as [|c s IH]; cbn; [reflexivity|now rewrite IH]. Qed.

(** X10. The cookie builder takes the SSO token with or without its
    ["sso="] prefix: both forms give the same cookie. Exactly one prefix is
    removed, so a token that is written with the prefix twice keeps one. *)
Theorem sso_cookie_prefix_insensitive t cf_clearance :
  Headers.strip_sso ("sso=" ++ t) = t /\
  (String.prefix "sso=" t = false ->
   Headers.sso_cookie ("sso=" ++ t) cf_clearance
   = Headers.sso_cookie t cf_clearance).
Proof.
  assert (S : Headers.strip_sso ("sso=" ++ t) = t).
  { unfold Headers.strip_sso. rewrite prefix_sso_append.
    unfold Headers.drop. cbn [String.append String.length].
    replace (S (S (S (S (String.length t)))) - 4)%nat with (String.length t)
      by lia.
    cbn [substring]. apply substring_all. }
  split; [exact S|].
  intro N. unfold Headers.sso_cookie. rewrite S.
  assert (S' : Headers.strip_sso t = t).
  { unfold Headers.strip_sso. now rewrite N. }
  now rewrite S'.
Qed.

Lemma sso_cookie_prefix_insensitive_witness :
  Headers.sso_cookie "sso=eyJhbGciOi" (Some "abcd1234")
  = "sso=eyJhbGciOi; sso-rw=eyJhbGciOi;cf_clearance=abcd1234" /\
  Headers.sso_cookie "sso=eyJhbGciOi" (Some "abcd1234")
  = Headers.sso_cookie "eyJhbGciOi" (Some "abcd1234").
Proof.
  split; [reflexivity|].
  exact (proj2 (sso_cookie_prefix_insensitive "eyJhbGciOi" (Some "abcd1234"))
           eq_refl).
Defined.

(** * Properties of the environment overlay ([config_env.py]) *)

(** ** Names of environment variables *)

Section EnvNames.

Import ConfigEnv ConfigEnvSpec.

Lemma env_char_not_underscore c :
  is_env_char c = true -> is_underscore c = false.
Proof.
  intro E. unfold is_underscore.
  destruct (Ascii.eqb_spec c "_") as [->|N]; [discriminate E|reflexivity].
Qed.

Lemma upper_char_env c : is_env_char c = true -> upper_char c = c.
Proof.
  destruct c as [[] [] [] [] [] [] [] []]; intro E;
    first [reflexivity | discriminate E].
Qed.

Lemma upper_char_idem c : upper_char (upper_char c) = upper_char c.
Proof.
  destruct c as [[] [] [] [] [] [] [] []]; reflexivity.
Qed.

Lemma rstrip_keep f c s :
  f c = false -> rstrip f (String c s) = String c (rstrip f s).
Proof.
  intro N. cbn. destruct (rstrip f s); [now rewrite N|reflexivity].
Qed.

(** After a run, [sub_runs] does not start with an underscore. *)
Lemma sub_runs_true_head u :
  match sub_runs true u with
  | EmptyString => True
  | String c _ => is_env_char c = true
  end.
Proof.
  induction u as [|c r IH]; cbn; [exact I|].
  destruct (is_env_char c) eqn:E; [exact E|exact IH].
Qed.

Lemma tail_ok_rstrip_sub_runs u b :
  tail_ok (rstrip is_underscore (sub_runs b u)) = true.
Proof.
  revert b. induction u as [|c r IH]; intro b; [reflexivity|].
  cbn [sub_runs]. destruct (is_env_char c) eqn:E.
  - rewrite rstrip_keep by now apply env_char_not_underscore.
    cbn [tail_ok]. rewrite E. apply IH.
  - destruct b; [apply IH|].
    cbn [rstrip]. specialize (IH true).
    pose proof (sub_runs_true_head r) as H.
    destruct (sub_runs true r) as [|c' r'] eqn:S.
    + reflexivity.
    + rewrite rstrip_keep in * by now apply env_char_not_underscore.
      cbn [tail_ok] in IH |- *. rewrite H in IH. cbn. now rewrite H.
Qed.

(** What [lstrip] leaves of the output of [sub_runs] is again such an
    output, empty or starting with a character of [A-Z0-9]. *)
Lemma lstrip_sub_runs u b :
  exists u' b',
    lstrip is_underscore (sub_runs b u) = sub_runs b' u' /\
    match sub_runs b' u' with
    | EmptyString => True
    | String c _ => is_env_char c = true
    end.
Proof.
  revert b. induction u as [|c r IH]; intro b.
  - exists EmptyString, true. split; reflexivity.
  - cbn [sub_runs]. destruct (is_env_char c) eqn:E.
    + exists (String c r), b. cbn [sub_runs lstrip]. rewrite E.
      rewrite (env_char_not_underscore c E). split; [reflexivity|exact E].
    + destruct b; [apply IH|].
      cbn [lstrip]. change (is_underscore "_") with true. cbn iota.
      apply IH.
Qed.

Lemma normalize_shape segment :
  segment_ok (_normalize_segment segment) = true.
Proof.
  unfold _normalize_segment, strip.
  destruct (lstrip_sub_runs (upper segment) false) as (u' & b' & -> & H).
  pose proof (tail_ok_rstrip_sub_runs u' b') as T.
  destruct (sub_runs b' u') as [|c r].
  - reflexivity.
  - rewrite rstrip_keep in * by now apply env_char_not_underscore.
    cbn [truthy_str]. cbn [tail_ok] in T. rewrite H in T.
    cbn. now rewrite H.
Qed.

(** A string of the shape is left alone by each stage. *)
Lemma tail_ok_upper s : tail_ok s = true -> upper s = s.
Proof.
  unfold upper. induction s as [|c r IH]; [reflexivity|].
  cbn [tail_ok]. destruct (is_env_char c) eqn:E.
  - intro T. cbn [map_chars]. now rewrite (upper_char_env c E), (IH T).
  - destruct (is_underscore c) eqn:U; [|discriminate].
    apply Ascii.eqb_eq in U. subst c.
    destruct r as [|c' r']; [discriminate|].
    intro T. apply andb_prop in T as [E' T].
    assert (T' : tail_ok (String c' r') = true).
    { cbn. now rewrite E'. }
    change (map_chars upper_char (String "_" (String c' r')))
      with (String "_"%char (map_chars upper_char (String c' r'))).
    now rewrite (IH T').
Qed.

Lemma tail_ok_sub_runs s :
  tail_ok s = true -> sub_runs false s = s.
Proof.
  induction s as [|c r IH]; [reflexivity|].
  cbn [tail_ok]. destruct (is_env_char c) eqn:E.
  - intro T. cbn. now rewrite E, (IH T).
  - destruct (is_underscore c) eqn:U; [|discriminate].
    apply Ascii.eqb_eq in U. subst c.
    destruct r as [|c' r']; [discriminate|].
    intro T. apply andb_prop in T as [E' T].
    assert (T' : tail_ok (String c' r') = true).
    { cbn. now rewrite E'. }
    specialize (IH T'). cbn in IH |- *. rewrite E' in *.
    rewrite E. now rewrite IH.
Qed.

Lemma tail_ok_rstrip s :
  tail_ok s = true -> rstrip is_underscore s = s.
Proof.
  induction s as [|c r IH]; [reflexivity|].
  cbn [tail_ok]. destruct (is_env_char c) eqn:E.
  - intro T. rewrite rstrip_keep by now apply env_char_not_underscore.
    now rewrite (IH T).
  - destruct (is_underscore c) eqn:U; [|discriminate].
    destruct r as [|c' r']; [discriminate|].
    intro T. apply andb_prop in T as [E' T].
    assert (T' : tail_ok (String c' r') = true).
    { cbn. now rewrite E'. }
    specialize (IH T'). cbn [rstrip] in IH |- *.
    destruct (rstrip is_underscore r') eqn:R.
    + rewrite (env_char_not_underscore c' E') in *.
      injection IH as <-. reflexivity.
    + now rewrite IH.
Qed.

Lemma normalize_fixed s :
  segment_ok s = true -> _normalize_segment s = s.
Proof.
  destruct s as [|c r]; [discriminate|].
  intro S. assert (T : tail_ok (String c r) = true).
  { cbn in S |- *. apply andb_prop in S as [E T]. now rewrite E. }
  cbn in S. apply andb_prop in S as [E _].
  unfold _normalize_segment, strip.
  rewrite (tail_ok_upper _ T), (tail_ok_sub_runs _ T).
  cbn [lstrip]. rewrite (env_char_not_underscore c E).
  now rewrite (tail_ok_rstrip _ T).
Qed.

Lemma map_chars_upper_idem s : upper (upper s) = upper s.
Proof.
  unfold upper. induction s as [|c r IH]; [reflexivity|].
  cbn [map_chars]. now rewrite upper_char_idem, IH.
Qed.

(** X11. A normalized segment is never empty and has the shape
    [[A-Z0-9]+(_[A-Z0-9]+)*]: capitals and digits, single underscores
    between them, none at either end, so the double underscore that
    [path_to_env_var] puts between segments cannot come from a segment. A
    segment of that shape is its own normal form, so normalizing twice
    changes nothing, and a segment and its upper-case form have the same
    normal form. *)
Theorem normalize_segment_normal_form segment :
  segment_ok (_normalize_segment segment) = true /\
  _normalize_segment (_normalize_segment segment) = _normalize_segment segment /\
  _normalize_segment (upper segment) = _normalize_segment segment.
Proof.
  split; [apply normalize_shape|split].
  - apply normalize_fixed, normalize_shape.
  - unfold _normalize_segment. now rewrite map_chars_upper_idem.
Qed.

End EnvNames.

Section EnvVarNames.

Import ConfigEnv ConfigEnvSpec EnvVarSpec.

Lemma tail_ok_cut_bounded n : forall x y rest1 rest2,
  (String.length x <= n)%nat ->
  tail_ok x = true -> tail_ok y = true ->
  after_segment rest1 -> after_segment rest2 ->
  (x ++ rest1)%string = (y ++ rest2)%string ->
  x = y /\ rest1 = rest2.
Proof.
  induction n as [|n IH]; intros x y rest1 rest2 L Tx Ty A1 A2 E.
  - destruct x as [|c r]; [|cbn in L; lia].
    destruct y as [|d s]; [auto|]. exfalso.
    cbn in E. subst rest1. cbn [tail_ok] in Ty.
    destruct A1 as [A1|(c1 & r1 & A1 & E1)]; [discriminate|].
    injection A1 as -> A1.
    change (is_env_char "_") with false in Ty. cbn iota in Ty.
    change (is_underscore "_") with true in Ty. cbn iota in Ty.
    destruct s as [|d' s']; [discriminate|].
    apply andb_prop in Ty as [Ed _].
    cbn in A1. injection A1 as -> _. discriminate Ed.
  - destruct x as [|c r], y as [|d s].
    + auto.
    + apply (IH "" (String d s) rest1 rest2); auto. cbn. lia.
    + exfalso. cbn in E. subst rest2. cbn [tail_ok] in Tx.
      destruct A2 as [A2|(c1 & r1 & A2 & E1)]; [discriminate|].
      injection A2 as -> A2.
      change (is_env_char "_") with false in Tx. cbn iota in Tx.
      change (is_underscore "_") with true in Tx. cbn iota in Tx.
      destruct r as [|c' r']; [discriminate|].
      apply andb_prop in Tx as [Ec _].
      cbn in A2. injection A2 as -> _. discriminate Ec.
    + cbn in E. injection E as -> E. cbn in L.
      cbn [tail_ok] in Tx, Ty. destruct (is_env_char d) eqn:Ed.
      * destruct (IH r s rest1 rest2 ltac:(lia) Tx Ty A1 A2 E) as [-> ->].
        auto.
      * destruct (is_underscore d) eqn:U; [|discriminate].
        destruct r as [|c' r']; [discriminate|].
        destruct s as [|d' s']; [discriminate|].
        apply andb_prop in Tx as [Ec Tx]. apply andb_prop in Ty as [Ed' Ty].
        cbn in E. injection E as -> E. cbn in L.
        destruct (IH r' s' rest1 rest2 ltac:(lia) Tx Ty A1 A2 E) as [-> ->].
        auto.
Qed.

Lemma segment_ok_tail_ok s : segment_ok s = true -> tail_ok s = true.
Proof.
  destruct s as [|c r]; [discriminate|]. cbn.
  intro H. apply andb_prop in H as [E T]. now rewrite E.
Qed.

Lemma join_cons x xs :
  join "__" (x :: xs) =
  (x ++ match xs with [] => "" | _ :: _ => "__" ++ join "__" xs end)%string.
Proof.
  unfold join. cbn [concat]. destruct xs; [|reflexivity].
  induction x as [|c r IH]; cbn; [reflexivity|now rewrite <- IH].
Qed.

Lemma after_segment_join xs :
  Forall (fun s => segment_ok s = true) xs ->
  after_segment
    match xs with [] => "" | _ :: _ => ("__" ++ join "__" xs)%string end.
Proof.
  intro F. destruct xs as [|x xs]; [now left|]. right.
  inversion F as [|? ? S0 _]; subst.
  rewrite join_cons. destruct x as [|c r]; [discriminate|].
  cbn in S0. apply andb_prop in S0 as [E _].
  exists c. eexists. split; [reflexivity|exact E].
Qed.

Lemma join_injective l1 l2 :
  Forall (fun s => segment_ok s = true) l1 ->
  Forall (fun s => segment_ok s = true) l2 ->
  join "__" l1 = join "__" l2 -> l1 = l2.
Proof.
  revert l2. induction l1 as [|x xs IH]; intros l2 F1 F2 E.
  - destruct l2 as [|y ys]; [reflexivity|]. exfalso.
    rewrite join_cons in E. inversion F2 as [|? ? S0 _]; subst.
    destruct y; [discriminate S0|discriminate E].
  - destruct l2 as [|y ys].
    + exfalso. rewrite join_cons in E. inversion F1 as [|? ? S0 _]; subst.
      destruct x; [discriminate S0|discriminate E].
    + inversion F1 as [|? ? Sx Fx]; inversion F2 as [|? ? Sy Fy]; subst.
      rewrite !join_cons in E.
      destruct (tail_ok_cut_bounded _ x y _ _ (le_n _)
                  (segment_ok_tail_ok _ Sx) (segment_ok_tail_ok _ Sy)
                  (after_segment_join xs Fx) (after_segment_join ys Fy) E)
        as [-> R].
      f_equal. apply IH; auto.
      destruct xs, ys; try discriminate; auto.
      cbn in R. now injection R.
Qed.

Lemma append_cancel_l p a b : (p ++ a)%string = (p ++ b)%string -> a = b.
Proof.
  induction p as [|c r IH]; cbn; [auto|]. intro E. injection E as E. auto.
Qed.

(** X12. The name of the environment variable determines the normalized
    segments of the path: under one prefix two paths get the same name only
    when their non-empty segments have the same normal forms, one by one.
    The double underscore between segments is never ambiguous. *)
Theorem env_var_name_unambiguous prefix path1 path2 :
  path_to_env_var prefix path1 = path_to_env_var prefix path2 <->
  env_segments path1 = env_segments path2.
Proof.
  unfold path_to_env_var. cbv zeta.
  fold (env_segments path1) (env_segments path2).
  split.
  - intro E. apply append_cancel_l in E.
    apply join_injective; auto;
      unfold env_segments; apply Forall_forall; intros s I;
      apply in_map_iff in I as (s' & <- & _);
      apply (normalize_shape s').
  - now intros ->.
Qed.

Lemma env_var_name_unambiguous_witness :
  env_segments "proxy..cf-clearance" = env_segments "Proxy.CF_Clearance".
Proof.
  apply (proj1 (env_var_name_unambiguous DEFAULT_ENV_PREFIX
                  "proxy..cf-clearance" "Proxy.CF_Clearance")).
  reflexivity.
Defined.

End EnvVarNames.

Section ParseValue.

Import ConfigEnv ConfigEnvSpec ParseSpec.

Variable py_int py_float : string -> option Z.
Variable json_loads : string -> option Value.

Lemma rstrip_idem f s : rstrip f (rstrip f s) = rstrip f s.
Proof.
  induction s as [|c r IH]; [reflexivity|].
  cbn [rstrip]. destruct (rstrip f r) as [|d r'] eqn:E.
  - destruct (f c) eqn:F; [reflexivity|]. cbn. now rewrite F.
  - cbn [rstrip]. cbn [rstrip] in IH. rewrite IH. reflexivity.
Qed.

Lemma lstrip_head f s :
  match lstrip f s with
  | EmptyString => True
  | String c _ => f c = false
  end.
Proof.
  induction s as [|c r IH]; [exact I|].
  cbn. destruct (f c) eqn:F; [exact IH|exact F].
Qed.

Lemma strip_idem f s : strip f (strip f s) = strip f s.
Proof.
  unfold strip. pose proof (lstrip_head f s) as H.
  destruct (lstrip f s) as [|c r]; [reflexivity|].
  rewrite (rstrip_keep f c r H). cbn [lstrip]. rewrite H.
  rewrite (rstrip_keep f c _ H). now rewrite rstrip_idem.
Qed.

Lemma lstrip_map_chars f g s :
  (forall c, f (g c) = f c) ->
  lstrip f (map_chars g s) = map_chars g (lstrip f s).
Proof.
  intro H. induction s as [|c r IH]; [reflexivity|].
  cbn. rewrite H. destruct (f c); [exact IH|reflexivity].
Qed.

Lemma rstrip_map_chars f g s :
  (forall c, f (g c) = f c) ->
  rstrip f (map_chars g s) = map_chars g (rstrip f s).
Proof.
  intro H. induction s as [|c r IH]; [reflexivity|].
  cbn [map_chars rstrip]. rewrite IH, H.
  destruct (rstrip f r); cbn; [destruct (f c)|]; reflexivity.
Qed.

Lemma is_space_upper_char c : is_space (upper_char c) = is_space c.
Proof.
  destruct c as [[] [] [] [] [] [] [] []]; reflexivity.
Qed.

Lemma lower_upper_char c : lower_char (upper_char c) = lower_char c.
Proof.
  destruct c as [[] [] [] [] [] [] [] []]; reflexivity.
Qed.

Lemma lower_upper s : lower (upper s) = lower s.
Proof.
  unfold lower, upper. induction s as [|c r IH]; [reflexivity|].
  cbn. now rewrite lower_upper_char, IH.
Qed.

Lemma lower_strip_upper s :
  lower (strip is_space (upper s)) = lower (strip is_space s).
Proof.
  unfold strip, upper.
  rewrite (lstrip_map_chars _ _ _ is_space_upper_char).
  rewrite (rstrip_map_chars _ _ _ is_space_upper_char).
  apply lower_upper.
Qed.

Lemma comma_items_stripped text :
  Forall stripped_item
    (map (fun item => VStr (strip is_space item))
         (filter (fun item => truthy_str (strip is_space item))
                 (split_on "," text))).
Proof.
  apply Forall_forall. intros v I.
  apply in_map_iff in I as (item & <- & I).
  apply filter_In in I as [_ T]. cbn. split; [exact T|apply strip_idem].
Qed.

(** X13. The value that [_parse_value] returns has the type of the
    template (a string when the template is a string or [None]), and it
    fails only for templates that are booleans, integers, floats or dicts:
    never for a list. For the templates that are not strings, spaces around
    the raw text do not count; a string is kept as it is, spaces included.
    The words for a boolean are recognised in any case, and the items of a
    list that does not parse as JSON are non-empty stripped strings. *)
Theorem parse_value_follows_template raw template :
  let parse := _parse_value py_int py_float json_loads in
  match parse raw template with
  | ParsedOk v => kind v = expected_kind template
  | ParseError _ => In (kind template) [KBool; KInt; KFloat; KDict]
  end /\
  (if reads_text template
   then parse (strip is_space raw) template = parse raw template
   else parse raw template = ParsedOk (VStr raw)) /\
  (kind template = KBool -> parse (upper raw) template = parse raw template) /\
  (forall items,
     parse raw template = ParsedOk (VList items) ->
     kind template = KList ->
     json_loads (strip is_space raw) = Some (VList items) \/
     Forall stripped_item items).
Proof.
  cbv zeta. split; [|split; [|split]].
  - unfold _parse_value. destruct template; try reflexivity.
    + destruct (mem (lower (strip is_space raw)) _TRUE_VALUES);
        [reflexivity|].
      destruct (mem (lower (strip is_space raw)) _FALSE_VALUES);
        cbn; auto.
    + destruct (py_int (strip is_space raw)); cbn; auto.
    + destruct (py_float (strip is_space raw)); cbn; auto.
    + destruct (_parse_json_value json_loads (strip is_space raw));
        try reflexivity;
        destruct (String.eqb (strip is_space raw) ""); reflexivity.
    + destruct (_parse_json_value json_loads (strip is_space raw));
        cbn; auto 6.
  - destruct template; cbn [reads_text]; try reflexivity;
      unfold _parse_value; rewrite strip_idem; reflexivity.
  - destruct template; try discriminate. intros _.
    unfold _parse_value. now rewrite lower_strip_upper.
  - intros items E K. destruct template; try discriminate K.
    unfold _parse_value in E. unfold _parse_json_value in E.
    destruct (json_loads (strip is_space raw)) as [v|] eqn:J.
    + destruct v; try (injection E as <-; now left);
        destruct (String.eqb (strip is_space raw) "");
        injection E as <-; right;
        first [constructor|apply comma_items_stripped].
    + destruct (String.eqb (strip is_space raw) "");
        injection E as <-; right;
        first [constructor|apply comma_items_stripped].
Qed.

End ParseValue.

Lemma parse_value_follows_template_witness :
  let parse :=
    ConfigEnv._parse_value (fun _ => None) (fun _ => None) (fun _ => None) in
  parse " TRUE " (ConfigEnv.VBool false)
  = parse " true " (ConfigEnv.VBool false).
Proof.
  cbv zeta.
  apply (proj1 (proj2 (proj2
           (parse_value_follows_template
              (fun _ => None) (fun _ => None) (fun _ => None)
              " true " (ConfigEnv.VBool false))))).
  reflexivity.
Defined.

Section DictFacts.

Import ConfigEnv.

Lemma dict_get_item_set {A} k k' (v : A) d :
  dict_get_item k (dict_set_item k' v d) =
  if String.eqb k k' then Some v else dict_get_item k d.
Proof.
  induction d as [|[k0 v0] rest IH]; cbn.
  - reflexivity.
  - destruct (String.eqb k' k0) eqn:E0; cbn.
    + apply String.eqb_eq in E0. subst k0.
      destruct (String.eqb k k'); reflexivity.
    + rewrite IH. destruct (String.eqb k k0) eqn:E; [|reflexivity].
      apply String.eqb_eq in E. subst k0.
      rewrite String.eqb_sym, E0. reflexivity.
Qed.

Lemma mem_In x l : mem x l = true <-> In x l.
Proof.
  unfold mem. rewrite existsb_exists. split.
  - intros (y & I & E). apply String.eqb_eq in E. now subst.
  - intro I. exists x. split; [exact I|apply String.eqb_refl].
Qed.

Lemma In_insert_sorted x y l : In x (insert_sorted y l) <-> x = y \/ In x l.
Proof.
  induction l as [|z l IH]; cbn.
  - intuition congruence.
  - destruct (String.leb y z); cbn; [intuition congruence|].
    rewrite IH. intuition congruence.
Qed.

Lemma In_sorted x l : In x (sorted l) <-> In x l.
Proof.
  induction l as [|y l IH]; cbn; [tauto|].
  rewrite In_insert_sorted, IH. intuition congruence.
Qed.

End DictFacts.

Section Overlay.

Import ConfigEnv OverlaySpec.

Variable py_int py_float : string -> option Z.
Variable json_loads : string -> option Value.
Variable prefix : string.
Variable environ : string -> option string.

Lemma mem_build_paths defaults baseline path :
  mem path (build_paths defaults baseline) =
  dict_has path (flat_or_empty defaults)
  || dict_has path (flat_or_empty baseline).
Proof.
  unfold build_paths, set_union. fold (flat_or_empty defaults).
  fold (flat_or_empty baseline).
  change (dict_has path (flat_or_empty defaults))
    with (mem path (dict_keys (flat_or_empty defaults))).
  change (dict_has path (flat_or_empty baseline))
    with (mem path (dict_keys (flat_or_empty baseline))).
  apply eq_true_iff_eq.
  rewrite orb_true_iff, !mem_In, In_sorted, nodup_In, in_app_iff.
  reflexivity.
Qed.

(** The paths of a list that the environment locks, and those for which it
    gives an error. *)
Lemma build_fold defaults baseline paths : forall r0 path,
  let step := build_step py_int py_float json_loads prefix environ
                (flat_or_empty defaults) (flat_or_empty baseline) in
  let r := fold_left step paths r0 in
  let env_var := path_to_env_var prefix path in
  dict_get_item path (locked_paths r) =
    match reading py_int py_float json_loads prefix environ
                  defaults baseline path with
    | Some (ParsedOk _) =>
        if mem path paths then Some env_var
        else dict_get_item path (locked_paths r0)
    | _ => dict_get_item path (locked_paths r0)
    end /\
  dict_get_item path (errors r) =
    match reading py_int py_float json_loads prefix environ
                  defaults baseline path with
    | Some (ParseError exc) =>
        if mem path paths then Some (env_var ++ ": " ++ exc)
        else dict_get_item path (errors r0)
    | _ => dict_get_item path (errors r0)
    end.
Proof.
  cbv zeta. induction paths as [|p ps IH]; intros r0 path.
  - cbn. destruct (reading _ _ _ _ _ _ _ _) as [[v|exc]|]; auto.
  - cbn [fold_left]. destruct (IH (build_step py_int py_float json_loads
                                     prefix environ (flat_or_empty defaults)
                                     (flat_or_empty baseline) r0 p) path)
      as [L E].
    rewrite L, E. clear L E IH.
    change (mem path (p :: ps)) with (String.eqb path p || mem path ps).
    unfold build_step. fold (template_of defaults baseline p).
    destruct (String.eqb path p) eqn:Q.
    + apply String.eqb_eq in Q. subst p. unfold reading.
      destruct (environ (path_to_env_var prefix path)) as [raw|];
        [|split; reflexivity].
      destruct (_parse_value py_int py_float json_loads raw
                  (template_of defaults baseline path)) as [v|exc];
        cbn [locked_paths errors orb];
        rewrite ?dict_get_item_set, ?String.eqb_refl;
        destruct (mem path ps); split; reflexivity.
    + cbn [orb].
      assert (forall r1,
                r1 = match environ (path_to_env_var prefix p) with
                     | None => r0
                     | Some raw =>
                         match _parse_value py_int py_float json_loads raw
                                 (template_of defaults baseline p) with
                         | ParseError exc =>
                             {| overrides := overrides r0;
                                locked_paths := locked_paths r0;
                                errors :=
                                  dict_set_item p
                                    (path_to_env_var prefix p ++ ": " ++ exc)
                                    (errors r0) |}
                         | ParsedOk parsed =>
                             {| overrides :=
                                  _set_by_path (overrides r0)
                                    (split_on "." p) parsed;
                                locked_paths :=
                                  dict_set_item p (path_to_env_var prefix p)
                                    (locked_paths r0);
                                errors := errors r0 |}
                         end
                     end ->
                dict_get_item path (locked_paths r1)
                = dict_get_item path (locked_paths r0) /\
                dict_get_item path (errors r1)
                = dict_get_item path (errors r0)) as K.
      { intros r1 ->. destruct (environ (path_to_env_var prefix p));
          [|split; reflexivity].
        destruct (_parse_value _ _ _ _ _); cbn [locked_paths errors];
          rewrite ?dict_get_item_set, ?Q; split; reflexivity. }
      destruct (K _ eq_refl) as [-> ->].
      destruct (reading _ _ _ _ _ _ _ _) as [[v|exc]|]; auto.
Qed.

(** X14. [build] sorts the paths whose environment variable is set into
    two: [locked_paths] has exactly those whose text parses, each with the
    name of its variable, and [errors] exactly those whose text does not,
    each with the name and the message; no path is in both, and a path that
    is in neither dict of the configuration, or whose variable is not set,
    is in none. *)
Theorem build_sorts_paths defaults baseline path :
  let r := build py_int py_float json_loads prefix environ
             defaults baseline in
  let env_var := path_to_env_var prefix path in
  let known := dict_has path (flat_or_empty defaults)
               || dict_has path (flat_or_empty baseline) in
  let read := if known
              then reading py_int py_float json_loads prefix environ
                     defaults baseline path
              else None in
  dict_get_item path (locked_paths r) =
    match read with
    | Some (ParsedOk _) => Some env_var
    | _ => None
    end /\
  dict_get_item path (errors r) =
    match read with
    | Some (ParseError exc) => Some (env_var ++ ": " ++ exc)
    | _ => None
    end /\
  (dict_get_item path (locked_paths r) = None \/
   dict_get_item path (errors r) = None) /\
  (environ env_var = None ->
   dict_get_item path (locked_paths r) = None /\
   dict_get_item path (errors r) = None).
Proof.
  cbv zeta. rewrite <- mem_build_paths.
  destruct (build_fold defaults baseline (build_paths defaults baseline)
              empty_result path) as [L E].
  cbv zeta in L, E.
  change (fold_left _ (build_paths defaults baseline) empty_result)
    with (build py_int py_float json_loads prefix environ defaults baseline)
    in L, E.
  rewrite L, E. cbn [empty_result locked_paths errors dict_get_item].
  unfold reading.
  destruct (environ (path_to_env_var prefix path)) as [raw|].
  - destruct (_parse_value _ _ _ _ _);
      destruct (mem path (build_paths defaults baseline));
      repeat split; auto; discriminate.
  - destruct (mem path (build_paths defaults baseline));
      repeat split; auto.
Qed.

End Overlay.

Lemma build_sorts_paths_witness :
  let defaults :=
    ConfigEnv.VDict
      [("proxy", ConfigEnv.VDict [("cf_clearance", ConfigEnv.VStr "")])] in
  let environ (name : string) :=
    if String.eqb name "GROK2API_CONFIG__PROXY__BROWSER"
    then Some "chrome136" else None in
  let r := ConfigEnv.build (fun _ => None) (fun _ => None) (fun _ => None)
             ConfigEnv.DEFAULT_ENV_PREFIX environ defaults ConfigEnv.VNone in
  ConfigEnv.dict_get_item "proxy.cf_clearance" (ConfigEnv.locked_paths r)
    = None /\
  ConfigEnv.dict_get_item "proxy.cf_clearance" (ConfigEnv.errors r) = None.
Proof.
  cbv zeta.
  apply (proj2 (proj2 (proj2
           (build_sorts_paths (fun _ => None) (fun _ => None) (fun _ => None)
              ConfigEnv.DEFAULT_ENV_PREFIX _ _ ConfigEnv.VNone
              "proxy.cf_clearance")))).
  reflexivity.
Defined.

Section Flatten.

Import ConfigEnv ConfigEnvSpec.

(** Induction on a value through the values of its dicts. *)
Lemma Value_dict_ind (P : Value -> Prop) :
  (forall v, is_dict v = false -> P v) ->
  (forall d, Forall (fun kv => P (snd kv)) d -> P (VDict d)) ->
  forall v, P v.
Proof.
  intros Hleaf Hdict. fix IH 1. intros [| | | | | |d].
  1-6: now apply Hleaf.
  apply Hdict. induction d as [|[k x] rest IHd]; constructor.
  - apply IH.
  - exact IHd.
Qed.

Lemma flatten_dict_items d parent :
  _flatten_dict (VDict d) parent = flatten_items parent d [].
Proof.
  cbn [_flatten_dict]. generalize (@nil (string * Value)) as out.
  induction d as [|[key value] rest IH]; intro out; [reflexivity|].
  cbn [flatten_items]. rewrite <- IH. reflexivity.
Qed.

Lemma leaf_paths_items d : leaf_paths (VDict d) = items_paths d.
Proof.
  induction d as [|[key value] rest IH]; [reflexivity|].
  cbn [items_paths]. rewrite <- IH. reflexivity.
Qed.

Lemma In_dict_set_item {A} (kv : string * A) k v d :
  In kv (dict_set_item k v d) -> kv = (k, v) \/ In kv d.
Proof.
  induction d as [|[k0 v0] rest IH]; cbn.
  - intuition congruence.
  - destruct (String.eqb k k0); cbn; [intuition congruence|].
    intros [E|I]; [auto|]. destruct (IH I); auto.
Qed.

Lemma In_dict_update {A} (kv : string * A) other : forall out,
  In kv (dict_update out other) -> In kv out \/ In kv other.
Proof.
  unfold dict_update. induction other as [|[k v] rest IH]; intro out; cbn.
  - auto.
  - intro I. destruct (IH _ I) as [I'|I']; [|auto].
    destruct (In_dict_set_item _ _ _ _ I'); auto.
Qed.

(** An item of a flattened dict is a leaf of the dict, under the joined
    keys of its path. *)
Lemma flatten_items_sound v : forall parent k x,
  In (k, x) (_flatten_dict v parent) ->
  is_dict x = false /\
  exists path, In path (leaf_paths v) /\ k = join "." (parent ++ path).
Proof.
  induction v as [v L|d F] using Value_dict_ind; intros parent k x I.
  - destruct v; try discriminate L; destruct I.
  - rewrite flatten_dict_items in I. rewrite leaf_paths_items.
    assert (forall out,
              In (k, x) (flatten_items parent d out) ->
              In (k, x) out \/
              (is_dict x = false /\
               exists path, In path (items_paths d) /\
                            k = join "." (parent ++ path))) as K.
    { clear I. induction d as [|[key value] rest IHd]; intros out I.
      - now left.
      - inversion F as [|? ? Pv Fr]; subst. cbn [snd] in Pv.
        cbn [flatten_items] in I.
        destruct (IHd Fr _ I) as [I'|(D & path & Ip & ->)].
        + destruct (is_dict value) eqn:V.
          * destruct (In_dict_update _ _ _ I') as [Io|If]; [now left|].
            right. destruct (Pv _ _ _ If) as (D & path & Ip & ->).
            split; [exact D|]. exists (key :: path). split.
            -- cbn [items_paths]. apply in_or_app. left.
               unfold entry_paths. rewrite V. now apply in_map.
            -- now rewrite <- app_assoc.
          * destruct (In_dict_set_item _ _ _ _ I') as [E|Io]; [|now left].
            right. injection E as -> ->. split; [exact V|].
            exists [key]. split; [|reflexivity].
            cbn [items_paths]. apply in_or_app. left.
            unfold entry_paths. rewrite V. now left.
        + right. split; [exact D|]. exists path. split; [|reflexivity].
          cbn [items_paths]. apply in_or_app. now right. }
    destruct (K _ I) as [[]|H]. exact H.
Qed.

Lemma items_paths_set k v d path :
  In path (items_paths (dict_set_item k v d)) ->
  In path (entry_paths k v) \/ In path (items_paths d).
Proof.
  induction d as [|[k0 v0] rest IH]; cbn [dict_set_item items_paths].
  - rewrite app_nil_r. auto.
  - destruct (String.eqb k k0); cbn [items_paths];
      rewrite !in_app_iff; [tauto|].
    intros [I|I]; [tauto|]. destruct (IH I); tauto.
Qed.

Lemma items_paths_get k v d path :
  dict_get_item k d = Some v ->
  In path (entry_paths k v) -> In path (items_paths d).
Proof.
  induction d as [|[k0 v0] rest IH]; cbn [dict_get_item items_paths];
    [discriminate|].
  rewrite in_app_iff. destruct (String.eqb k k0) eqn:E.
  - apply String.eqb_eq in E. subst k0. intros [= ->]. auto.
  - auto.
Qed.

(** [_set_by_path] adds the path it is given, and no other. *)
Lemma set_by_path_paths segments : forall target value path,
  is_dict value = false ->
  In path (items_paths (_set_by_path target segments value)) ->
  path = segments \/ In path (items_paths target).
Proof.
  induction segments as [|segment rest IH]; intros target value path V I.
  - now right.
  - cbn [_set_by_path] in I. destruct rest as [|next rest'].
    + destruct (items_paths_set _ _ _ _ I) as [E|Io]; [|now right].
      unfold entry_paths in E. rewrite V in E.
      destruct E as [<-|[]]. now left.
    + cbv zeta in I.
      destruct (items_paths_set _ _ _ _ I) as [E|Io]; [|now right].
      unfold entry_paths in E. cbn [is_dict] in E.
      rewrite leaf_paths_items in E.
      apply in_map_iff in E as (path' & <- & Ip).
      destruct (IH _ _ _ V Ip) as [->|In']; [now left|]. right.
      destruct (dict_get_item segment target) as [[| | | | | |n]|] eqn:G;
        try destruct In'.
      apply (items_paths_get segment (VDict n)); [exact G|].
      unfold entry_paths. cbn [is_dict]. rewrite leaf_paths_items.
      now apply in_map.
Qed.

Lemma split_on_not_nil sep s : split_on sep s <> [].
Proof.
  destruct s as [|c r]; cbn; [discriminate|].
  destruct (Ascii.eqb c sep); [discriminate|].
  destruct (split_on sep r); discriminate.
Qed.

(** [".".join(path.split("."))] is [path]. *)
Lemma join_split_on path : join "." (split_on "." path) = path.
Proof.
  unfold join. induction path as [|c r IH]; [reflexivity|].
  cbn [split_on]. pose proof (split_on_not_nil "." r) as N.
  destruct (Ascii.eqb c ".") eqn:E.
  - apply Ascii.eqb_eq in E. subst c.
    destruct (split_on "." r) as [|h t]; [contradiction|].
    change (String.concat "." ("" :: h :: t))
      with ("" ++ "." ++ String.concat "." (h :: t))%string.
    now rewrite IH.
  - destruct (split_on "." r) as [|h t]; [contradiction|].
    destruct t as [|h' t'].
    + cbn in IH |- *. now rewrite IH.
    + change (String.concat "." (String c h :: h' :: t'))
        with (String c (h ++ "." ++ String.concat "." (h' :: t')))%string.
      change (String.concat "." (h :: h' :: t'))
        with (h ++ "." ++ String.concat "." (h' :: t'))%string in IH.
      now rewrite IH.
Qed.

(** The keys of a dict, flattened, are the joined paths of its leaves. *)
Lemma flatten_keys d k :
  In k (dict_keys (_flatten_dict (VDict d) [])) ->
  exists path, In path (items_paths d) /\ k = join "." path.
Proof.
  intro I. apply in_map_iff in I as ([k' x] & <- & I).
  destruct (flatten_items_sound _ _ _ _ I) as (_ & path & Ip & E).
  rewrite leaf_paths_items in Ip. exists path. auto.
Qed.

End Flatten.

Section FilterLocked.

Import ConfigEnv ConfigEnvSpec OverlaySpec.

Lemma filter_fold locked flat : forall filtered ignored,
  (forall k v, In (k, v) flat -> is_dict v = false) ->
  let r := fold_left (filter_step locked) flat (filtered, ignored) in
  (forall path,
     In path (items_paths (fst r)) ->
     In path (items_paths filtered) \/
     exists k, In k (dict_keys flat) /\ mem k locked = false /\
               path = split_on "." k) /\
  snd r = (ignored ++ filter (fun k => mem k locked) (dict_keys flat))%list.
Proof.
  cbv zeta. induction flat as [|[k v] rest IH]; intros filtered ignored L.
  - cbn. rewrite app_nil_r. auto.
  - cbn [fold_left filter_step dict_keys map fst filter].
    assert (forall k' v', In (k', v') rest -> is_dict v' = false) as L'
      by (intros k' v' I; apply (L k' v'); now right).
    destruct (mem k locked) eqn:M.
    + destruct (IH filtered (ignored ++ [k])%list L') as [P I]. split.
      * intros path Ip. destruct (P path Ip) as [|(k' & Ik & Mk & E)];
          [now left|].
        right. exists k'. split; [now right|auto].
      * rewrite I, <- app_assoc. reflexivity.
    + destruct (IH (_set_by_path filtered (split_on "." k) v) ignored L')
        as [P I]. split; [|exact I].
      intros path Ip. destruct (P path Ip) as [Is|(k' & Ik & Mk & E)].
      * destruct (set_by_path_paths _ _ _ _ (L k v (or_introl eq_refl)) Is)
          as [->|Io]; [|now left].
        right. exists k. split; [now left|auto].
      * right. exists k'. split; [now right|auto].
Qed.

Lemma filter_locked_config_dict d locked :
  filter_locked_config (VDict d) locked =
  (fst (fold_left (filter_step locked) (_flatten_dict (VDict d) [])
          ([], [])),
   sorted (snd (fold_left (filter_step locked) (_flatten_dict (VDict d) [])
                  ([], [])))).
Proof.
  unfold filter_locked_config. cbn [is_dict negb].
  destruct (fold_left (filter_step locked) (_flatten_dict (VDict d) [])
              ([], [])).
  reflexivity.
Qed.

Lemma flatten_values_not_dict v parent k x :
  In (k, x) (_flatten_dict v parent) -> is_dict x = false.
Proof.
  intro I. now apply (flatten_items_sound _ _ _ _ I).
Qed.

(** The flattened keys of what [filter_locked_config] keeps. *)
Lemma filter_keys new_config locked k :
  In k (dict_keys
          (_flatten_dict (VDict (fst (filter_locked_config new_config locked)))
                         [])) ->
  In k (dict_keys (_flatten_dict new_config [])) /\ mem k locked = false.
Proof.
  intro I. apply flatten_keys in I as (path & Ip & ->).
  destruct new_config as [| | | | | |d]; try destruct Ip.
  rewrite filter_locked_config_dict in Ip. cbn [fst] in Ip.
  destruct (filter_fold locked (_flatten_dict (VDict d) []) [] []
              (flatten_values_not_dict _ _)) as [P _].
  destruct (P path Ip) as [[]|(k & Ik & M & ->)].
  rewrite join_split_on. auto.
Qed.

(** X15. No locked path survives [filter_locked_config]: every leaf of
    the dict it returns is a leaf of the new configuration, under the same
    flattened key, and is not locked. The ignored paths are the locked keys
    of the flattened new configuration, sorted. *)
Theorem filter_drops_locked_paths new_config locked :
  let r := filter_locked_config new_config locked in
  let flat_new := _flatten_dict new_config [] in
  (forall k,
     In k (dict_keys (_flatten_dict (VDict (fst r)) [])) ->
     In k (dict_keys flat_new) /\ mem k locked = false) /\
  snd r = sorted (filter (fun k => mem k locked) (dict_keys flat_new)) /\
  (forall k, In k (snd r) <-> In k (dict_keys flat_new) /\ mem k locked = true).
Proof.
  cbv zeta. split; [intro k; apply filter_keys|].
  assert (snd (filter_locked_config new_config locked) =
          sorted (filter (fun k => mem k locked)
                         (dict_keys (_flatten_dict new_config [])))) as E.
  { destruct new_config as [| | | | | |d]; try reflexivity.
    rewrite filter_locked_config_dict. cbn [snd].
    destruct (filter_fold locked (_flatten_dict (VDict d) []) [] []
                (flatten_values_not_dict _ _)) as [_ I].
    exact (f_equal sorted I). }
  split; [exact E|]. intro k. rewrite E, In_sorted, filter_In. reflexivity.
Qed.

End FilterLocked.

Lemma filter_drops_locked_paths_witness :
  let new_config :=
    ConfigEnv.VDict
      [("proxy", ConfigEnv.VDict [("cf_clearance", ConfigEnv.VStr "abc");
                                  ("browser", ConfigEnv.VStr "chrome136")])] in
  let r := ConfigEnv.filter_locked_config new_config ["proxy.cf_clearance"] in
  In "proxy.browser"
     (ConfigEnv.dict_keys (ConfigEnv._flatten_dict new_config [])) /\
  ConfigEnv.mem "proxy.browser" ["proxy.cf_clearance"] = false.
Proof.
  cbv zeta.
  apply (proj1 (filter_drops_locked_paths _ ["proxy.cf_clearance"])).
  cbn. now left.
Defined.

Section OverlayOverrides.

Import ConfigEnv ConfigEnvSpec OverlaySpec.

Variable py_int py_float : string -> option Z.
Variable json_loads : string -> option Value.
Variable prefix : string.
Variable environ : string -> option string.

Lemma dict_get_item_In {A} k (v : A) d :
  dict_get_item k d = Some v -> In (k, v) d.
Proof.
  induction d as [|[k0 v0] rest IH]; cbn; [discriminate|].
  destruct (String.eqb k k0) eqn:E; [|auto].
  apply String.eqb_eq in E. subst k0. intros [= ->]. now left.
Qed.

Lemma template_of_not_dict defaults baseline path :
  is_dict (template_of defaults baseline path) = false.
Proof.
  unfold template_of, flat_or_empty.
  destruct (dict_get_item path (_flatten_dict _ [])) as [t|] eqn:G.
  - apply dict_get_item_In in G.
    now apply (flatten_items_sound _ _ _ _ G).
  - clear G.
    destruct (dict_get_item path (_flatten_dict _ [])) as [t|] eqn:G;
      [|reflexivity].
    apply dict_get_item_In in G.
    now apply (flatten_items_sound _ _ _ _ G).
Qed.

Lemma parse_value_not_dict raw template v :
  is_dict template = false ->
  _parse_value py_int py_float json_loads raw template = ParsedOk v ->
  is_dict v = false.
Proof.
  unfold _parse_value. intros T E.
  destruct template; try discriminate T;
    try (injection E as <-; reflexivity).
  - destruct (mem (lower (strip is_space raw)) _TRUE_VALUES);
      [injection E as <-; reflexivity|].
    destruct (mem (lower (strip is_space raw)) _FALSE_VALUES);
      [injection E as <-; reflexivity|discriminate].
  - destruct (py_int (strip is_space raw));
      [injection E as <-; reflexivity|discriminate].
  - destruct (py_float (strip is_space raw));
      [injection E as <-; reflexivity|discriminate].
  - destruct (_parse_json_value json_loads (strip is_space raw));
      try (injection E as <-; reflexivity);
      destruct (String.eqb (strip is_space raw) "");
      injection E as <-; reflexivity.
Qed.

Lemma build_fold_overrides defaults baseline paths : forall r0 path,
  let step := build_step py_int py_float json_loads prefix environ
                (flat_or_empty defaults) (flat_or_empty baseline) in
  In path (items_paths (overrides (fold_left step paths r0))) ->
  In path (items_paths (overrides r0)) \/
  exists p v, In p paths /\ path = split_on "." p /\
              reading py_int py_float json_loads prefix environ
                      defaults baseline p = Some (ParsedOk v).
Proof.
  cbv zeta. induction paths as [|p ps IH]; intros r0 path I.
  - now left.
  - cbn [fold_left] in I. destruct (IH _ _ I) as [Is|(p' & v & Ip & E & R)].
    + unfold build_step in Is. fold (template_of defaults baseline p) in Is.
      destruct (environ (path_to_env_var prefix p)) as [raw|] eqn:Ev;
        [|now left].
      destruct (_parse_value py_int py_float json_loads raw
                  (template_of defaults baseline p)) as [v|exc] eqn:Pv;
        cbn [overrides] in Is; [|now left].
      destruct (set_by_path_paths _ _ _ _
                  (parse_value_not_dict _ _ _
                     (template_of_not_dict defaults baseline p) Pv) Is)
        as [->|Io]; [|now left].
      right. exists p, v. split; [now left|]. split; [reflexivity|].
      unfold reading. now rewrite Ev, Pv.
    + right. exists p', v. split; [now right|auto].
Qed.

(** The flattened keys of the overrides of [build] are locked. *)
Lemma overrides_keys defaults baseline k :
  let r := build py_int py_float json_loads prefix environ
             defaults baseline in
  In k (dict_keys (_flatten_dict (VDict (overrides r)) [])) ->
  dict_get_item k (locked_paths r) = Some (path_to_env_var prefix k).
Proof.
  cbv zeta. intro I. apply flatten_keys in I as (path & Ip & ->).
  destruct (build_fold_overrides defaults baseline
              (build_paths defaults baseline) empty_result path Ip)
    as [[]|(p & v & Im & -> & R)].
  rewrite join_split_on.
  destruct (build_fold py_int py_float json_loads prefix environ
              defaults baseline (build_paths defaults baseline)
              empty_result p) as [L _].
  cbv zeta in L. rewrite R in L.
  apply mem_In in Im. rewrite Im in L. exact L.
Qed.

(** X16. Every leaf of the overrides that [build] returns is a locked
    path: its flattened key is in [locked_paths], with the name of its
    variable. So a new configuration that went through
    [filter_locked_config] with these locked paths has no leaf in common
    with the overrides. *)
Theorem overrides_are_locked defaults baseline new_config k :
  let r := build py_int py_float json_loads prefix environ
             defaults baseline in
  let filtered :=
    fst (filter_locked_config new_config (dict_keys (locked_paths r))) in
  In k (dict_keys (_flatten_dict (VDict (overrides r)) [])) ->
  dict_get_item k (locked_paths r) = Some (path_to_env_var prefix k) /\
  ~ In k (dict_keys (_flatten_dict (VDict filtered) [])).
Proof.
  cbv zeta. intro I. pose proof (overrides_keys _ _ _ I) as L.
  split; [exact L|]. intro F. apply filter_keys in F as [_ M].
  apply dict_get_item_In in L.
  assert (mem k (dict_keys
                   (locked_paths
                      (build py_int py_float json_loads prefix environ
                         defaults baseline))) = true) as M'.
  { apply mem_In. unfold dict_keys. apply in_map_iff.
    exists (k, path_to_env_var prefix k). auto. }
  congruence.
Qed.

End OverlayOverrides.

Lemma overrides_are_locked_witness :
  let defaults :=
    ConfigEnv.VDict
      [("proxy", ConfigEnv.VDict [("cf_clearance", ConfigEnv.VStr "");
                                  ("browser", ConfigEnv.VStr "chrome136")])] in
  let environ (name : string) :=
    if String.eqb name "GROK2API_CONFIG__PROXY__CF_CLEARANCE"
    then Some "abc" else None in
  let r := ConfigEnv.build (fun _ => None) (fun _ => None) (fun _ => None)
             ConfigEnv.DEFAULT_ENV_PREFIX environ defaults ConfigEnv.VNone in
  ConfigEnv.dict_get_item "proxy.cf_clearance" (ConfigEnv.locked_paths r)
  = Some "GROK2API_CONFIG__PROXY__CF_CLEARANCE" /\
  ~ In "proxy.cf_clearance"
       (ConfigEnv.dict_keys
          (ConfigEnv._flatten_dict
             (ConfigEnv.VDict
                (fst (ConfigEnv.filter_locked_config defaults
                        (ConfigEnv.dict_keys (ConfigEnv.locked_paths r)))))
             [])).
Proof.
  cbv zeta.
  apply (overrides_are_locked (fun _ => None) (fun _ => None) (fun _ => None)
           ConfigEnv.DEFAULT_ENV_PREFIX _ _ ConfigEnv.VNone _
           "proxy.cf_clearance").
  cbn. now left.
Defined.

Section ListFacts.

Context {A B : Type}.

Lemma NoDup_app_disjoint (l1 l2 : list A) a :
  NoDup (l1 ++ l2) -> In a l1 -> ~ In a l2.
Proof.
  induction l1 as [|x l1 IH]; cbn; [tauto|].
  intros N [->|I] I2.
  - apply NoDup_cons_iff in N as [N _]. apply N, in_or_app. now right.
  - apply NoDup_cons_iff in N as [_ N]. now apply (IH N I).
Qed.

Lemma NoDup_map_on (f : A -> B) (l : list A) :
  (forall x y, In x l -> In y l -> f x = f y -> x = y) ->
  NoDup l -> NoDup (map f l).
Proof.
  intros Inj N. induction N as [|x l X N IH]; cbn; constructor.
  - intro I. apply in_map_iff in I as (y & E & Y).
    apply Inj in E; [|now right|now left]. now subst.
  - apply IH. intros a b Ia Ib. apply Inj; now right.
Qed.

End ListFacts.

Section DictAppend.

Import ConfigEnv.

Context {A : Type}.

Lemma dict_set_item_new k (v : A) d :
  ~ In k (dict_keys d) -> dict_set_item k v d = (d ++ [(k, v)])%list.
Proof.
  induction d as [|[k0 v0] rest IH]; cbn; [reflexivity|]. intro N.
  destruct (String.eqb k k0) eqn:E.
  - apply String.eqb_eq in E. subst k0. exfalso. apply N. now left.
  - rewrite IH; [reflexivity|]. intro I. apply N. now right.
Qed.

Lemma dict_update_new (other : list (string * A)) : forall out,
  NoDup (dict_keys other) ->
  (forall k, In k (dict_keys other) -> ~ In k (dict_keys out)) ->
  dict_update out other = (out ++ other)%list.
Proof.
  unfold dict_update.
  induction other as [|[k v] rest IH]; intros out N D; cbn.
  - now rewrite app_nil_r.
  - cbn in N. apply NoDup_cons_iff in N as [Nk N].
    rewrite dict_set_item_new by (apply D; now left).
    rewrite IH; [now rewrite <- app_assoc|exact N|].
    intros k' I. unfold dict_keys. rewrite map_app, in_app_iff.
    intros [Io|[<-|[]]].
    + revert Io. apply D. now right.
    + exact (Nk I).
Qed.

Lemma dict_set_item_twice k (v v' : A) d :
  dict_set_item k v (dict_set_item k v' d) = dict_set_item k v d.
Proof.
  induction d as [|[k0 v0] rest IH]; cbn.
  - now rewrite String.eqb_refl.
  - destruct (String.eqb k k0) eqn:E; cbn.
    + now rewrite String.eqb_refl.
    + now rewrite E, IH.
Qed.

Lemma dict_get_item_none k (d : list (string * A)) :
  ~ In k (dict_keys d) -> dict_get_item k d = None.
Proof.
  induction d as [|[k0 v0] rest IH]; cbn; [reflexivity|]. intro N.
  destruct (String.eqb k k0) eqn:E.
  - apply String.eqb_eq in E. subst k0. exfalso. apply N. now left.
  - apply IH. intro I. apply N. now right.
Qed.

End DictAppend.

Section RoundTrip.

Import ConfigEnv ConfigEnvSpec RoundTripSpec.

Lemma leaf_entries_items d : leaf_entries (VDict d) = items_entries d.
Proof.
  induction d as [|[key value] rest IH]; [reflexivity|].
  cbn [items_entries]. rewrite <- IH. reflexivity.
Qed.

Lemma well_formed_items d :
  well_formed (VDict d) -> NoDup (map fst d) /\ items_ok d.
Proof.
  intros [N K]. split; [exact N|]. clear N.
  induction d as [|[key value] rest IH]; [exact I|].
  destruct K as (D & W & K). cbn [items_ok]. auto.
Qed.

Lemma items_ok_value key value d :
  items_ok d -> In (key, value) d ->
  dot_free key = true /\ well_formed value /\ value <> VDict [].
Proof.
  induction d as [|[k v] rest IH]; intros K I; [destruct I|].
  destruct K as (D & W & K). destruct I as [E|I]; [|auto].
  injection E as -> ->. split; [exact D|].
  destruct value as [| | | | | |[|x n]]; try (split; [exact W|discriminate]).
  destruct W.
Qed.

(** *** The paths of the leaves *)

Lemma entry_entries_head key value e :
  In e (entry_entries key value) -> exists p, fst e = key :: p.
Proof.
  unfold entry_entries. destruct (is_dict value).
  - intro I. apply in_map_iff in I as (e' & <- & _). now exists (fst e').
  - intros [<-|[]]. now exists [].
Qed.

Lemma items_entries_head d e :
  In e (items_entries d) ->
  exists key p, fst e = key :: p /\ In key (dict_keys d).
Proof.
  induction d as [|[key value] rest IH]; cbn [items_entries];
    [intros []|].
  rewrite in_app_iff. intros [I|I].
  - destruct (entry_entries_head _ _ _ I) as (p & E).
    exists key, p. split; [exact E|now left].
  - destruct (IH I) as (k & p & E & Ik). exists k, p.
    split; [exact E|now right].
Qed.

Lemma leaf_entries_ok v : forall e,
  well_formed v -> In e (leaf_entries v) ->
  forallb dot_free (fst e) = true /\ is_dict (snd e) = false.
Proof.
  induction v as [v L|d F] using Value_dict_ind; intros e W I.
  - destruct v; try discriminate L; destruct I.
  - rewrite leaf_entries_items in I.
    apply well_formed_items in W as [_ K].
    induction d as [|[key value] rest IHd]; [destruct I|].
    inversion F as [|? ? Pv Fr]; subst. cbn [snd] in Pv.
    destruct K as (D & W & K). cbn [items_entries] in I.
    apply in_app_or in I as [I|I]; [|now apply IHd].
    unfold entry_entries in I. destruct (is_dict value) eqn:V.
    + apply in_map_iff in I as (e' & <- & I').
      assert (well_formed value) as W'
        by (destruct value as [| | | | | |[|x n]]; try exact W; destruct W).
      destruct (Pv e' W' I') as [Df Nd]. cbn. now rewrite D, Df.
    + destruct I as [<-|[]]. cbn. now rewrite D, V.
Qed.

Lemma leaf_entries_NoDup v :
  well_formed v -> NoDup (map fst (leaf_entries v)).
Proof.
  induction v as [v L|d F] using Value_dict_ind; intro W.
  - destruct v; try discriminate L; constructor.
  - rewrite leaf_entries_items.
    apply well_formed_items in W as [N K].
    induction d as [|[key value] rest IHd]; [constructor|].
    inversion F as [|? ? Pv Fr]; subst. cbn [snd] in Pv.
    destruct K as (D & W & K). cbn [map fst] in N.
    apply NoDup_cons_iff in N as [Nk N].
    cbn [items_entries]. rewrite map_app. apply NoDup_app.
    + unfold entry_entries. destruct (is_dict value) eqn:V.
      * rewrite map_map. cbn [under fst].
        rewrite <- (map_map fst (cons key)).
        apply NoDup_map_on; [intros x y _ _ [= ->]; reflexivity|].
        apply Pv.
        destruct value as [| | | | | |[|x n]]; try exact W; destruct W.
      * repeat constructor. intros [].
    + now apply IHd.
    + intros p Ip Ir.
      apply in_map_iff in Ip as (e & <- & Ie).
      apply in_map_iff in Ir as (e' & E & Ie').
      destruct (entry_entries_head _ _ _ Ie) as (q & Q).
      destruct (items_entries_head _ _ Ie') as (k & q' & Q' & Ik).
      rewrite Q, Q' in E. injection E as -> _. exact (Nk Ik).
Qed.

Lemma leaf_entries_not_nil v :
  well_formed v -> is_dict v = true -> v <> VDict [] ->
  leaf_entries v <> [].
Proof.
  induction v as [v L|d F] using Value_dict_ind; intros W D N.
  - congruence.
  - rewrite leaf_entries_items. apply well_formed_items in W as [_ K].
    destruct d as [|[key value] rest]; [congruence|].
    inversion F as [|? ? Pv _]; subst. cbn [snd] in Pv.
    destruct K as (_ & W & _). cbn [items_entries]. unfold entry_entries.
    destruct (is_dict value) eqn:V; [|discriminate].
    assert (well_formed value /\ value <> VDict []) as [W' N'].
    { destruct value as [| | | | | |[|x n]];
        try (split; [exact W|discriminate]). destruct W. }
    pose proof (Pv W' eq_refl N') as Q.
    destruct (leaf_entries value); [congruence|discriminate].
Qed.

(** *** Splitting a joined path *)

Lemma split_on_dot_free x :
  dot_free x = true -> split_on "." x = [x].
Proof.
  induction x as [|c r IH]; [reflexivity|]. cbn.
  intro D. apply andb_prop in D as [C D].
  destruct (Ascii.eqb c "."); [discriminate|]. now rewrite (IH D).
Qed.

Lemma split_on_app_dot x s :
  dot_free x = true ->
  split_on "." (x ++ String "." s) = x :: split_on "." s.
Proof.
  induction x as [|c r IH]; [reflexivity|]. cbn.
  intro D. apply andb_prop in D as [C D].
  destruct (Ascii.eqb c "."); [discriminate|]. now rewrite (IH D).
Qed.

Lemma split_on_join l :
  forallb dot_free l = true -> l <> [] ->
  split_on "." (join "." l) = l.
Proof.
  unfold join. induction l as [|x [|y t] IH]; intros D N.
  - congruence.
  - cbn in D |- *. apply andb_prop in D as [D _].
    now apply split_on_dot_free.
  - cbn [forallb] in D. apply andb_prop in D as [Dx D].
    change (String.concat "." (x :: y :: t))
      with (x ++ String "." (String.concat "." (y :: t)))%string.
    rewrite (split_on_app_dot _ _ Dx), IH; [reflexivity|exact D|discriminate].
Qed.

Lemma flat_key_injective parent e1 e2 :
  forallb dot_free parent = true ->
  forallb dot_free (fst e1) = true -> forallb dot_free (fst e2) = true ->
  fst e1 <> [] -> fst e2 <> [] ->
  flat_key parent e1 = flat_key parent e2 -> fst e1 = fst e2.
Proof.
  unfold flat_key. intros Dp D1 D2 N1 N2 E.
  apply (f_equal (split_on ".")) in E.
  rewrite !split_on_join in E.
  - now apply app_inv_head in E.
  - rewrite forallb_app. now rewrite Dp, D2.
  - destruct parent, (fst e2); try discriminate; congruence.
  - rewrite forallb_app. now rewrite Dp, D1.
  - destruct parent, (fst e1); try discriminate; congruence.
Qed.

Lemma items_entries_not_nil_path d e :
  In e (items_entries d) -> fst e <> [].
Proof.
  intro I. destruct (items_entries_head _ _ I) as (k & p & -> & _).
  discriminate.
Qed.

(** The flattened keys of a well-formed dict are distinct. *)
Lemma flat_keys_NoDup d parent :
  well_formed (VDict d) -> forallb dot_free parent = true ->
  NoDup (map (flat_key parent) (items_entries d)).
Proof.
  intros W Dp.
  assert (forall x y, In x (items_entries d) -> In y (items_entries d) ->
                      flat_key parent x = flat_key parent y ->
                      fst x = fst y) as Inj.
  { intros x y Ix Iy. rewrite <- leaf_entries_items in Ix, Iy.
    apply flat_key_injective;
      try exact Dp;
      try (now apply (leaf_entries_ok (VDict d)));
      rewrite leaf_entries_items in Ix, Iy;
      now apply (items_entries_not_nil_path d). }
  pose proof (leaf_entries_NoDup _ W) as N. rewrite leaf_entries_items in N.
  clear W. induction (items_entries d) as [|e l IH]; cbn; [constructor|].
  cbn in N. apply NoDup_cons_iff in N as [Ne N]. constructor.
  - intro I. apply in_map_iff in I as (e' & E & I).
    apply Ne. apply in_map_iff. exists e'. split; [|exact I].
    apply Inj; [now right|now left|exact E].
  - apply IH; [|exact N]. intros x y Ix Iy. apply Inj; now right.
Qed.

(** *** Flattening a well-formed dict *)

Lemma flat_item_under parent key e :
  flat_item parent (under key e) = flat_item (parent ++ [key]) e.
Proof.
  unfold flat_item, flat_key, under. cbn [fst snd].
  now rewrite <- app_assoc.
Qed.

Lemma flatten_well_formed v : forall parent,
  well_formed v -> forallb dot_free parent = true ->
  _flatten_dict v parent = map (flat_item parent) (leaf_entries v).
Proof.
  induction v as [v L|d F] using Value_dict_ind; intros parent W Dp.
  - destruct v; try discriminate L; reflexivity.
  - rewrite flatten_dict_items, leaf_entries_items.
    pose proof (flat_keys_NoDup d parent W Dp) as N.
    apply well_formed_items in W as [_ K].
    change (map (flat_item parent) (items_entries d))
      with ([] ++ map (flat_item parent) (items_entries d))%list.
    assert (forall e, In e (items_entries d) ->
                      ~ In (flat_key parent e) (@dict_keys Value [])) as Dj
      by (intros e _ []).
    revert Dj. generalize (@nil (string * Value)) as out.
    induction d as [|[key value] rest IHd]; intros out Dj.
    + cbn. now rewrite app_nil_r.
    + inversion F as [|? ? Pv Fr]; subst. cbn [snd] in Pv.
      destruct K as (D & Wv & K).
      cbn [items_entries] in N, Dj |- *. rewrite map_app in N |- *.
      cbn [flatten_items].
      match goal with
      | |- flatten_items _ _ ?step = _ =>
          assert (step = (out ++ map (flat_item parent)
                                     (entry_entries key value))%list) as ->
      end.
      { unfold entry_entries. destruct (is_dict value) eqn:V.
        - assert (well_formed value) as W'
            by (destruct value as [| | | | | |[|x n]];
                try exact Wv; destruct Wv).
          rewrite (Pv (parent ++ [key])%list W')
            by (rewrite forallb_app; cbn; now rewrite Dp, D).
          rewrite map_map.
          rewrite (map_ext _ _ (flat_item_under parent key)).
          apply dict_update_new.
          + apply NoDup_app_remove_r in N.
            unfold entry_entries in N. rewrite V in N.
            rewrite map_map in N.
            unfold dict_keys. rewrite map_map.
            erewrite map_ext; [exact N|].
            intro e. now rewrite <- flat_item_under.
          + intros k I. unfold dict_keys in I. rewrite map_map in I.
            apply in_map_iff in I as (e & <- & I).
            rewrite <- flat_item_under. apply Dj, in_or_app. left.
            unfold entry_entries. rewrite V. now apply in_map.
        - apply dict_set_item_new.
          apply (Dj ([key], value)), in_or_app. left.
          unfold entry_entries. rewrite V. now left. }
      rewrite (IHd Fr K (NoDup_app_remove_l _ _ N)).
      * now rewrite <- app_assoc.
      * intros e I. unfold dict_keys. rewrite map_app, in_app_iff.
        intros [Io|Ie].
        -- revert Io. apply Dj, in_or_app. now right.
        -- rewrite map_map in Ie. cbn [flat_item fst] in Ie.
           revert Ie. intro Ie.
           apply (NoDup_app_disjoint _ _ _ N Ie).
           now apply in_map.
Qed.

(** *** Rebuilding from the leaves *)

Lemma fold_set_under key es :
  es <> [] -> (forall e, In e es -> fst e <> []) ->
  forall target,
    fold_left set_entry (map (under key) es) target =
    dict_set_item key
      (VDict (fold_left set_entry es (node_at key target))) target.
Proof.
  induction es as [|e es' IH]; intros N P target; [congruence|].
  assert (set_entry target (under key e) =
          dict_set_item key (VDict (set_entry (node_at key target) e)) target)
    as S1.
  { unfold set_entry, under, node_at. cbn [fst snd].
    pose proof (P e (or_introl eq_refl)) as Ne.
    destruct (fst e) as [|s r]; [congruence|]. reflexivity. }
  cbn [map fold_left]. rewrite S1. destruct es' as [|e' es''].
  - reflexivity.
  - rewrite IH; [|discriminate|intros x I; apply P; now right].
    unfold node_at at 1. rewrite dict_get_item_set, String.eqb_refl.
    now rewrite dict_set_item_twice.
Qed.

Lemma rebuild_items v : forall d target,
  v = VDict d -> well_formed v ->
  (forall k, In k (dict_keys d) -> ~ In k (dict_keys target)) ->
  fold_left set_entry (items_entries d) target = (target ++ d)%list.
Proof.
  induction v as [v L|d0 F] using Value_dict_ind; intros d target E W Dj.
  - subst v. discriminate L.
  - injection E as <-. apply well_formed_items in W as [N K].
    revert target Dj.
    induction d0 as [|[key value] rest IHd]; intros target Dj.
    + cbn. now rewrite app_nil_r.
    + inversion F as [|? ? Pv Fr]; subst. cbn [snd] in Pv.
      destruct K as (D & Wv & K). cbn [map fst] in N.
      apply NoDup_cons_iff in N as [Nk N].
      cbn [items_entries]. rewrite fold_left_app.
      assert (fold_left set_entry (entry_entries key value) target
              = (target ++ [(key, value)])%list) as ->.
      { pose proof (Dj key (or_introl eq_refl)) as Nt.
        unfold entry_entries. destruct value as [| | | | | |n];
          cbn [is_dict fold_left];
          try (unfold set_entry; cbn [fst snd _set_by_path];
               now apply dict_set_item_new).
        destruct n as [|x n]; [destruct Wv|].
        rewrite leaf_entries_items, fold_set_under.
        - unfold node_at. rewrite (dict_get_item_none _ _ Nt).
          rewrite (Pv (x :: n) [] eq_refl Wv) by (intros k _ []).
          now apply dict_set_item_new.
        - rewrite <- leaf_entries_items.
          apply leaf_entries_not_nil; [exact Wv|reflexivity|discriminate].
        - apply items_entries_not_nil_path. }
      rewrite (IHd Fr N K); [now rewrite <- app_assoc|].
      intros k I. unfold dict_keys. rewrite map_app, in_app_iff.
      intros [It|[<-|[]]].
      * revert It. apply Dj. now right.
      * exact (Nk I).
Qed.

Lemma filter_fold_unlocked locked es : forall target ignored,
  (forall e, In e es ->
             mem (flat_key [] e) locked = false /\
             split_on "." (flat_key [] e) = fst e) ->
  fold_left (filter_step locked) (map (flat_item []) es) (target, ignored)
  = (fold_left set_entry es target, ignored).
Proof.
  induction es as [|e es' IH]; intros target ignored H; [reflexivity|].
  cbn [map fold_left]. destruct (H e (or_introl eq_refl)) as [M S0].
  unfold filter_step at 2. unfold flat_item at 2. rewrite M, S0.
  apply IH. intros x I. apply H. now right.
Qed.

(** X17. A configuration in which no leaf is locked goes through
    [filter_locked_config] unchanged, with nothing ignored, when in each of
    its dicts the keys are distinct and free of dots and no nested dict is
    empty: flattening it and setting its leaves again by their paths gives
    the same dict, keys in the same order. *)
Theorem unlocked_config_unchanged d locked :
  well_formed (VDict d) ->
  (forall k, In k (dict_keys (_flatten_dict (VDict d) [])) ->
             mem k locked = false) ->
  filter_locked_config (VDict d) locked = (d, []).
Proof.
  intros W U. rewrite filter_locked_config_dict.
  rewrite (flatten_well_formed _ [] W eq_refl) in U |- *.
  rewrite leaf_entries_items in U |- *.
  rewrite filter_fold_unlocked.
  - cbn [fst snd sorted fold_right].
    now rewrite (rebuild_items _ d [] eq_refl W) by (intros k _ []).
  - intros e I. split.
    + apply U. unfold dict_keys. rewrite map_map. cbn [flat_item fst].
      now apply in_map.
    + unfold flat_key. cbn [app]. apply split_on_join.
      * rewrite <- leaf_entries_items in I.
        now apply (leaf_entries_ok (VDict d)).
      * now apply (items_entries_not_nil_path d).
Qed.

End RoundTrip.

Lemma unlocked_config_unchanged_witness :
  let d :=
    [("proxy", ConfigEnv.VDict [("cf_clearance", ConfigEnv.VStr "abc");
                                ("browser", ConfigEnv.VStr "chrome136")]);
     ("app", ConfigEnv.VDict [("debug", ConfigEnv.VBool false)])] in
  ConfigEnv.filter_locked_config (ConfigEnv.VDict d) ["proxy.user_agent"]
  = (d, []).
Proof.
  cbv zeta. apply unlocked_config_unchanged.
  - cbn. repeat split; repeat constructor; cbn; intuition discriminate.
  - cbn. intros k [<-|[<-|[<-|[]]]]; reflexivity.
Defined.

(** * More on the administrative endpoints *)

Section AdminEndpoints.

Import CFClearanceService.

Variable localtime_ok : Number -> bool.
Variable cfg : Config.

(** X18. The refresh endpoint called without [force] does not refresh
    when a valid entry is cached: its only operation is the lookup and the
    world stays as it was. When the lookup can write the remaining lifetime
    of the entry in its log line, the response shows the first 30 characters
    of the cached token and three dots, or reports a failure when the cached
    token is the empty string, though no fetch was tried; when the log line
    cannot be written, the exception of the lookup leaves the endpoint. *)
Theorem unforced_refresh_serves_cache env i w c :
  is_enabled cfg = true ->
  lookup w (effective_browser cfg None) (effective_proxy cfg None) = Some c ->
  let token := CFClearanceCache.cf_clearance c in
  run localtime_ok (AdminApi.refresh_cf cfg false) env i w =
  (if log_ok w c then
     Return
       (if truthy_str token
        then {| AdminApi.refresh_success := true;
                AdminApi.refresh_cf_clearance := Some (take 30 token ++ "...");
                AdminApi.refresh_message :=
                  "CF Clearance refreshed successfully" |}
        else AdminApi.refresh_failed)
   else Raise OtherException,
   w,
   [EvCall (CGetCached (effective_browser cfg None)
                       (effective_proxy cfg None))]).
Proof.
  intros E L. cbv zeta. unfold AdminApi.refresh_cf. rewrite E.
  cbn [negb]. rewrite run_bind. cbn [run]. rewrite run_bind.
  rewrite (run_get_clearance_hit localtime_ok cfg None None env _ w c L).
  destruct (log_ok w c); [|reflexivity].
  destruct (truthy_str (CFClearanceCache.cf_clearance c)); reflexivity.
Qed.

End AdminEndpoints.

(** A valid entry is cached: the endpoint answers from it. *)
Lemma unforced_refresh_serves_cache_witness :
  let c := sample_entry "abcd1234" 4600 in
  let w := sample_world (Some c) false 1010 in
  run always_ok (AdminApi.refresh_cf sample_cfg false)
      (quiet (HttpRaised TimeoutException)) 0 w =
  (Return {| AdminApi.refresh_success := true;
             AdminApi.refresh_cf_clearance := Some "abcd1234...";
             AdminApi.refresh_message :=
               "CF Clearance refreshed successfully" |},
   w, [EvCall (CGetCached "chrome136" None)]).
Proof.
  intros c w.
  exact (unforced_refresh_serves_cache always_ok sample_cfg
           (quiet (HttpRaised TimeoutException)) 0%nat w c
           eq_refl eq_refl).
Defined.

(** ** An invalidation during a fetch *)

Section InvalidationRace.

Import CFClearanceService.

Variable localtime_ok : Number -> bool.
Variable cfg : Config.
Variable service_url : string.
Hypothesis Hurl : cf_clearance_service_url cfg = Some service_url.
Hypothesis Henabled : is_enabled cfg = true.

(** X19. An invalidation that arrives while a fetch is in flight does not
    last. When the invalidate endpoint runs while the fetcher waits for the
    remote service, the cache is empty at the moment the reply comes; the
    reply being a success, the fetcher stores its entry all the same and
    lowers the flag, so the call ends with the fetched entry in the cache.
    The endpoint itself empties the cache and leaves the flag alone,
    whatever the configuration. *)
Theorem invalidation_during_fetch_is_lost browser proxy force env i w data :
  fetcher_path cfg w browser proxy force = true ->
  (forall w',
     interfere (env i) w' =
     final_world (run localtime_ok AdminApi.invalidate_cf env i w')) ->
  remote_success
    (reply (env i) (AHttpPost (request_of cfg service_url browser proxy)))
    = Some data ->
  let c := entry_of_payload data (effective_browser cfg browser)
                            (effective_proxy cfg proxy) in
  let at_reply := interfere (env i) (with_refreshing w true) in
  let r := run localtime_ok (get_cache cfg browser proxy force) env i w in
  CFClearanceCacheManager._cache (manager at_reply) = None /\
  refreshing at_reply = true /\
  CFClearanceCacheManager._cache (manager (final_world r)) = Some c /\
  refreshing (final_world r) = false.
Proof.
  intros P I F. cbv zeta.
  rewrite (run_get_cache_fetched localtime_ok cfg service_url Hurl Henabled
             browser proxy force env i w data P F).
  rewrite I. repeat split.
Qed.

End InvalidationRace.

(** The endpoint empties the cache during the fetch; the entry of the reply
    is cached when the call ends. *)
Lemma invalidation_during_fetch_is_lost_witness :
  let old := sample_entry "old-token" 1200 in
  let w := sample_world (Some old) false 1000 in
  let env (i : nat) :=
    {| interfere := invalidated;
       reply := reply_with
                  (HttpResponse
                     {| status_code := 200;
                        body := JsonObject (sample_payload "abcd1234" 4600) |})
    |} in
  let r := run always_ok
               (CFClearanceService.get_cache sample_cfg None None false)
               env 0 w in
  CFClearanceCacheManager._cache (manager (final_world r))
  = Some (sample_entry "abcd1234" 4600) /\
  refreshing (final_world r) = false.
Proof.
  intros old w env r.
  destruct (invalidation_during_fetch_is_lost always_ok sample_cfg
              "http://cf-service:8080/" eq_refl eq_refl None None false
              env 0%nat w (sample_payload "abcd1234" 4600)
              eq_refl (fun _ => eq_refl) eq_refl)
    as (_ & _ & H1 & H2).
  split; [exact H1|exact H2].
Defined.
